(** * Search and bulk-update engines of the FastAPI template

    A shallow embedding of [src/core/schemas/search.py],
    [src/core/exceptions/search.py], [src/core/services/search_service.py]
    and [src/core/mixins.py], and of the helpers of [src/core/utils.py] and
    [src/core/validators.py], with the properties the specification states
    about them.

    Python dictionaries are finite maps ([gmap]), Python exceptions are the
    left summand of a result type, and the database session of the bulk
    update is an explicit state threaded through the calls. *)

From Stdlib Require Import ZArith QArith Qround String Ascii.
From stdpp Require Import gmap strings list fin_maps sorting.

Open Scope string_scope.
Open Scope list_scope.
Open Scope Z_scope.

(** ** Python string helpers

    Text is a sequence of ASCII characters: the functions below are
    those of Python on such text. On other text [str.strip()] removes
    more kinds of whitespace, [str.lower()] changes more letters and
    [int] reads more digits than they do. *)

Module PyStr.

(** [Py_UNICODE_ISSPACE] restricted to ASCII: 0x09-0x0D, 0x1C-0x1F, 0x20. *)
Definition is_space (c : ascii) : bool :=
  let n := nat_of_ascii c in
  ((9 <=? n) && (n <=? 13) || (28 <=? n) && (n <=? 32))%nat.

Definition is_digit (c : ascii) : bool :=
  let n := nat_of_ascii c in ((48 <=? n) && (n <=? 57))%nat.

Definition digit_value (c : ascii) : Z := Z.of_nat (nat_of_ascii c) - 48.

Fixpoint lstrip (l : list ascii) : list ascii :=
  match l with
  | c :: l' => if is_space c then lstrip l' else l
  | [] => []
  end.

(** [str.strip()] *)
Definition strip (s : string) : string :=
  string_of_list_ascii
    (rev (lstrip (rev (lstrip (list_ascii_of_string s))))).

Definition lower_char (c : ascii) : ascii :=
  let n := nat_of_ascii c in
  if ((65 <=? n) && (n <=? 90))%nat then ascii_of_nat (n + 32) else c.

(** [str.lower()] *)
Definition lower (s : string) : string :=
  string_of_list_ascii (map lower_char (list_ascii_of_string s)).

(** Digits of a decimal literal, single underscores allowed between
    digits; [prev] tells whether the previous character was a digit. *)
Fixpoint digits (acc : Z) (prev : bool) (l : list ascii) : option Z :=
  match l with
  | [] => if prev then Some acc else None
  | c :: l' =>
      if is_digit c then digits (acc * 10 + digit_value c) true l'
      else if Ascii.eqb c "_" then
             (if prev then digits acc false l' else None)
      else None
  end.

(** The whitespace that [int] skips at both ends of its argument,
    which is not that of [str.strip()]: 0x09-0x0D and 0x20. *)
Definition is_int_space (c : ascii) : bool :=
  let n := nat_of_ascii c in
  ((9 <=? n) && (n <=? 13) || (n =? 32))%nat.

Fixpoint lskip (l : list ascii) : list ascii :=
  match l with
  | c :: l' => if is_int_space c then lskip l' else l
  | [] => []
  end.

(** The most digits [int] takes in a decimal literal
    ([sys.int_info.default_max_str_digits]). *)
Definition max_str_digits : nat := 4300.

(** [int(s)] for a string argument, base 10: [None] stands for the
    [ValueError] that Python raises, for a text that is no literal and
    for a literal of too many digits. *)
Definition int (s : string) : option Z :=
  let l := rev (lskip (rev (lskip (list_ascii_of_string s)))) in
  if (max_str_digits <? List.length (List.filter is_digit l))%nat then None
  else
    match l with
    | "+"%char :: l => digits 0 false l
    | "-"%char :: l => Z.opp <$> digits 0 false l
    | l => digits 0 false l
    end.

(** [s.isascii()] *)
Definition isascii (s : string) : bool :=
  forallb (λ c, (nat_of_ascii c <? 128)%nat) (list_ascii_of_string s).

(** [s.split(',')] *)
Fixpoint split_comma_aux (cur : list ascii) (l : list ascii) : list string :=
  match l with
  | [] => [string_of_list_ascii (rev cur)]
  | c :: l' =>
      if Ascii.eqb c "," then
        string_of_list_ascii (rev cur) :: split_comma_aux [] l'
      else split_comma_aux (c :: cur) l'
  end.

Definition split_comma (s : string) : list string :=
  split_comma_aux [] (list_ascii_of_string s).

End PyStr.

(** ** The search engine *)

Module Search.

(** *** [src/core/schemas/search.py] *)

Inductive FilterOperator :=
| CONTAINS | DOES_NOT_CONTAIN | EQUALS | NOT_EQUALS | STARTS_WITH
| ENDS_WITH | IS_EMPTY | IS_NOT_EMPTY | GREATER_THAN | LESS_THAN
| GREATER_OR_EQUAL | LESS_OR_EQUAL | IN | NOT_IN.

Inductive SortDirection := ASC | DESC.

Record BaseFilterItem := {
  f_column : string;
  f_value : string;
  f_operator : FilterOperator
}.

Record BaseSortItem := {
  s_column : string;
  s_direction : SortDirection
}.

Record BaseSearchRequestBody := {
  rq_search : option string;
  rq_page : option Z;
  rq_page_size : option Z;
  rq_filter : option (list BaseFilterItem);
  rq_sort : option (list BaseSortItem)
}.

(** The pydantic constraints on the request: [page >= 1] and
    [1 <= page_size <= 100] when present. *)
Definition valid_request (rq : BaseSearchRequestBody) : Prop :=
  (∀ p, rq_page rq = Some p → 1 ≤ p) ∧
  (∀ n, rq_page_size rq = Some n → 1 ≤ n ≤ 100).

(** *** [src/core/exceptions/search.py], and the other exceptions the
    service can let through *)

Inductive exn :=
| InvalidFilterFieldError (field_name model_name : string)
| InvalidSortFieldError (field_name model_name : string)
| InvalidSearchFieldError (model_name : string)
| FilterValueError (field_name value expected_type : string)
| AttributeError (name : string)
| InvalidOperation
| NotImplementedError
| ZeroDivisionError.

Definition result (A : Type) : Type := exn + A.

Definition bind {A B} (m : result A) (f : A → result B) : result B :=
  match m with inl e => inl e | inr a => f a end.

Notation "'let*' x ':=' m 'in' k" := (bind m (λ x, k))
  (at level 10, x pattern, m at level 100, k at level 200).

Record SearchResponse (T : Type) := {
  items : list T;
  total : Z;
  page : Z;
  page_size : Z;
  total_pages : Z
}.
Arguments items {T}. Arguments total {T}. Arguments page {T}.
Arguments page_size {T}. Arguments total_pages {T}.

(** [SearchResponse.create]; Python's [//] on integers is floor division,
    as [Z.div], and raises on a zero divisor. *)
Definition create {T} (its : list T) (tot pg pgsz : Z)
  : result (SearchResponse T) :=
  let* tp :=
    if decide (0 < tot) then
      if decide (pgsz = 0) then inl ZeroDivisionError
      else inr ((tot + pgsz - 1) / pgsz)
    else inr 0 in
  inr {| items := its; total := tot; page := pg; page_size := pgsz;
         total_pages := tp |}.

(** The specification's [ceil(total / page_size)], over the rationals. *)
Definition ceil_div (a b : Z) : Z := Qceiling (Qmake a (Z.to_pos b)).

(** *** [src/core/services/search_service.py] *)

(** The scalar types [column.type.python_type] is compared with; any
    other type goes by its name. *)
Inductive PyType := PyInt | PyFloat | PyDecimal | PyBool | PyOther (name : string).

(** [python_type.__name__] *)
Definition type_name (t : PyType) : string :=
  match t with
  | PyInt => "int" | PyFloat => "float" | PyDecimal => "Decimal"
  | PyBool => "bool" | PyOther n => n
  end.

(** A mapped column. Every column type of the library has the
    attribute [python_type]; [c_python_type] is [None] for a type that
    implements none, where reading the attribute raises
    [NotImplementedError]. *)
Record Column := {
  c_name : string;
  c_python_type : option PyType
}.

(** One entry of [join_columns]: a dictionary read with
    [.get('join')] and [.get('column')]. *)
Record JoinConfig := {
  j_join : option string;
  j_column : option Column
}.

Record SearchConfig := {
  simple_columns : list string;
  join_columns : gmap string JoinConfig;
  searchable_columns : list string;
  sortable_columns : list string
}.

(** Python's [x or default] on an optional list. *)
Definition list_or {A} (x : option (list A)) (d : list A) : list A :=
  match x with
  | Some (a :: l) => a :: l
  | _ => d
  end.

(** [SearchConfig.__init__] *)
Definition SearchConfig_init (simple : list string)
    (join : option (gmap string JoinConfig))
    (searchable sortable : option (list string)) : SearchConfig :=
  {| simple_columns := simple;
     join_columns := default ∅ join;
     searchable_columns := list_or searchable [];
     sortable_columns := list_or sortable simple |}.

(** The mapped class: its [__name__], the column attributes that
    [getattr(self.model, name)] finds, and its relationships. *)
Record Model := {
  m_name : string;
  m_columns : gmap string Column;
  m_relationships : list string
}.

Definition getattr (m : Model) (name : string) : result Column :=
  match m_columns m !! name with
  | Some c => inr c
  | None => inl (AttributeError name)
  end.

(** A filter value after conversion. A float or a decimal keeps its
    literal. *)
Inductive ConvValue :=
| CInt (z : Z) | CFloat (lit : string) | CDecimal (lit : string)
| CBool (b : bool) | CStr (s : string).

Inductive Condition :=
| Compare (op : FilterOperator) (c : Column) (v : ConvValue)
| Empty (c : Column)
| NotEmpty (c : Column)
| Member (c : Column) (vs : list ConvValue)
| NotMember (c : Column) (vs : list ConvValue)
| SearchAny (cs : list Column) (needle : string)
| WorkspaceIs (ws : Z).

Record Query := {
  q_options : list string;
  q_joins : list string;
  q_where : list Condition;
  q_order_by : list (Column * SortDirection);
  q_offset : option Z;
  q_limit : option Z
}.

Definition select : Query :=
  {| q_options := []; q_joins := []; q_where := []; q_order_by := [];
     q_offset := None; q_limit := None |}.

Definition where_ (q : Query) (c : Condition) : Query :=
  {| q_options := q_options q; q_joins := q_joins q;
     q_where := q_where q ++ [c]; q_order_by := q_order_by q;
     q_offset := q_offset q; q_limit := q_limit q |}.

Definition join (q : Query) (target : string) : Query :=
  {| q_options := q_options q; q_joins := q_joins q ++ [target];
     q_where := q_where q; q_order_by := q_order_by q;
     q_offset := q_offset q; q_limit := q_limit q |}.

Definition order_by (q : Query) (c : Column) (d : SortDirection) : Query :=
  {| q_options := q_options q; q_joins := q_joins q;
     q_where := q_where q; q_order_by := q_order_by q ++ [(c, d)];
     q_offset := q_offset q; q_limit := q_limit q |}.

Definition options (q : Query) (o : string) : Query :=
  {| q_options := q_options q ++ [o]; q_joins := q_joins q;
     q_where := q_where q; q_order_by := q_order_by q;
     q_offset := q_offset q; q_limit := q_limit q |}.

Definition offset_limit (q : Query) (off lim : Z) : Query :=
  {| q_options := q_options q; q_joins := q_joins q;
     q_where := q_where q; q_order_by := q_order_by q;
     q_offset := Some off; q_limit := Some lim |}.

Section Service.

(** Which strings [float(s)] and [Decimal(s)] accept is left to the
    Python runtime. [float] raises [ValueError] on the others,
    [Decimal] raises [decimal.InvalidOperation], which is an
    [ArithmeticError]. *)
Variable float_accepts : string → bool.
Variable decimal_accepts : string → bool.

Variable model : Model.
Variable config : SearchConfig.

(** [_convert_filter_value]: the [except (ValueError, TypeError)]
    clause turns a failure of [int] or [float] into a
    [FilterValueError]; a failure of [Decimal] is not caught there, nor
    is the [NotImplementedError] that [hasattr] lets through when the
    type implements no [python_type]. *)
Definition _convert_filter_value (column : Column) (value : string)
    (column_name : string) : result ConvValue :=
  match c_python_type column with
  | Some python_type =>
      match python_type with
      | PyInt =>
          match PyStr.int value with
          | Some z => inr (CInt z)
          | None => inl (FilterValueError column_name value (type_name python_type))
          end
      | PyFloat =>
          if float_accepts value then inr (CFloat value)
          else inl (FilterValueError column_name value (type_name python_type))
      | PyDecimal =>
          if decimal_accepts value then inr (CDecimal value)
          else inl InvalidOperation
      | PyBool =>
          inr (CBool (bool_decide
                        (PyStr.lower value ∈ ["true"; "1"; "yes"; "on"])))
      | PyOther _ => inr (CStr (PyStr.strip value))
      end
  | None => inl NotImplementedError
  end.

(** [[f(v) for v in values]] with the first exception propagating. *)
Fixpoint convert_all (column : Column) (values : list string)
    (column_name : string) : result (list ConvValue) :=
  match values with
  | [] => inr []
  | v :: vs =>
      let* c := _convert_filter_value column v column_name in
      let* cs := convert_all column vs column_name in
      inr (c :: cs)
  end.

(** [_build_filter_condition] *)
Definition _build_filter_condition (filter_item : BaseFilterItem)
  : result (option Condition) :=
  let column_name := f_column filter_item in
  let value := f_value filter_item in
  let operator := f_operator filter_item in
  if bool_decide (column_name ∉ simple_columns config) &&
     bool_decide (column_name ∉ dom (join_columns config)) then
    inl (InvalidFilterFieldError column_name (m_name model))
  else
    let* column :=
      if bool_decide (column_name ∈ simple_columns config) then
        let* c := getattr model column_name in inr (Some c)
      else
        inr (mbind j_column (join_columns config !! column_name)) in
    match column with
    | None => inl (InvalidFilterFieldError column_name (m_name model))
    | Some column =>
        let* converted_value :=
          _convert_filter_value column value column_name in
        match operator with
        | IS_EMPTY => inr (Some (Empty column))
        | IS_NOT_EMPTY => inr (Some (NotEmpty column))
        | IN =>
            let* vs := convert_all column
                         (PyStr.strip <$> PyStr.split_comma value)
                         column_name in
            inr (Some (Member column vs))
        | NOT_IN =>
            let* vs := convert_all column
                         (PyStr.strip <$> PyStr.split_comma value)
                         column_name in
            inr (Some (NotMember column vs))
        | op => inr (Some (Compare op column converted_value))
        end
    end.

(** [_apply_filters]: every exception of [_build_filter_condition] is
    caught by [except Exception] and replaced. *)
Fixpoint filter_conditions (filters : list BaseFilterItem)
  : result (list Condition) :=
  match filters with
  | [] => inr []
  | filter_item :: rest =>
      let* condition :=
        match _build_filter_condition filter_item with
        | inr c => inr c
        | inl _ =>
            inl (FilterValueError (f_column filter_item)
                   (f_value filter_item) "valid filter value")
        end in
      let* cs := filter_conditions rest in
      inr (match condition with Some c => c :: cs | None => cs end)
  end.

(** The conditions are combined by one [and_]; the model adds them to
    the [where] list one by one. *)
Definition _apply_filters (query : Query) (filters : list BaseFilterItem)
  : result Query :=
  let* cs := filter_conditions filters in
  inr (foldl where_ query cs).

(** [_add_joins_for_filters]; a join target is named by a string and
    is truthy whenever it is present. *)
Fixpoint add_joins (query : Query) (joined_tables : gset string)
    (filters : list BaseFilterItem) : Query * gset string :=
  match filters with
  | [] => (query, joined_tables)
  | filter_item :: rest =>
      match mbind j_join (join_columns config !! f_column filter_item) with
      | Some join_target =>
          if bool_decide (join_target ∉ joined_tables) then
            add_joins (join query join_target)
              ({[join_target]} ∪ joined_tables) rest
          else add_joins query joined_tables rest
      | None => add_joins query joined_tables rest
      end
  end.

Definition _add_joins_for_filters (query : Query)
    (filters : list BaseFilterItem) : Query * gset string :=
  add_joins query ∅ filters.

(** The columns [_apply_search] collects. *)
Fixpoint search_columns (names : list string) : result (list Column) :=
  match names with
  | [] => inr []
  | column_name :: rest =>
      let* here :=
        if bool_decide (column_name ∈ simple_columns config) then
          let* c := getattr model column_name in inr [c]
        else
          match mbind j_column (join_columns config !! column_name) with
          | Some target_column => inr [target_column]
          | None => inr []
          end in
      let* cs := search_columns rest in
      inr (here ++ cs)
  end.

(** [_apply_search] *)
Definition _apply_search (query : Query) (search_term : string)
  : result Query :=
  match searchable_columns config with
  | [] => inl (InvalidSearchFieldError (m_name model))
  | names =>
      let normalized_search := PyStr.lower (PyStr.strip search_term) in
      let* search_conditions := search_columns names in
      match search_conditions with
      | [] => inr query
      | cs => inr (where_ query (SearchAny cs normalized_search))
      end
  end.

(** [_apply_sorting]; [column.desc()] on a missing join column is an
    [AttributeError] on [None]. *)
Fixpoint _apply_sorting (query : Query) (sorts : list BaseSortItem)
    (joined_tables : gset string) : result (Query * gset string) :=
  match sorts with
  | [] => inr (query, joined_tables)
  | sort_item :: rest =>
      let column_name := s_column sort_item in
      if bool_decide (column_name ∉ sortable_columns config) &&
         bool_decide (column_name ∉ dom (join_columns config)) then
        inl (InvalidSortFieldError column_name (m_name model))
      else
        let* (column, query, joined_tables) :=
          if bool_decide (column_name ∈ simple_columns config) then
            let* c := getattr model column_name in
            inr (Some c, query, joined_tables)
          else
            match join_columns config !! column_name with
            | Some join_config =>
                match j_join join_config with
                | Some join_target =>
                    if bool_decide (join_target ∉ joined_tables) then
                      inr (j_column join_config, join query join_target,
                           {[join_target]} ∪ joined_tables)
                    else inr (j_column join_config, query, joined_tables)
                | None => inr (j_column join_config, query, joined_tables)
                end
            | None =>
                inl (InvalidSortFieldError column_name (m_name model))
            end in
        match column with
        | None =>
            inl (AttributeError
                   (match s_direction sort_item with
                    | DESC => "desc" | ASC => "asc" end))
        | Some column =>
            _apply_sorting (order_by query column (s_direction sort_item))
              rest joined_tables
        end
  end.

(** The query of [search] before the ordering, in the order of the
    source: workspace, joins, free text, filters. *)
Definition filtered_query (request_body : BaseSearchRequestBody)
    (workspace_id : option Z) : result (Query * gset string) :=
  let query := select in
  let* query :=
    if bool_decide (m_name model = "Product") then
      if bool_decide ("catalog_stocks" ∈ m_relationships model) then
        inr (options query "selectinload(catalog_stocks)")
      else inl (AttributeError "catalog_stocks")
    else inr query in
  let query :=
    match workspace_id with
    | Some ws =>
        if bool_decide ("workspace_id" ∈ dom (m_columns model)) then
          where_ query (WorkspaceIs ws)
        else query
    | None => query
    end in
  let '(query, joined_tables) :=
    match rq_filter request_body with
    | Some (f :: fs) => _add_joins_for_filters query (f :: fs)
    | _ => (query, ∅)
    end in
  let* query :=
    match rq_search request_body with
    | Some (String a s) => _apply_search query (String a s)
    | _ => inr query
    end in
  let* query :=
    match rq_filter request_body with
    | Some (f :: fs) => _apply_filters query (f :: fs)
    | _ => inr query
    end in
  inr (query, joined_tables).

(** The query with its ordering: the sort clauses, or [id] ascending
    when there are none. *)
Definition build_query (request_body : BaseSearchRequestBody)
    (workspace_id : option Z) : result Query :=
  let* (query, joined_tables) :=
    filtered_query request_body workspace_id in
  match rq_sort request_body with
  | Some (s :: ss) =>
      let* (query, _) := _apply_sorting query (s :: ss) joined_tables in
      inr query
  | _ =>
      let* id := getattr model "id" in
      inr (order_by query id ASC)
  end.

(** The database and the response model, as [search] uses them: the
    scalar of the count statement, the rows of the page statement, and
    [model_validate] on the dictionary built from a row. *)
Variable Item Resp : Type.
Variable scalar_count : Query → option Z.
Variable fetch_all : Query → list Item.
Variable model_validate : Item → result Resp.

Fixpoint validate_all (its : list Item) : result (list Resp) :=
  match its with
  | [] => inr []
  | i :: rest =>
      let* r := model_validate i in
      let* rs := validate_all rest in
      inr (r :: rs)
  end.

(** Python's [x or d] on an optional integer. *)
Definition int_or (x : option Z) (d : Z) : Z :=
  match x with
  | Some n => if decide (n = 0) then d else n
  | None => d
  end.

(** [search]; the [except Exception] clause logs and re-raises. *)
Definition search (request_body : BaseSearchRequestBody)
    (workspace_id : option Z) : result (SearchResponse Resp) :=
  let* query := build_query request_body workspace_id in
  let total := int_or (scalar_count query) 0 in
  let page := int_or (rq_page request_body) 1 in
  let page_size := int_or (rq_page_size request_body) 20 in
  let offset := (page - 1) * page_size in
  let query := offset_limit query offset page_size in
  let* response_items := validate_all (fetch_all query) in
  create response_items total page page_size.

End Service.

End Search.

(** ** The bulk-update engine: [src/core/mixins.py] *)

Module BulkUpdate.

(** *** Values, dictionaries, exceptions *)

(** The Python values a payload carries. *)
Inductive value := VNone | VBool (b : bool) | VInt (z : Z) | VStr (s : string).

#[global] Instance value_eq_dec : EqDecision value.
Proof. solve_decision. Defined.

(** Python truthiness, as [if row.get("__empty")] tests it. *)
Definition truthy (v : value) : bool :=
  match v with
  | VNone => false
  | VBool b => b
  | VInt z => negb (z =? 0)
  | VStr s => negb (String.eqb s "")
  end.

(** [d.get(k)] *)
Definition get (d : gmap string value) (k : string) : value :=
  default VNone (d !! k).

(** [StatementError] and [CompileError] stand for the errors of the
    library on a statement that cannot be run as it is written; they
    are of classes other than [IntegrityError], so that
    [except IntegrityError] does not catch them. *)
Inductive exn :=
| ValueError (msg : string)
| KeyError (key : string)
| IntegrityError (msg : string)
| StatementError
| CompileError.

Definition _MAX_QUERY_PARAMS : Z := 20000.

Record BulkUpdateResult := {
  updated : list (gmap string value);
  errors : list (gmap string value)
}.

(** [{"id": _id, "error": msg}] *)
Definition error_entry (id : value) (msg : string) : gmap string value :=
  {[ "id" := id; "error" := VStr msg ]}.

Definition not_found : string := "row not found or workspace mismatch".
Definition no_fields : string := "no fields to update".

(** *** The relational store

    The storage engine is an external collaborator. The model keeps what
    the statements of the mixin rely on: tuples addressed by their
    integer primary key [id], each a dictionary of its other columns
    (among them [workspace_id] when the table has one); statements that
    the library refuses as they are written, and otherwise take effect
    or raise [IntegrityError]; a session with a pending and a committed
    state. *)

Inductive statement :=
| UpdateFromValues (cols : list string)
    (values : list (value * list value)) (workspace : option Z)
| UpdateWhereId (id : value) (assignments : list (string * value))
    (workspace : option Z).

(** What a session is asked to do, with the outcome of each statement:
    the exception raised or the rows returned. *)
Inductive event :=
| Execute (s : statement) (outcome : exn + list (gmap string value))
| Commit
| Rollback.

Record Session := {
  committed : gmap Z (gmap string value);
  pending : gmap Z (gmap string value);
  trace : list event
}.

(** What [self] provides: the column names of [self.model.__table__]
    (its [id] column is taken for granted, as the module's docstring
    does), [self.workspace_id], the integrity constraints of the
    schema, which look at the state a statement would leave and name
    the violation, and, with [self.db_session], what the library and
    the server make of a statement before it takes effect: the
    exception they raise for one that they do not run. *)
Record Repository := {
  table_c : gset string;
  workspace_id : Z;
  violation : gmap Z (gmap string value) → option string;
  refuses : statement → option exn
}.

(** [t.workspace_id = :workspace_id], when the statement carries it. *)
Definition in_workspace (workspace : option Z) (t : gmap string value) : bool :=
  match workspace with
  | None => true
  | Some w => bool_decide (t !! "workspace_id" = Some (VInt w))
  end.

Definition assign (assignments : list (string * value))
    (t : gmap string value) : gmap string value :=
  list_to_map assignments ∪ t.

(** [RETURNING t.id, t.c1, ...]: the values as the tuple now holds
    them, which for a server that casts, pads or rounds need not be the
    values sent. *)
Definition returning (k : Z) (cols : list string) (t : gmap string value)
  : gmap string value :=
  <["id" := VInt k]> (list_to_map ((λ c, (c, get t c)) <$> cols)).

(** [UPDATE ... FROM (VALUES ...) AS d WHERE t.id = d.id ...]: a tuple is
    updated at most once, by the first row of the value list that joins
    with it, and the returned rows come in the order of the value
    list. *)
Fixpoint update_from_values (cols : list string) (workspace : option Z)
    (values : list (value * list value)) (done : gset Z)
    (db : gmap Z (gmap string value))
  : gmap Z (gmap string value) * list (gmap string value) :=
  match values with
  | [] => (db, [])
  | (VInt k, vs) :: rest =>
      match db !! k with
      | Some t =>
          if in_workspace workspace t && bool_decide (k ∉ done) then
            let t' := assign (zip cols vs) t in
            let '(db', out) :=
              update_from_values cols workspace rest ({[k]} ∪ done)
                (<[k := t']> db) in
            (db', returning k cols t' :: out)
          else update_from_values cols workspace rest done db
      | None => update_from_values cols workspace rest done db
      end
  | _ :: rest => update_from_values cols workspace rest done db
  end.

(** The effect of a statement on the pending state and the rows it
    returns, integrity aside. *)
Definition effect (s : statement) (db : gmap Z (gmap string value))
  : gmap Z (gmap string value) * list (gmap string value) :=
  match s with
  | UpdateFromValues cols values workspace =>
      update_from_values cols workspace values ∅ db
  | UpdateWhereId (VInt k) assignments workspace =>
      match db !! k with
      | Some t =>
          if in_workspace workspace t then
            let t' := assign assignments t in
            (<[k := t']> db, [returning k assignments.*1 t'])
          else (db, [])
      | None => (db, [])
      end
  | UpdateWhereId _ _ _ => (db, [])
  end.

(** *** The session monad: state and exceptions *)

Definition M (A : Type) : Type := Session → Session * (exn + A).

Definition ret {A} (a : A) : M A := λ s, (s, inr a).
Definition raise {A} (e : exn) : M A := λ s, (s, inl e).
Definition bind {A B} (m : M A) (f : A → M B) : M B :=
  λ s, match m s with
       | (s', inr a) => f a s'
       | (s', inl e) => (s', inl e)
       end.

Notation "'let!' x ':=' m 'in' k" := (bind m (λ x, k))
  (at level 10, x pattern, m at level 100, k at level 200).

(** [try: ... except IntegrityError as exc: ...], returning the message
    of the exception on the left. *)
Definition try_integrity {A} (m : M A) : M (string + A) :=
  λ s, match m s with
       | (s', inr a) => (s', inr (inr a))
       | (s', inl (IntegrityError msg)) => (s', inr (inl msg))
       | (s', inl e) => (s', inl e)
       end.

Definition log (e : event) (s : Session) : Session :=
  {| committed := committed s; pending := pending s;
     trace := trace s ++ [e] |}.

(** What the library makes of the statements as the mixin writes them:
    [refuses] for a session of SQLAlchemy.

    The set-based statement is a text in which every value stands as
    [:name::type], the parameter directly followed by a cast
    ([_execute_batch_update], the two [placeholders.append]). [sa.text]
    takes for a parameter a name that no colon follows, so none of the
    names of [params] is bound in the text and the statement fails
    (as does, on the server, a statement whose list of values is
    empty).

    The statement of one row is built with [sa.update] and carries,
    when the table has the column, the condition
    [table.c.workspace_id == sa.bindparam("workspace_id")] of
    [bulk_update]. It is executed with the parameter [workspace_id],
    which names a column of the table and so is set by the statement
    under that same name: the explicit parameter of the condition
    collides with it and the statement does not compile. Without the
    column the parameter names nothing and is left aside. *)
Definition as_written (stmt : statement) : option exn :=
  match stmt with
  | UpdateFromValues _ _ _ => Some StatementError
  | UpdateWhereId _ _ (Some _) => Some CompileError
  | UpdateWhereId _ _ None => None
  end.

(** [await self.db_session.execute(stmt, params)]: a statement that
    is refused raises and changes nothing; a statement that
    changes no tuple cannot violate a constraint; one that does and
    leaves a violating state raises and changes nothing. *)
Definition execute (self : Repository) (stmt : statement)
  : M (list (gmap string value)) :=
  λ s,
    match refuses self stmt with
    | Some e => (log (Execute stmt (inl e)) s, inl e)
    | None =>
        let '(db', rows) := effect stmt (pending s) in
        match rows, violation self db' with
        | _ :: _, Some msg =>
            (log (Execute stmt (inl (IntegrityError msg))) s,
             inl (IntegrityError msg))
        | _, _ =>
            (log (Execute stmt (inr rows))
               {| committed := committed s; pending := db';
                  trace := trace s |},
             inr rows)
        end
    end.

Definition commit : M unit :=
  λ s, ({| committed := pending s; pending := pending s;
           trace := trace s ++ [Commit] |}, inr tt).

Definition rollback : M unit :=
  λ s, ({| committed := committed s; pending := committed s;
           trace := trace s ++ [Rollback] |}, inr tt).

(** A [for] loop that threads an accumulator. *)
Fixpoint for_each {A S} (f : S → A → M S) (l : list A) (acc : S) : M S :=
  match l with
  | [] => ret acc
  | x :: l' => let! acc' := f acc x in for_each f l' acc'
  end.

(** *** [BulkUpdateMixin] *)

(** [row["id"]] on a normalised row, which always has the key. *)
Definition row_id (row : gmap string value) : value := get row "id".

(** [table.c[col_name]] for every column of the statement. *)
Fixpoint check_columns (self : Repository) (cols : list string) : M unit :=
  match cols with
  | [] => ret tt
  | c :: cols' =>
      if bool_decide (c ∈ table_c self) then check_columns self cols'
      else raise (KeyError c)
  end.

Definition workspace_param (self : Repository) (workspace_filter : bool)
  : option Z :=
  if workspace_filter then Some (workspace_id self) else None.

(** [_execute_batch_update]: the value list holds, per row, the id and
    [row.get(col)] for each column, in the order of [cols]. What
    becomes of the text of the statement, with the placeholders as the
    source writes them, is for [execute] and [refuses] to say
    ([as_written]). The source takes [missing_ids] as a set and leaves
    its order to Python; here the ids come in order of first
    occurrence. *)
Definition _execute_batch_update (self : Repository)
    (batch : list (gmap string value)) (cols : list string)
    (workspace_filter : bool) (include_none : bool)
  : M (list (gmap string value) * list value) :=
  let! _ := match batch with
            | [] => ret tt
            | _ => check_columns self cols
            end in
  let values := (λ row, (row_id row, get row <$> cols)) <$> batch in
  let sql := UpdateFromValues cols values
               (workspace_param self workspace_filter) in
  let! rows := execute self sql in
  let updated_ids := row_id <$> rows in
  let sent_ids := row_id <$> batch in
  let missing_ids := remove_dups (list_difference sent_ids updated_ids) in
  ret (rows, missing_ids).

(** One turn of the loop of [_fallback_row_by_row]. The statement
    carries the condition [workspace_filter] of [bulk_update] when
    there is one, and is executed with the parameter [workspace_id]
    ([as_written] says what the library makes of that). *)
Definition fallback_row (self : Repository) (cols : list string)
    (workspace_filter : bool)
    (acc : list (gmap string value) * list (gmap string value))
    (row : gmap string value)
  : M (list (gmap string value) * list (gmap string value)) :=
  let '(updated, errors) := acc in
  let! _ := check_columns self cols in
  let stmt := UpdateWhereId (row_id row) ((λ c, (c, get row c)) <$> cols)
                (workspace_param self workspace_filter) in
  let! r := try_integrity
              (let! res := execute self stmt in
               match head res with
               | Some out =>
                   let! _ := commit in
                   ret (updated ++ [out], errors)
               | None =>
                   ret (updated, errors ++ [error_entry (row_id row) not_found])
               end) in
  match r with
  | inr acc' => ret acc'
  | inl exc =>
      let! _ := rollback in
      ret (updated, errors ++ [error_entry (row_id row) exc])
  end.

(** [_fallback_row_by_row] *)
Definition _fallback_row_by_row (self : Repository)
    (rows : list (gmap string value)) (cols : list string)
    (workspace_filter : bool) (include_none : bool)
  : M (list (gmap string value) * list (gmap string value)) :=
  for_each (fallback_row self cols workspace_filter) rows ([], []).

(** The fields of one payload item that will be written: [cand]. *)
Definition keep (include_none : bool) (v : value) : bool :=
  negb (bool_decide (v = VNone)) || include_none.

Definition candidates (update_fields : option (list string))
    (include_none : bool) (raw : gmap string value) : gmap string value :=
  match update_fields with
  | None =>
      filter (λ kv, negb (bool_decide (kv.1 = "id")) && keep include_none kv.2 = true)
        raw
  | Some fields =>
      list_to_map
        (omap (λ k, if keep include_none (get raw k)
                    then Some (k, get raw k) else None) fields)
  end.

(** Step 1 of [bulk_update] for one item of the payload, [raw] being
    [item.model_dump(exclude_none=False)]. *)
Definition normalise_item (update_fields : option (list string))
    (include_none : bool) (raw : gmap string value)
  : exn + gmap string value :=
  match raw !! "id" with
  | None => inl (ValueError "Every update schema must include an 'id' field")
  | Some id =>
      let row : gmap string value := {[ "id" := id ]} in
      let cand := candidates update_fields include_none raw in
      if decide (cand = ∅) then inr (<["__empty" := VBool true]> row)
      else inr (cand ∪ row)
  end.

Fixpoint normalise (update_fields : option (list string))
    (include_none : bool) (payload : list (gmap string value))
  : exn + list (gmap string value) :=
  match payload with
  | [] => inr []
  | raw :: rest =>
      match normalise_item update_fields include_none raw with
      | inl e => inl e
      | inr row =>
          match normalise update_fields include_none rest with
          | inl e => inl e
          | inr rows => inr (row :: rows)
          end
      end
  end.

(** Step 2: the key of a row's group. *)
Definition row_cols (row : gmap string value) : gset string :=
  dom row ∖ {[ "id"; "__empty" ]}.

(** [groups[cols].append(row)] on a dictionary that keeps insertion
    order. *)
Fixpoint group_add (groups : list (gset string * list (gmap string value)))
    (cols : gset string) (row : gmap string value)
  : list (gset string * list (gmap string value)) :=
  match groups with
  | [] => [(cols, [row])]
  | (k, rows) :: rest =>
      if decide (k = cols) then (k, rows ++ [row]) :: rest
      else (k, rows) :: group_add rest cols row
  end.

Definition group_rows (normalised : list (gmap string value))
  : list (gset string * list (gmap string value)) :=
  foldl (λ groups row,
           let cols := row_cols row in
           if decide (cols = ∅) then groups else group_add groups cols row)
    [] normalised.

(** [sorted(cols_set)]: strings compare by code point. *)
Definition str_le (x y : string) : Prop := String.leb x y = true.

#[global] Instance str_le_dec x y : Decision (str_le x y).
Proof. unfold str_le. apply _. Defined.

Definition sorted (cols_set : gset string) : list string :=
  merge_sort str_le (elements cols_set).

(** [_MAX_QUERY_PARAMS // num_columns or 1] *)
Definition max_rows (num_columns : Z) : Z :=
  let q := _MAX_QUERY_PARAMS / num_columns in
  if decide (q = 0) then 1 else q.

(** [itertools.batched(rows, n)] for [n >= 1]. *)
Fixpoint batched_fuel {A} (fuel : nat) (n : nat) (rows : list A)
  : list (list A) :=
  match fuel, rows with
  | S fuel', _ :: _ => take n rows :: batched_fuel fuel' n (drop n rows)
  | _, _ => []
  end.

Definition batched {A} (rows : list A) (n : nat) : list (list A) :=
  batched_fuel (length rows) n rows.

(** The body of the loop over the batches of one group. *)
Definition process_batch (self : Repository) (cols : list string)
    (workspace_filter : bool) (include_none : bool)
    (acc : list (gmap string value) * list (gmap string value))
    (batch : list (gmap string value))
  : M (list (gmap string value) * list (gmap string value)) :=
  let '(updated, errors) := acc in
  match batch with
  | [] => ret acc
  | _ =>
      let! r := try_integrity
                  (_execute_batch_update self batch cols workspace_filter
                     include_none) in
      match r with
      | inl exc =>
          let! _ := rollback in
          let! (row_results, row_errors) :=
            _fallback_row_by_row self batch cols workspace_filter
              include_none in
          ret (updated ++ row_results, errors ++ row_errors)
      | inr (batch_result, missing_ids) =>
          let updated := updated ++ batch_result in
          let errors :=
            errors ++ ((λ _id, error_entry _id not_found) <$> missing_ids) in
          let! _ := commit in
          ret (updated, errors)
      end
  end.

(** The body of the loop over the groups. *)
Definition process_group (self : Repository) (workspace_filter : bool)
    (include_none : bool)
    (acc : list (gmap string value) * list (gmap string value))
    (group : gset string * list (gmap string value))
  : M (list (gmap string value) * list (gmap string value)) :=
  let '(cols_set, rows) := group in
  let cols := sorted cols_set in
  let num_columns := 1 + Z.of_nat (length cols) in
  let max_rows := max_rows num_columns in
  for_each (process_batch self cols workspace_filter include_none)
    (batched rows (Z.to_nat max_rows)) acc.

(** The errors of the rows that had nothing to write. *)
Definition empty_errors (normalised : list (gmap string value))
  : list (gmap string value) :=
  omap (λ row, if truthy (get row "__empty")
               then Some (error_entry (row_id row) no_fields) else None)
    normalised.

(** [bulk_update] *)
Definition bulk_update (self : Repository)
    (payload : list (gmap string value))
    (update_fields : option (list string)) (include_none : bool)
  : M BulkUpdateResult :=
  match payload with
  | [] => ret {| updated := []; errors := [] |}
  | _ =>
      let workspace_filter := bool_decide ("workspace_id" ∈ table_c self) in
      match normalise update_fields include_none payload with
      | inl e => raise e
      | inr normalised =>
          let groups := group_rows normalised in
          let! (updated, errors) :=
            for_each (process_group self workspace_filter include_none)
              groups ([], []) in
          let errors := errors ++ empty_errors normalised in
          ret {| updated := updated; errors := errors |}
      end
  end.

End BulkUpdate.

(** ** Specification vocabulary for the bulk-update engine *)

Module BulkUpdateSpec.

Import BulkUpdate.

(** What the groups are, once the rows [seen] have been placed: one
    group per non-empty field set, holding the rows of that field set
    in their order of arrival. *)
Definition grouped (seen : list (gmap string value))
    (groups : list (gset string * list (gmap string value))) : Prop :=
  NoDup groups.*1 ∧
  (∀ k rows, (k, rows) ∈ groups →
     k ≠ ∅ ∧ rows ≠ [] ∧ rows = filter (λ row, row_cols row = k) seen) ∧
  (∀ row, row ∈ seen → row_cols row ≠ ∅ → row_cols row ∈ groups.*1).

(** [emits P m]: running [m] extends the trace by events that all
    satisfy [P], whether [m] returns or raises. *)
Definition emits {A} (P : event → Prop) (m : M A) : Prop :=
  ∀ s, ∃ evs, trace (m s).1 = trace s ++ evs ∧ Forall P evs.

(** The parameters of one row, as both kinds of statement carry them. *)
Definition encode (cols : list string) (row : gmap string value)
  : value * list value :=
  (row_id row, get row <$> cols).

(** [stmt] is the statement that the mixin builds for [batch]: the
    set-based one for the whole batch, or the one of a single row. *)
Definition from_batch (cols : list string) (ws : option Z)
    (batch : list (gmap string value)) (stmt : statement) : Prop :=
  stmt = UpdateFromValues cols (encode cols <$> batch) ws ∨
  ∃ row, row ∈ batch ∧
         stmt = UpdateWhereId (row_id row) ((λ c, (c, get row c)) <$> cols) ws.

(** An executed statement is built from a non-empty batch taken from
    [rows]; commits and rollbacks are unconstrained. *)
Definition from_rows (cols : list string) (ws : option Z)
    (rows : list (gmap string value)) (e : event) : Prop :=
  match e with
  | Execute stmt _ =>
      ∃ batch, batch ≠ [] ∧ batch ⊆ rows ∧ from_batch cols ws batch stmt
  | _ => True
  end.

(** The same, for the rows of some group and its sorted field set. *)
Definition from_groups (self : Repository)
    (groups : list (gset string * list (gmap string value)))
    (e : event) : Prop :=
  ∃ k rows, (k, rows) ∈ groups ∧
    from_rows (sorted k)
      (workspace_param self (bool_decide ("workspace_id" ∈ table_c self)))
      rows e.

(** Every column of [cols] is a column of the table, so that
    [table.c[col]] does not raise. *)
Definition known (self : Repository) (cols : list string) : Prop :=
  Forall (λ c, c ∈ table_c self) cols.

(** The statement of [_fallback_row_by_row] for one row. *)
Definition row_statement (self : Repository) (cols : list string)
    (wf : bool) (row : gmap string value) : statement :=
  UpdateWhereId (row_id row) ((λ c, (c, get row c)) <$> cols)
    (workspace_param self wf).

(** The statement of [_execute_batch_update] for one batch. *)
Definition batch_statement (self : Repository) (cols : list string)
    (wf : bool) (batch : list (gmap string value)) : statement :=
  UpdateFromValues cols (encode cols <$> batch) (workspace_param self wf).

(** The column layout of a statement: the columns of the value list
    and the length of each of its tuples, or the keys assigned. *)
Definition has_shape (cols : list string) (stmt : statement) : Prop :=
  match stmt with
  | UpdateFromValues cols' values _ =>
      cols' = cols ∧ Forall (λ v, length v.2 = length cols) values
  | UpdateWhereId _ assignments _ => assignments.*1 = cols
  end.

(** The session in which the tuple does not exist. *)
Definition without (X : Z) (s : Session) : Session :=
  {| committed := delete X (committed s);
     pending := delete X (pending s);
     trace := trace s |}.

(** The ceiling on the parameters of a chunk, as the specification
    words it: [(1 + numFieldsInGroup) * chunkSize <= 20000]. *)
Definition within_ceiling (num_fields chunk_size : nat) : Prop :=
  (1 + Z.of_nat num_fields) * Z.of_nat chunk_size ≤ 20000.

(** The size of a chunk of a group of [num_fields] fields: at least
    one row, and under the ceiling, unless one row alone is above the
    ceiling and the chunk holds one row. *)
Definition chunk_size_ok (num_fields chunk_size : nat) : Prop :=
  (1 ≤ chunk_size)%nat ∧
  (within_ceiling num_fields chunk_size ∨
   (¬ within_ceiling num_fields 1 ∧ chunk_size = 1%nat)).

(** A set-based statement with a value list of such a size. *)
Definition sized (e : event) : Prop :=
  match e with
  | Execute (UpdateFromValues cols values _) _ =>
      chunk_size_ok (length cols) (length values)
  | _ => True
  end.

End BulkUpdateSpec.

(** ** Sample data *)

Module Examples.

Import Search.

Definition id_col : Column := {| c_name := "id"; c_python_type := Some PyInt |}.
Definition name_col : Column :=
  {| c_name := "name"; c_python_type := Some (PyOther "str") |}.
Definition age_col : Column := {| c_name := "age"; c_python_type := Some PyInt |}.
Definition owner_col : Column :=
  {| c_name := "owner_name"; c_python_type := Some (PyOther "str") |}.

Definition user_model : Model :=
  {| m_name := "User";
     m_columns := {[ "id" := id_col; "name" := name_col; "age" := age_col ]};
     m_relationships := [] |}.

(** [SearchConfig(simple_columns=["id", "name", "age"],
    join_columns={"owner": {"join": owners, "column": owners.name}})] *)
Definition user_config : SearchConfig :=
  SearchConfig_init ["id"; "name"; "age"]
    (Some {[ "owner" := {| j_join := Some "owners";
                           j_column := Some owner_col |} ]})
    None None.

(** A runtime in which no column is a float or a decimal. *)
Definition no_literal (s : string) : bool := false.

(** A store with 45 matching rows, three of them on the page. *)
Definition count45 (q : Query) : option Z := Some 45.
Definition three_rows (q : Query) : list nat := [1; 2; 3]%nat.
Definition validate (i : nat) : result nat := inr i.

Definition plain_request : BaseSearchRequestBody :=
  {| rq_search := None; rq_page := Some 2; rq_page_size := Some 20;
     rq_filter := None; rq_sort := None |}.

Definition request_filter (f : BaseFilterItem) : BaseSearchRequestBody :=
  {| rq_search := None; rq_page := None; rq_page_size := None;
     rq_filter := Some [f]; rq_sort := None |}.

Definition request_sort (s : BaseSortItem) : BaseSearchRequestBody :=
  {| rq_search := None; rq_page := None; rq_page_size := None;
     rq_filter := None; rq_sort := Some [s] |}.

Definition user_search (rq : BaseSearchRequestBody)
  : result (SearchResponse nat) :=
  search no_literal no_literal user_model user_config nat nat
    count45 three_rows validate rq None.

Definition by_bogus : BaseSortItem := {| s_column := "bogus"; s_direction := DESC |}.
Definition by_owner : BaseSortItem := {| s_column := "owner"; s_direction := ASC |}.
Definition bogus_equals : BaseFilterItem :=
  {| f_column := "bogus"; f_value := "x"; f_operator := EQUALS |}.
Definition age_equals_abc : BaseFilterItem :=
  {| f_column := "age"; f_value := "abc"; f_operator := EQUALS |}.

(** A users table with a tenant column, and a repository of tenant 1
    on a session of the library, whose schema makes [name] unique. *)
Import BulkUpdate.

Definition names (db : gmap Z (gmap string value)) : list value :=
  (λ kv, get kv.2 "name") <$> map_to_list db.

Definition unique_name (db : gmap Z (gmap string value)) : option string :=
  if bool_decide (NoDup (names db)) then None
  else Some "duplicate key value violates unique constraint".

Definition users : Repository :=
  {| table_c := {[ "id"; "workspace_id"; "name"; "price" ]};
     workspace_id := 1;
     violation := unique_name;
     refuses := as_written |}.

Definition user (ws : Z) (name : string) : gmap string value :=
  {[ "workspace_id" := VInt ws; "name" := VStr name ]}.

(** Tuples 1 and 3 belong to tenant 1, tuple 2 to tenant 2. *)
Definition users_db : gmap Z (gmap string value) :=
  {[ 1 := user 1 "ann"; 2 := user 2 "bob"; 3 := user 1 "cid" ]}.

Definition fresh (db : gmap Z (gmap string value)) : Session :=
  {| committed := db; pending := db; trace := [] |}.

Definition rename (id : Z) (name : string) : gmap string value :=
  {[ "id" := VInt id; "name" := VStr name; "price" := VNone ]}.

Definition nothing (id : Z) : gmap string value :=
  {[ "id" := VInt id; "name" := VNone; "price" := VNone ]}.

Definition reprice (id : Z) (price : Z) : gmap string value :=
  {[ "id" := VInt id; "name" := VNone; "price" := VInt price ]}.

(** Row 1 can be renamed, row 2 belongs to another tenant, row 3 takes
    the name of row 2, row 7 does not exist and has nothing to write. *)
Definition renames : list (gmap string value) :=
  [rename 1 "dan"; rename 2 "eve"; rename 3 "bob"; nothing 7].

Definition renames_normalised : list (gmap string value) :=
  [ {[ "id" := VInt 1; "name" := VStr "dan" ]};
    {[ "id" := VInt 2; "name" := VStr "eve" ]};
    {[ "id" := VInt 3; "name" := VStr "bob" ]};
    {[ "id" := VInt 7; "__empty" := VBool true ]} ].

(** Two rows that write different fields. *)
Definition mixed : list (gmap string value) := [rename 1 "dan"; reprice 3 10].

Definition mixed_normalised : list (gmap string value) :=
  [ {[ "id" := VInt 1; "name" := VStr "dan" ]};
    {[ "id" := VInt 3; "price" := VInt 10 ]} ].

End Examples.

(** ** Vocabulary for the properties of the search engine *)

Module SearchSpec.
Import Search.

(** The names a request asks about: the columns of its filter clauses
    and of its sort clauses. *)
Definition requested (rq : BaseSearchRequestBody) : list string :=
  (f_column <$> default [] (rq_filter rq)) ++
  (s_column <$> default [] (rq_sort rq)).

(** The joins of [q] are distinct, recorded in [joined], and each is the
    join target of a join column named in [names]. *)
Definition joins_ok (config : SearchConfig) (names : list string)
    (q : Query) (joined : gset string) : Prop :=
  NoDup (q_joins q) ∧
  (∀ t, t ∈ q_joins q → t ∈ joined) ∧
  (∀ t, t ∈ q_joins q →
        ∃ name jc, name ∈ names ∧ join_columns config !! name = Some jc ∧
                   j_join jc = Some t).

(** The column a field name stands for: the model's attribute for a
    simple column, the [column] entry of its join configuration
    otherwise. *)
Definition resolve (model : Model) (config : SearchConfig) (name : string)
  : option Column :=
  if bool_decide (name ∈ simple_columns config) then m_columns model !! name
  else join_columns config !! name ≫= j_column.

(** The column a condition tests. *)
Definition condition_column (c : Condition) : option Column :=
  match c with
  | Compare _ col _ | Empty col | NotEmpty col
  | Member col _ | NotMember col _ => Some col
  | SearchAny _ _ | WorkspaceIs _ => None
  end.

(** The tenant condition of [search]: present when a workspace is given
    and the model has the column. *)
Definition tenant_scope (model : Model) (workspace_id : option Z)
  : list Condition :=
  match workspace_id with
  | Some ws =>
      if bool_decide ("workspace_id" ∈ dom (m_columns model))
      then [WorkspaceIs ws] else []
  | None => []
  end.

End SearchSpec.

(** ** Vocabulary for the frame of a bulk update *)

Module BulkUpdateFrame.

Import BulkUpdate BulkUpdateSpec.

(** [m] keeps the property [I] of the session, whether it returns or
    raises. *)
Definition keeps {A} (I : Session → Prop) (m : M A) : Prop :=
  ∀ s, I s → I (m s).1.

(** A property of both states of the session. *)
Definition both (P : gmap Z (gmap string value) → Prop) (s : Session)
  : Prop :=
  P (pending s) ∧ P (committed s).

(** Nothing is pending: the two states of the session agree. *)
Definition clean (s : Session) : Prop := pending s = committed s.

(** What a normalised row assigns: its columns, sorted, each with the
    row's value. *)
Definition row_assignments (row : gmap string value)
  : list (string * value) :=
  (λ c, (c, get row c)) <$> sorted (row_cols row).

(** A property of one tuple slot of the store that survives the
    assignment of any of [rows] to a tuple the statement can match. *)
Definition closed (ws : option Z) (rows : list (gmap string value))
    (P : option (gmap string value) → Prop) : Prop :=
  ∀ t row, row ∈ rows → row_cols row ≠ ∅ → in_workspace ws t = true →
           P (Some t) → P (Some (assign (row_assignments row) t)).

(** The rows of a batch come from [rows] and share the columns
    [cols]. *)
Definition batch_of (rows : list (gmap string value)) (cols : list string)
    (batch : list (gmap string value)) : Prop :=
  Forall (λ row, row ∈ rows ∧ row_cols row ≠ ∅ ∧
                 sorted (row_cols row) = cols) batch.

(** The filter of the statements of [self]. *)
Definition tenant_filter (self : Repository) : option Z :=
  workspace_param self (bool_decide ("workspace_id" ∈ table_c self)).

(** The tuple [t] belongs to another workspace than [self]. *)
Definition foreign (self : Repository) (t : gmap string value) : Prop :=
  t !! "workspace_id" ≠ Some (VInt (workspace_id self)).

(** Running [m] on [s] first sends the statement [stmt], whatever
    comes of it and after it. *)
Definition sends {A} (stmt : statement) (m : M A) (s : Session) : Prop :=
  ∃ out evs, trace (m s).1 = trace s ++ Execute stmt out :: evs.

(** Both states of the session hold the tuple [tx] under [X]. *)
Definition present (X : Z) (tx : gmap string value) (s : Session) : Prop :=
  pending s !! X = Some tx ∧ committed s !! X = Some tx.

(** [m] does the same on the session with the tuple and on the session
    without it, and keeps the tuple, whether it returns or raises. *)
Definition stable {A} (X : Z) (tx : gmap string value) (m : M A) : Prop :=
  ∀ s, present X tx s →
       present X tx (m s).1 ∧
       m (without X s) = (without X (m s).1, (m s).2).

(** The two tuples agree on the column [c]. *)
Definition same_at (c : string) (t t' : gmap string value) : Prop :=
  t' !! c = t !! c.

(** The workspace a statement is restricted to, and the columns it
    assigns. *)
Definition statement_scope (stmt : statement) : option Z :=
  match stmt with
  | UpdateFromValues _ _ ws | UpdateWhereId _ _ ws => ws
  end.

Definition statement_columns (stmt : statement) : list string :=
  match stmt with
  | UpdateFromValues cols _ _ => cols
  | UpdateWhereId _ assignments _ => assignments.*1
  end.

(** An executed statement carries the filter of the tenant and
    assigns columns of the table only. *)
Definition well_formed (self : Repository) (e : event) : Prop :=
  match e with
  | Execute stmt _ =>
      statement_scope stmt = tenant_filter self ∧
      known self (statement_columns stmt)
  | _ => True
  end.

End BulkUpdateFrame.

(** ** More sample data *)

Module Samples.

Import Search.

Definition tenant_col : Column :=
  {| c_name := "workspace_id"; c_python_type := Some PyInt |}.

(** The sample model with a tenant column. *)
Definition tenant_model : Model :=
  {| m_name := "User";
     m_columns := <["workspace_id" := tenant_col]>
                    (m_columns Examples.user_model);
     m_relationships := [] |}.

(** [SearchConfig(simple_columns=["id", "name", "age"],
    join_columns={"owner": {"join": owners, "column": owners.name},
                  "tag": {"join": tags}},
    searchable_columns=["name", "owner", "tag", "ghost"])] *)
Definition tagged_config : SearchConfig :=
  SearchConfig_init ["id"; "name"; "age"]
    (Some {[ "owner" := {| j_join := Some "owners";
                           j_column := Some Examples.owner_col |};
             "tag" := {| j_join := Some "tags"; j_column := None |} ]})
    (Some ["name"; "owner"; "tag"; "ghost"]) None.

Definition owner_contains_bo : BaseFilterItem :=
  {| f_column := "owner"; f_value := "bo"; f_operator := CONTAINS |}.
Definition age_over_30 : BaseFilterItem :=
  {| f_column := "age"; f_value := "30"; f_operator := GREATER_THAN |}.
Definition age_in_list : BaseFilterItem :=
  {| f_column := "age"; f_value := "1,2"; f_operator := IN |}.
Definition by_name_desc : BaseSortItem :=
  {| s_column := "name"; s_direction := DESC |}.

(** A request with a free text, two filters and two sort clauses. *)
Definition busy_request : BaseSearchRequestBody :=
  {| rq_search := Some "  Ann "; rq_page := Some 1; rq_page_size := Some 10;
     rq_filter := Some [owner_contains_bo; age_over_30];
     rq_sort := Some [by_name_desc; Examples.by_owner] |}.

(** The query that [search] builds for it, for workspace 7. *)
Definition busy_query : Query :=
  {| q_options := [];
     q_joins := ["owners"];
     q_where :=
       [ WorkspaceIs 7;
         SearchAny [Examples.name_col; Examples.owner_col] "ann";
         Compare CONTAINS Examples.owner_col (CStr "bo");
         Compare GREATER_THAN Examples.age_col (CInt 30) ];
     q_order_by := [(Examples.name_col, DESC); (Examples.owner_col, ASC)];
     q_offset := None; q_limit := None |}.

Definition text_request : BaseSearchRequestBody :=
  {| rq_search := Some "ann"; rq_page := None; rq_page_size := None;
     rq_filter := Some [Examples.bogus_equals];
     rq_sort := Some [Examples.by_bogus] |}.

Definition first_page : BaseSearchRequestBody :=
  {| rq_search := None; rq_page := Some 1; rq_page_size := Some 10;
     rq_filter := None; rq_sort := None |}.

Import BulkUpdate.

(** The sample table with [name] unique within tenant 1 only. *)
Definition own (kv : Z * gmap string value) : Prop :=
  kv.2 !! "workspace_id" = Some (VInt 1).

Definition unique_own_name (db : gmap Z (gmap string value))
  : option string :=
  if bool_decide (NoDup (Examples.names (filter own db))) then None
  else Some "duplicate key value violates unique constraint".

Definition local_users : Repository :=
  {| table_c := {[ "id"; "workspace_id"; "name"; "price" ]};
     workspace_id := 1;
     violation := unique_own_name;
     refuses := as_written |}.

(** An item without [id]. *)
Definition anonymous : gmap string value := {[ "name" := VStr "x" ]}.

(** [mixed] normalised with [update_fields=["name", "price"]] and
    [include_none=True]. *)
Definition mixed_all_fields : list (gmap string value) :=
  [ {[ "id" := VInt 1; "name" := VStr "dan"; "price" := VNone ]};
    {[ "id" := VInt 3; "name" := VNone; "price" := VInt 10 ]} ].

End Samples.

(** ** The helpers of [src/core/utils.py] and [src/core/validators.py] *)

(** More of Python's [str], on ASCII text as in [PyStr]. *)
Module PyText.

Definition upper_char (c : ascii) : ascii :=
  let n := nat_of_ascii c in
  if ((97 <=? n) && (n <=? 122))%nat then ascii_of_nat (n - 32) else c.

(** [str.upper()] *)
Definition upper (s : string) : string :=
  string_of_list_ascii (map upper_char (list_ascii_of_string s)).

(** [str.capitalize()]: the first character in upper case, the others
    in lower case. *)
Definition capitalize_chars (l : list ascii) : list ascii :=
  match l with
  | [] => []
  | c :: r => upper_char c :: map PyStr.lower_char r
  end.

Definition capitalize (s : string) : string :=
  string_of_list_ascii (capitalize_chars (list_ascii_of_string s)).

(** [s.split(sep)] for a separator of one character: [cur] holds the
    current part, reversed. *)
Fixpoint split_chars (sep : ascii) (cur l : list ascii)
  : list (list ascii) :=
  match l with
  | [] => [rev cur]
  | c :: l' =>
      if Ascii.eqb c sep then rev cur :: split_chars sep [] l'
      else split_chars sep (c :: cur) l'
  end.

Definition split (s : string) (sep : ascii) : list string :=
  string_of_list_ascii <$> split_chars sep [] (list_ascii_of_string s).

(** [s.split()]: the words between runs of whitespace. *)
Fixpoint words (cur l : list ascii) : list (list ascii) :=
  match l with
  | [] => match cur with [] => [] | _ => [rev cur] end
  | c :: l' =>
      if PyStr.is_space c then
        match cur with
        | [] => words [] l'
        | _ => rev cur :: words [] l'
        end
      else words (c :: cur) l'
  end.

Definition split_ws (s : string) : list string :=
  string_of_list_ascii <$> words [] (list_ascii_of_string s).

(** [sep.join(parts)] *)
Fixpoint join_chars (sep : list ascii) (parts : list (list ascii))
  : list ascii :=
  match parts with
  | [] => []
  | [p] => p
  | p :: rest => p ++ sep ++ join_chars sep rest
  end.

Definition join (sep : string) (parts : list string) : string :=
  string_of_list_ascii
    (join_chars (list_ascii_of_string sep) (list_ascii_of_string <$> parts)).

(** A word: not empty and without whitespace. *)
Definition word (w : list ascii) : Prop :=
  w ≠ [] ∧ Forall (λ c, PyStr.is_space c = false) w.

End PyText.

Module Utils.

Inductive exn := TypeError (msg : string) | IndexError.

(** [to_camel]; [parts[0]] on an empty list is an [IndexError]. *)
Definition to_camel (s : string) : exn + string :=
  let parts := PyText.split s "_" in
  match parts with
  | [] => inl IndexError
  | first :: rest =>
      inr (first +:+ PyText.join "" (PyText.capitalize <$> rest))
  end.

(** The argument of [normalize]: a string, a list of strings, or
    anything else. *)
Inductive Strings := Str (s : string) | StrList (l : list string) | Other.

(** [" ".join(s.strip().split()).lower()] *)
Definition normalize_one (s : string) : string :=
  PyStr.lower (PyText.join " " (PyText.split_ws (PyStr.strip s))).

(** [normalize] *)
Definition normalize (strings : Strings) : exn + Strings :=
  match strings with
  | Str s => inr (Str (normalize_one s))
  | StrList l => inr (StrList (normalize_one <$> l))
  | Other => inl (TypeError "Expected a string or a list of strings")
  end.

End Utils.

Module Validators.

Inductive Case := Lower | Upper.

(** [normalize_str], on a string. *)
Definition normalize_str (value : string) (case : Case) : string :=
  let s := value in
  let s := PyText.join " " (PyText.split_ws s) in
  match case with
  | Upper => PyText.upper s
  | Lower => PyStr.lower s
  end.

End Validators.

(** ** Properties of the search engine *)

Module SearchProps.

Import Search.

Lemma ceil_div_floor (a b : Z) :
  0 < b → ceil_div a b = (a + b - 1) / b.
Proof.
  intros Hb. unfold ceil_div, Qceiling, Qfloor. simpl.
  rewrite Z2Pos.id by lia.
  pose proof (Z.div_mod (- a) b ltac:(lia)) as H1.
  pose proof (Z.mod_pos_bound (- a) b Hb) as H2.
  apply Z.div_unique_pos with (r := a + b - 1 + b * (- a / b)); nia.
Qed.

Lemma create_total_pages {T} (its : list T) (tot pg pgsz : Z) :
  1 ≤ pgsz →
  ∃ r, create its tot pg pgsz = inr r ∧
       items r = its ∧ total r = tot ∧ page r = pg ∧ page_size r = pgsz ∧
       (0 < tot → total_pages r = ceil_div tot pgsz) ∧
       (tot = 0 → total_pages r = 0).
Proof.
  intros Hp. unfold create.
  destruct (decide (0 < tot)) as [Ht|Ht]; simpl.
  - destruct (decide (pgsz = 0)) as [->|_]; [lia|]. simpl.
    eexists. split; [reflexivity|]. simpl. repeat split; try lia.
    intros _. symmetry. apply ceil_div_floor. lia.
  - eexists. split; [reflexivity|]. simpl. repeat split; try lia.
Qed.

(** C9. Every page that [search] returns for a valid request has
    [total_pages] equal to the ceiling of [total / page_size] when
    [total] is positive, and to [0] when [total] is [0]. *)
Theorem search_total_pages
    (float_accepts decimal_accepts : string → bool)
    (model : Model) (config : SearchConfig) (Item Resp : Type)
    (scalar_count : Query → option Z) (fetch_all : Query → list Item)
    (model_validate : Item → result Resp)
    (rq : BaseSearchRequestBody) (ws : option Z) (r : SearchResponse Resp) :
  valid_request rq →
  search float_accepts decimal_accepts model config Item Resp
    scalar_count fetch_all model_validate rq ws = inr r →
  1 ≤ page_size r ≤ 100 ∧
  (0 < total r → total_pages r = ceil_div (total r) (page_size r)) ∧
  (total r = 0 → total_pages r = 0).
Proof.
  intros [Hpage Hsize] Hs. unfold search in Hs.
  destruct (build_query _ _ _ _ rq ws) as [e|q]; [done|]. simpl in Hs.
  destruct (validate_all _ _ _ _) as [e|its]; [done|]. simpl in Hs.
  assert (1 ≤ int_or (rq_page_size rq) 20 ≤ 100) as Hps.
  { unfold int_or. destruct (rq_page_size rq) as [n|]; [|lia].
    specialize (Hsize n eq_refl). destruct (decide (n = 0)); lia. }
  destruct (create_total_pages its (int_or (scalar_count q) 0)
              (int_or (rq_page rq) 1) (int_or (rq_page_size rq) 20))
    as (r' & Hr' & _ & Ht & _ & Hp & Hpos & Hzero); [lia|].
  rewrite Hr' in Hs. injection Hs as <-. rewrite Ht, Hp. auto.
Qed.

(** The witness of C9: the second page of 45 rows, 20 to a page. *)
Lemma search_total_pages_witness :
  valid_request Examples.plain_request ∧
  Examples.user_search Examples.plain_request
    = inr {| items := [1; 2; 3]%nat; total := 45; page := 2;
             page_size := 20; total_pages := 3 |} ∧
  (1 ≤ 20 ≤ 100 ∧ (0 < 45 → 3 = ceil_div 45 20) ∧ (45 = 0 → 3 = 0)).
Proof.
  assert (valid_request Examples.plain_request) as Hv.
  { split; intros n [= <-]; lia. }
  assert (Examples.user_search Examples.plain_request
          = inr {| items := [1; 2; 3]%nat; total := 45; page := 2;
                   page_size := 20; total_pages := 3 |}) as He.
  { vm_compute. reflexivity. }
  split; [exact Hv|]. split; [exact He|].
  exact (search_total_pages _ _ _ _ _ _ _ _ _ _ _ _ Hv He).
Defined.

(** *** Sorting *)

Lemma apply_sorting_app model config pre :
  ∀ q joined q' joined' rest,
    _apply_sorting model config q pre joined = inr (q', joined') →
    _apply_sorting model config q (pre ++ rest) joined
    = _apply_sorting model config q' rest joined'.
Proof.
  induction pre as [|s pre IH]; intros q joined q' joined' rest H.
  - simpl in H. by injection H as -> ->.
  - simpl in *.
    destruct (bool_decide _ && bool_decide _); [done|].
    match type of H with
    | (let* x := ?m in _) = _ => destruct m as [e|[[c q1] j1]]; [done|]
    end.
    simpl in *. destruct c as [c|]; [|done]. by eapply IH.
Qed.

Lemma apply_sorting_rejects model config q s rest joined :
  s_column s ∉ dom (join_columns config) →
  s_column s ∉ sortable_columns config ∨
    s_column s ∉ simple_columns config →
  _apply_sorting model config q (s :: rest) joined
  = inl (InvalidSortFieldError (s_column s) (m_name model)).
Proof.
  intros Hj Hs. simpl.
  rewrite (bool_decide_eq_true_2 (s_column s ∉ dom (join_columns config)))
    by done.
  destruct (bool_decide (s_column s ∉ sortable_columns config)) eqn:Hso;
    [done|]. simpl.
  destruct Hs as [Hs|Hs].
  { apply bool_decide_eq_false in Hso. done. }
  rewrite (bool_decide_eq_false_2 (s_column s ∈ simple_columns config))
    by done.
  apply not_elem_of_dom in Hj. by rewrite Hj.
Qed.

(** C8, in the form that holds of the code. With [sortable_columns]
    defaulting to [simple_columns] when it is unspecified, a sort clause
    on a field that is neither in [sortable_columns] nor a key of
    [join_columns] fails the search with [InvalidSortFieldError],
    provided the stages before the ordering and the sort clauses before
    it went through. *)
Theorem search_sort_field_rejected
    (float_accepts decimal_accepts : string → bool) (model : Model)
    (simple : list string) (joins : option (gmap string JoinConfig))
    (searchable sortable : option (list string)) (Item Resp : Type)
    (scalar_count : Query → option Z) (fetch_all : Query → list Item)
    (model_validate : Item → result Resp)
    (rq : BaseSearchRequestBody) (ws : option Z)
    (q q' : Query) (joined joined' : gset string)
    (pre post : list BaseSortItem) (s : BaseSortItem) :
  let config := SearchConfig_init simple joins searchable sortable in
  filtered_query float_accepts decimal_accepts model config rq ws
    = inr (q, joined) →
  rq_sort rq = Some (pre ++ s :: post) →
  _apply_sorting model config q pre joined = inr (q', joined') →
  s_column s ∉ sortable_columns config →
  s_column s ∉ dom (join_columns config) →
  (sortable = None → sortable_columns config = simple) ∧
  search float_accepts decimal_accepts model config Item Resp
    scalar_count fetch_all model_validate rq ws
  = inl (InvalidSortFieldError (s_column s) (m_name model)).
Proof.
  intros config Hq Hsort Hpre Hs Hj. split.
  { by intros ->. }
  unfold search, build_query. rewrite Hq. cbn -[_apply_sorting].
  rewrite Hsort.
  assert (_apply_sorting model config q (pre ++ s :: post) joined
          = inl (InvalidSortFieldError (s_column s) (m_name model))) as He.
  { rewrite (apply_sorting_app _ _ _ _ _ _ _ _ Hpre).
    apply apply_sorting_rejects; auto. }
  revert He. destruct (pre ++ s :: post) eqn:Hl; [by destruct pre|].
  by intros ->.
Qed.

(** The witness of C8: sorting the sample model by an unknown field. *)
Lemma search_sort_field_rejected_witness :
  let config := Examples.user_config in
  let rq := Examples.request_sort Examples.by_bogus in
  filtered_query Examples.no_literal Examples.no_literal
    Examples.user_model config rq None = inr (select, ∅) ∧
  (rq_sort rq = Some ([] ++ Examples.by_bogus :: [])) ∧
  (_apply_sorting Examples.user_model config select [] ∅ = inr (select, ∅)) ∧
  (s_column Examples.by_bogus ∉ sortable_columns config) ∧
  (s_column Examples.by_bogus ∉ dom (join_columns config)) ∧
  ((@None (list string) = None →
    sortable_columns config = ["id"; "name"; "age"]) ∧
   Examples.user_search rq = inl (InvalidSortFieldError "bogus" "User")).
Proof.
  intros config rq.
  assert (s_column Examples.by_bogus ∉ sortable_columns config) as H1.
  { apply (bool_decide_unpack _). vm_compute. exact I. }
  assert (s_column Examples.by_bogus ∉ dom (join_columns config)) as H2.
  { apply (bool_decide_unpack _). vm_compute. exact I. }
  split; [reflexivity|]. split; [reflexivity|]. split; [reflexivity|].
  split; [exact H1|]. split; [exact H2|].
  exact (search_sort_field_rejected Examples.no_literal Examples.no_literal
           Examples.user_model ["id"; "name"; "age"] _ None None nat nat
           Examples.count45 Examples.three_rows Examples.validate
           rq None select select ∅ ∅ [] [] Examples.by_bogus
           eq_refl eq_refl eq_refl H1 H2).
Defined.

(** C8, as the specification states it, fails: [owner] is a key of
    [join_columns] and is not in [sortable_columns], and the search
    sorted by it returns a page. *)
Lemma sort_on_join_column_accepted :
  (s_column Examples.by_owner ∉ sortable_columns Examples.user_config) ∧
  build_query Examples.no_literal Examples.no_literal Examples.user_model
    Examples.user_config (Examples.request_sort Examples.by_owner) None
  = inr (order_by (join select "owners") Examples.owner_col ASC) ∧
  Examples.user_search (Examples.request_sort Examples.by_owner)
  = inr {| items := [1; 2; 3]%nat; total := 45; page := 1;
           page_size := 20; total_pages := 3 |}.
Proof.
  split; [|split].
  - apply (bool_decide_unpack _). vm_compute. exact I.
  - vm_compute. reflexivity.
  - vm_compute. reflexivity.
Qed.

(** *** Filters *)

Lemma filter_conditions_error model config fa da filters e :
  filter_conditions fa da model config filters = inl e →
  ∃ f, f ∈ filters ∧
       e = FilterValueError (f_column f) (f_value f) "valid filter value".
Proof.
  induction filters as [|f filters IH]; simpl; [done|].
  destruct (_build_filter_condition fa da model config f) as [e'|c]; simpl.
  - intros [= <-]. exists f. split; [left|done].
  - destruct (filter_conditions fa da model config filters) as [e'|cs];
      simpl; [|done].
    intros [= <-]. destruct (IH eq_refl) as (f' & Hin & ->).
    exists f'. split; [by right|done].
Qed.

Lemma build_filter_condition_unknown fa da model config f :
  f_column f ∉ simple_columns config →
  f_column f ∉ dom (join_columns config) →
  _build_filter_condition fa da model config f
  = inl (InvalidFilterFieldError (f_column f) (m_name model)).
Proof.
  intros H1 H2. unfold _build_filter_condition.
  by rewrite (bool_decide_eq_true_2 _ H1), (bool_decide_eq_true_2 _ H2).
Qed.

(** A filter on an unknown field is never ignored: [_apply_filters]
    fails; the exception is the one the [except Exception] clause
    builds. *)
Lemma apply_filters_unknown_field fa da model config q filters f :
  f ∈ filters →
  f_column f ∉ simple_columns config →
  f_column f ∉ dom (join_columns config) →
  ∃ f', f' ∈ filters ∧
    _apply_filters fa da model config q filters
    = inl (FilterValueError (f_column f') (f_value f') "valid filter value").
Proof.
  intros Hin H1 H2. unfold _apply_filters.
  destruct (filter_conditions fa da model config filters) as [e|cs] eqn:He.
  - destruct (filter_conditions_error _ _ _ _ _ _ He) as (f' & Hf' & ->).
    by exists f'.
  - exfalso. clear q. revert cs He.
    induction filters as [|g filters IH]; intros cs He.
    + by apply elem_of_nil in Hin.
    + simpl in He. apply elem_of_cons in Hin as [<-|Hin].
      * by rewrite build_filter_condition_unknown in He.
      * destruct (_build_filter_condition fa da model config g); [done|].
        simpl in He.
        destruct (filter_conditions fa da model config filters); [done|].
        by eapply IH.
Qed.

(** C3, where the code departs from the claim. [bogus] is neither in
    [simple_columns] nor in [join_columns]; [_build_filter_condition]
    raises [InvalidFilterFieldError], and the search fails with the
    [FilterValueError] that [_apply_filters] puts in its place. *)
Theorem unknown_filter_field_surfaces_as_value_error :
  _build_filter_condition Examples.no_literal Examples.no_literal
    Examples.user_model Examples.user_config Examples.bogus_equals
  = inl (InvalidFilterFieldError "bogus" "User") ∧
  Examples.user_search (Examples.request_filter Examples.bogus_equals)
  = inl (FilterValueError "bogus" "x" "valid filter value").
Proof. split; vm_compute; reflexivity. Qed.

(** C4, where the code departs from the claim. [age] is an integer
    column and ["abc"] is no integer; [_convert_filter_value] raises a
    [FilterValueError] that names [int], and the search fails with the
    one of [_apply_filters], whose expected type is the fixed text. *)
Theorem conversion_error_loses_type_name :
  _convert_filter_value Examples.no_literal Examples.no_literal
    Examples.age_col "abc" "age"
  = inl (FilterValueError "age" "abc" "int") ∧
  Examples.user_search (Examples.request_filter Examples.age_equals_abc)
  = inl (FilterValueError "age" "abc" "valid filter value").
Proof. split; vm_compute; reflexivity. Qed.

End SearchProps.

(** ** Properties of the bulk-update engine *)

Module BulkUpdateProps.

Import BulkUpdate BulkUpdateSpec.

(** *** The empty payload *)

(** C10. On the empty payload [bulk_update] returns empty [updated] and
    [errors] and leaves the session as it was: no statement, commit or
    rollback is added to its trace. *)
Theorem bulk_update_empty_payload (self : Repository)
    (update_fields : option (list string)) (include_none : bool)
    (s : Session) :
  bulk_update self [] update_fields include_none s
  = (s, inr {| updated := []; errors := [] |}).
Proof. reflexivity. Qed.

(** *** Chunk sizes *)

Lemma max_rows_pos (n : Z) : 1 ≤ n → 1 ≤ max_rows n.
Proof.
  intros Hn. unfold max_rows.
  destruct (decide (_MAX_QUERY_PARAMS / n = 0)) as [|Hq]; [lia|].
  assert (0 ≤ _MAX_QUERY_PARAMS / n); [|lia].
  apply Z.div_pos; unfold _MAX_QUERY_PARAMS; lia.
Qed.

Lemma max_rows_within (n : Z) :
  1 ≤ n ≤ _MAX_QUERY_PARAMS → n * max_rows n ≤ _MAX_QUERY_PARAMS.
Proof.
  intros Hn. unfold max_rows.
  destruct (decide (_MAX_QUERY_PARAMS / n = 0)) as [|Hq]; [lia|].
  apply Z.mul_div_le. lia.
Qed.

Lemma max_rows_wide (n : Z) : _MAX_QUERY_PARAMS < n → max_rows n = 1.
Proof.
  intros Hn. unfold max_rows.
  rewrite Z.div_small by (unfold _MAX_QUERY_PARAMS in *; lia).
  by destruct (decide (0 = 0)).
Qed.

Lemma batched_fuel_length {A} (n : nat) (chunk : list A) :
  (1 ≤ n)%nat →
  ∀ fuel rows, chunk ∈ batched_fuel fuel n rows →
               (1 ≤ length chunk ≤ n)%nat.
Proof.
  intros Hn. induction fuel as [|fuel IH]; intros rows Hin.
  - by apply elem_of_nil in Hin.
  - destruct rows as [|x rows]; [by apply elem_of_nil in Hin|].
    cbn [batched_fuel] in Hin. apply elem_of_cons in Hin as [->|Hin].
    + rewrite length_take. simpl. lia.
    + by eapply IH.
Qed.

Lemma batched_fuel_concat {A} (n : nat) :
  (1 ≤ n)%nat →
  ∀ fuel (rows : list A), (length rows ≤ fuel)%nat →
                          mjoin (batched_fuel fuel n rows) = rows.
Proof.
  intros Hn. induction fuel as [|fuel IH]; intros rows Hlen.
  - by destruct rows; [|simpl in Hlen; lia].
  - destruct rows as [|x rows]; [done|].
    cbn [batched_fuel mjoin list_join]. rewrite IH.
    + apply take_drop.
    + rewrite length_drop. simpl in *. lia.
Qed.

Lemma batched_concat {A} (rows : list A) (n : nat) :
  (1 ≤ n)%nat → mjoin (batched rows n) = rows.
Proof. intros Hn. by apply batched_fuel_concat. Qed.

Lemma batched_nonempty {A} (rows chunk : list A) (n : nat) :
  (1 ≤ n)%nat → chunk ∈ batched rows n → chunk ≠ [].
Proof.
  intros Hn Hin ->.
  pose proof (batched_fuel_length n [] Hn _ _ Hin) as H. simpl in H. lia.
Qed.

Lemma batched_subset {A} (rows chunk : list A) (n : nat) (x : A) :
  (1 ≤ n)%nat → chunk ∈ batched rows n → x ∈ chunk → x ∈ rows.
Proof.
  intros Hn Hc Hx. rewrite <- (batched_concat rows n Hn).
  apply list_elem_of_join. eauto.
Qed.

Lemma sorted_Permutation (cols_set : gset string) :
  sorted cols_set ≡ₚ elements cols_set.
Proof. apply merge_sort_Permutation. Qed.

Lemma length_sorted (cols_set : gset string) :
  length (sorted cols_set) = size cols_set.
Proof. by rewrite sorted_Permutation. Qed.

Lemma elem_of_sorted (cols_set : gset string) (c : string) :
  c ∈ sorted cols_set ↔ c ∈ cols_set.
Proof. rewrite sorted_Permutation. apply elem_of_elements. Qed.

Lemma NoDup_sorted (cols_set : gset string) : NoDup (sorted cols_set).
Proof. rewrite sorted_Permutation. apply NoDup_elements. Qed.

(** *** Normalisation and grouping *)

Lemma normalise_Forall2 uf inc payload normalised :
  normalise uf inc payload = inr normalised →
  Forall2 (λ raw row, normalise_item uf inc raw = inr row) payload normalised.
Proof.
  revert normalised. induction payload as [|raw payload IH];
    intros normalised H; simpl in H.
  - injection H as <-. constructor.
  - destruct (normalise_item uf inc raw) as [e|row] eqn:Hrow; [done|].
    destruct (normalise uf inc payload) as [e|rows]; [done|].
    injection H as <-. constructor; auto.
Qed.

Lemma normalise_item_id uf inc raw row :
  normalise_item uf inc raw = inr row →
  raw !! "id" = Some (row_id row).
Proof.
  unfold normalise_item. destruct (raw !! "id") as [id|] eqn:Hid; [|done].
  destruct (decide (candidates uf inc raw = ∅)) as [He|He]; intros [= <-].
  - unfold row_id, get. rewrite lookup_insert_ne by done.
    by rewrite lookup_singleton_eq.
  - unfold row_id, get.
    destruct ((candidates uf inc raw ∪ {["id" := id]}) !! "id") as [v|] eqn:Hv.
    + apply lookup_union_Some_raw in Hv as [Hv|[_ Hv]].
      * destruct uf as [fields|]; simpl in Hv.
        -- apply elem_of_list_to_map_2 in Hv.
           apply list_elem_of_omap in Hv as (k & _ & Hk).
           destruct (keep inc (get raw k)); [|done].
           injection Hk as -> <-. unfold get. by rewrite Hid.
        -- apply map_lookup_filter_Some in Hv as [_ Hv]. simpl in Hv.
           done.
      * by rewrite lookup_singleton_eq in Hv.
    + apply lookup_union_None in Hv as [_ Hv].
      by rewrite lookup_singleton_eq in Hv.
Qed.

Lemma group_add_keys groups cols row :
  (group_add groups cols row).*1
  = if decide (cols ∈ groups.*1) then groups.*1 else groups.*1 ++ [cols].
Proof.
  induction groups as [|[k rows] groups IH].
  - cbn. case_decide as H; [by apply elem_of_nil in H|done].
  - cbn [group_add]. destruct (decide (k = cols)) as [->|Hne].
    + rewrite decide_True by (cbn; left). done.
    + rewrite fmap_cons, IH. cbn [fst fmap list_fmap].
      destruct (decide (cols ∈ groups.*1)) as [Hin|Hin].
      * rewrite decide_True by (by right). done.
      * rewrite decide_False; [done|].
        intros H. apply elem_of_cons in H as [->|H]; done.
Qed.

Lemma elem_of_group_add groups cols row k rows :
  NoDup groups.*1 →
  (k, rows) ∈ group_add groups cols row →
  (k ≠ cols ∧ ((k, rows) ∈ groups)) ∨
  (k = cols ∧
   ((∃ rows0, ((cols, rows0) ∈ groups) ∧ rows = rows0 ++ [row]) ∨
    ((cols ∉ groups.*1) ∧ rows = [row]))).
Proof.
  induction groups as [|[k0 r0] groups IH]; simpl; intros Hnd Hin.
  - apply list_elem_of_singleton in Hin. injection Hin as -> ->.
    right. split; [done|]. right. split; [apply not_elem_of_nil|done].
  - apply NoDup_cons in Hnd as [Hk0 Hnd].
    destruct (decide (k0 = cols)) as [->|Hne].
    + apply elem_of_cons in Hin as [Hin|Hin].
      * injection Hin as -> ->. right. split; [done|]. left.
        exists r0. split; [left|done].
      * left. split; [|by right]. intros ->. apply Hk0.
        apply list_elem_of_fmap. by exists (cols, rows).
    + apply elem_of_cons in Hin as [Hin|Hin].
      * injection Hin as -> ->. left. split; [done|left].
      * destruct (IH Hnd Hin) as [[Hk Hg]|[-> [(rows0 & Hg & ->)|[Hg ->]]]].
        -- left. split; [done|by right].
        -- right. split; [done|]. left. exists rows0. split; [by right|done].
        -- right. split; [done|]. right. split; [|done].
           intros H. apply elem_of_cons in H as [->|H]; done.
Qed.

Lemma grouped_step seen groups row :
  grouped seen groups →
  grouped (seen ++ [row])
    (if decide (row_cols row = ∅) then groups
     else group_add groups (row_cols row) row).
Proof.
  intros (Hnd & Hrows & Hkeys).
  destruct (decide (row_cols row = ∅)) as [He|Hne].
  - split; [done|]. split.
    + intros k rows Hin. destruct (Hrows k rows Hin) as (Hk & Hr & ->).
      split; [done|]. split; [done|].
      rewrite filter_app, filter_cons_False, filter_nil, app_nil_r; [done|].
      congruence.
    + intros r Hr Hc. apply elem_of_app in Hr as [Hr|Hr]; [by apply Hkeys|].
      apply list_elem_of_singleton in Hr as ->. done.
  - split; [|split].
    + rewrite group_add_keys. destruct (decide (row_cols row ∈ groups.*1));
        [done|].
      apply NoDup_app. split; [done|]. split.
      * intros x Hx Hx'. apply list_elem_of_singleton in Hx' as ->. done.
      * apply NoDup_singleton.
    + intros k rows Hin.
      destruct (elem_of_group_add _ _ _ _ _ Hnd Hin)
        as [[Hk Hg]|[-> [(rows0 & Hg & ->)|[Hg ->]]]].
      * destruct (Hrows k rows Hg) as (Hk' & Hr & ->).
        split; [done|]. split; [done|].
        rewrite filter_app, filter_cons_False, filter_nil, app_nil_r; [done|].
        congruence.
      * destruct (Hrows _ _ Hg) as (Hk' & Hr & ->).
        split; [done|]. split; [by destruct (filter _ seen)|].
        by rewrite filter_app, filter_cons_True, filter_nil.
      * split; [done|]. split; [done|].
        rewrite filter_app, filter_cons_True, filter_nil by done.
        assert (filter (λ r, row_cols r = row_cols row) seen = []) as ->;
          [|done].
        destruct (filter (λ r, row_cols r = row_cols row) seen)
          as [|r l] eqn:Hf; [done|].
        assert (r ∈ filter (λ r, row_cols r = row_cols row) seen) as Hr
          by (rewrite Hf; left).
        apply list_elem_of_filter in Hr as [Hr1 Hr2].
        exfalso. apply Hg. rewrite <- Hr1. apply Hkeys; congruence.
    + intros r Hr Hc. rewrite group_add_keys.
      apply elem_of_app in Hr as [Hr|Hr].
      * specialize (Hkeys r Hr Hc). case_decide; [done|].
        apply elem_of_app. by left.
      * apply list_elem_of_singleton in Hr as ->. case_decide; [done|].
        apply elem_of_app. right. left.
Qed.

Lemma group_rows_grouped normalised :
  grouped normalised (group_rows normalised).
Proof.
  unfold group_rows.
  assert (∀ l seen groups,
            grouped seen groups →
            grouped (seen ++ l)
              (foldl (λ groups row,
                        let cols := row_cols row in
                        if decide (cols = ∅) then groups
                        else group_add groups cols row) groups l)) as H.
  { induction l as [|row l IH]; intros seen groups Hg; simpl.
    - by rewrite app_nil_r.
    - replace (seen ++ row :: l) with ((seen ++ [row]) ++ l)
        by (by rewrite <- app_assoc).
      apply IH. by apply grouped_step. }
  apply (H normalised [] []). split; [constructor|]. split.
  - intros k rows Hin. by apply elem_of_nil in Hin.
  - intros row Hin. by apply elem_of_nil in Hin.
Qed.

Lemma group_rows_member normalised k rows row :
  (k, rows) ∈ group_rows normalised → row ∈ rows →
  row ∈ normalised ∧ row_cols row = k ∧ k ≠ ∅.
Proof.
  intros Hg Hr. destruct (group_rows_grouped normalised) as (_ & H & _).
  destruct (H k rows Hg) as (Hk & _ & ->).
  apply list_elem_of_filter in Hr as [? ?]. done.
Qed.

Lemma group_rows_key normalised k rows :
  (k, rows) ∈ group_rows normalised →
  ∃ row, row ∈ normalised ∧ row_cols row = k.
Proof.
  intros Hg. destruct (group_rows_grouped normalised) as (_ & H & _).
  destruct (H k rows Hg) as (_ & Hne & Hrows).
  destruct rows as [|row rows]; [done|]. exists row.
  assert (row ∈ row :: rows) as Hin by left.
  rewrite Hrows in Hin. apply list_elem_of_filter in Hin as [? ?]. done.
Qed.

(** *** What a computation adds to the trace *)

Lemma emits_ret {A} P (a : A) : emits P (ret a).
Proof. intros s. exists []. by rewrite app_nil_r. Qed.

Lemma emits_raise {A} P e : emits P (raise (A := A) e).
Proof. intros s. exists []. by rewrite app_nil_r. Qed.

Lemma emits_bind {A B} P (m : M A) (f : A → M B) :
  emits P m → (∀ a, emits P (f a)) → emits P (bind m f).
Proof.
  intros Hm Hf s. unfold bind. destruct (Hm s) as (evs & Ht & HP).
  destruct (m s) as [s1 [e|a]]; simpl in *.
  - by exists evs.
  - destruct (Hf a s1) as (evs' & Ht' & HP'). exists (evs ++ evs').
    split; [by rewrite Ht', Ht, app_assoc|by apply Forall_app].
Qed.

Lemma emits_try {A} P (m : M A) : emits P m → emits P (try_integrity m).
Proof.
  intros Hm s. unfold try_integrity. destruct (Hm s) as (evs & Ht & HP).
  exists evs. by destruct (m s) as [s1 [[| | | |]|a]].
Qed.

Lemma emits_execute P self stmt :
  (∀ o, P (Execute stmt o)) → emits P (execute self stmt).
Proof.
  intros HP s. unfold execute.
  destruct (refuses self stmt) as [e|].
  { eexists [_]; split; [reflexivity|by constructor]. }
  destruct (effect stmt (pending s)) as [db' rows].
  destruct rows as [|r rows]; [|destruct (violation self db')];
    (eexists [_]; split; [reflexivity|by constructor]).
Qed.

Lemma emits_commit P : P Commit → emits P commit.
Proof. intros HP s. exists [Commit]. split; [done|by constructor]. Qed.

Lemma emits_rollback P : P Rollback → emits P rollback.
Proof. intros HP s. exists [Rollback]. split; [done|by constructor]. Qed.

Lemma emits_check_columns P self cols : emits P (check_columns self cols).
Proof.
  induction cols as [|c cols IH]; simpl; [apply emits_ret|].
  case_bool_decide; [done|apply emits_raise].
Qed.

Lemma emits_for_each {A S} P (f : S → A → M S) (l : list A) :
  (∀ acc x, x ∈ l → emits P (f acc x)) →
  ∀ acc, emits P (for_each f l acc).
Proof.
  induction l as [|x l IH]; intros Hf acc; simpl; [apply emits_ret|].
  apply emits_bind; [apply Hf; left|].
  intros acc'. apply IH. intros ? ? ?. apply Hf. by right.
Qed.

Lemma fallback_row_emits self cols wf acc row batch :
  row ∈ batch →
  emits (from_rows cols (workspace_param self wf) batch)
    (fallback_row self cols wf acc row).
Proof.
  intros Hin. unfold fallback_row. destruct acc as [U E].
  apply emits_bind; [apply emits_check_columns|]. intros _.
  apply emits_bind.
  - apply emits_try. apply emits_bind.
    + apply emits_execute. intros o. exists batch.
      split; [by destruct batch; [apply elem_of_nil in Hin|]|].
      split; [done|]. right. by exists row.
    + intros res. destruct (head res); [|apply emits_ret].
      apply emits_bind; [by apply emits_commit|]. intros _. apply emits_ret.
  - intros [exc|acc']; [|apply emits_ret].
    apply emits_bind; [by apply emits_rollback|]. intros _. apply emits_ret.
Qed.

Lemma process_batch_emits self cols wf inc acc batch rows :
  batch ⊆ rows →
  emits (from_rows cols (workspace_param self wf) rows)
    (process_batch self cols wf inc acc batch).
Proof.
  intros Hsub. unfold process_batch. destruct acc as [U E].
  destruct batch as [|row batch]; [apply emits_ret|].
  set (b := row :: batch) in *.
  assert (∀ e, from_rows cols (workspace_param self wf) b e →
               from_rows cols (workspace_param self wf) rows e) as Hmono.
  { intros [stmt o| |]; simpl; [|done..].
    intros (batch' & Hne & Hsub' & Hfrom). exists batch'.
    split; [done|]. split; [set_solver|done]. }
  apply emits_bind.
  - apply emits_try. unfold _execute_batch_update.
    apply emits_bind; [unfold b; apply emits_check_columns|]. intros _.
    apply emits_bind; [|intros rs; apply emits_ret].
    apply emits_execute. intros o. exists b.
    split; [done|]. split; [done|]. by left.
  - intros [exc|[batch_result missing_ids]].
    + apply emits_bind; [by apply emits_rollback|]. intros _.
      apply emits_bind.
      * unfold _fallback_row_by_row. apply emits_for_each.
        intros acc x Hx s. destruct (fallback_row_emits self cols wf acc x b Hx s)
          as (evs & Ht & HP).
        exists evs. split; [done|]. eapply Forall_impl; eauto.
      * intros [? ?]. apply emits_ret.
    + apply emits_bind; [by apply emits_commit|]. intros _. apply emits_ret.
Qed.

Lemma process_group_emits self inc acc k rows :
  emits (from_rows (sorted k)
           (workspace_param self (bool_decide ("workspace_id" ∈ table_c self)))
           rows)
    (process_group self (bool_decide ("workspace_id" ∈ table_c self)) inc
       acc (k, rows)).
Proof.
  unfold process_group. apply emits_for_each. intros acc' batch Hb.
  apply process_batch_emits. intros x Hx.
  eapply batched_subset; [|exact Hb|exact Hx].
  pose proof (max_rows_pos (1 + Z.of_nat (length (sorted k)))). lia.
Qed.

(** Every statement that [bulk_update] executes is built from a
    non-empty batch of rows of one group, with the sorted field set of
    that group as its columns. *)
Lemma bulk_update_emits self payload uf inc normalised :
  normalise uf inc payload = inr normalised →
  emits (from_groups self (group_rows normalised))
    (bulk_update self payload uf inc).
Proof.
  intros Hn. unfold bulk_update. destruct payload as [|raw payload].
  { apply emits_ret. }
  rewrite Hn. apply emits_bind; [|intros [? ?]; apply emits_ret].
  apply emits_for_each. intros acc [k rows] Hg s.
  destruct (process_group_emits self inc acc k rows s) as (evs & Ht & HP).
  exists evs. split; [done|]. eapply Forall_impl; [exact HP|].
  intros e He. by exists k, rows.
Qed.

(** *** The outcome of a batch *)

Lemma check_columns_known self cols s :
  known self cols → check_columns self cols s = (s, inr tt).
Proof.
  induction 1 as [|c cols Hc _ IH]; simpl; [done|].
  by rewrite bool_decide_eq_true_2.
Qed.

Lemma check_columns_outcome self cols s :
  (known self cols ∧ check_columns self cols s = (s, inr tt)) ∨
  ∃ c, c ∈ cols ∧ (c ∉ table_c self) ∧
       check_columns self cols s = (s, inl (KeyError c)).
Proof.
  induction cols as [|c cols IH]; simpl.
  { left. split; [apply Forall_nil_2|done]. }
  case_bool_decide as Hc.
  - destruct IH as [[Hk H]|(c' & Hin & Hout & H)].
    + left. split; [by apply Forall_cons_2|done].
    + right. exists c'. split; [by right|done].
  - right. exists c. split; [left|done].
Qed.

Lemma execute_refused self stmt e s :
  refuses self stmt = Some e →
  execute self stmt s = (log (Execute stmt (inl e)) s, inl e).
Proof. intros H. unfold execute. by rewrite H. Qed.

(** A batch whose columns the table has, on a session of the library:
    its statement is refused and the error is not one that
    [bulk_update] handles. *)
Lemma process_batch_refused self cols wf inc acc batch s :
  refuses self = as_written →
  batch ≠ [] → known self cols →
  process_batch self cols wf inc acc batch s
  = (log (Execute (batch_statement self cols wf batch) (inl StatementError)) s,
     inl StatementError).
Proof.
  intros Hlib Hne Hk. unfold process_batch. destruct acc as [U E].
  destruct batch as [|row batch]; [done|].
  unfold bind at 1. unfold try_integrity, _execute_batch_update.
  unfold bind at 1. rewrite (check_columns_known _ _ _ Hk).
  unfold bind at 1. rewrite (execute_refused _ _ StatementError); [done|].
  by rewrite Hlib.
Qed.

(** A batch with a column that the table does not have. *)
Lemma process_batch_unknown self cols wf inc acc batch s c :
  batch ≠ [] →
  check_columns self cols s = (s, inl (KeyError c)) →
  process_batch self cols wf inc acc batch s = (s, inl (KeyError c)).
Proof.
  intros Hne Hc. unfold process_batch. destruct acc as [U E].
  destruct batch as [|row batch]; [done|].
  unfold bind at 1. unfold try_integrity, _execute_batch_update.
  unfold bind at 1. by rewrite Hc.
Qed.

Lemma renames_normalise :
  normalise None false Examples.renames = inr Examples.renames_normalised.
Proof. vm_compute. reflexivity. Qed.

Lemma executed_from_groups self payload uf inc normalised s evs :
  normalise uf inc payload = inr normalised →
  trace (bulk_update self payload uf inc s).1 = trace s ++ evs →
  ∀ stmt o, Execute stmt o ∈ evs →
    ∃ k rows batch ws,
      (k, rows) ∈ group_rows normalised ∧ batch ≠ [] ∧ batch ⊆ rows ∧
      from_batch (sorted k) ws batch stmt.
Proof.
  intros Hn Ht stmt o Hin.
  destruct (bulk_update_emits self payload uf inc normalised Hn s)
    as (evs' & Ht' & Hall).
  rewrite Ht in Ht'. apply app_inv_head in Ht' as <-.
  rewrite Forall_forall in Hall.
  destruct (Hall _ Hin) as (k & rows & Hg & batch & Hne & Hsub & Hfrom).
  eexists k, rows, batch, _. eauto.
Qed.

(** *** Groups and statements *)

Lemma list_to_set_sorted (k : gset string) : list_to_set (sorted k) = k.
Proof.
  apply set_eq. intros c. by rewrite elem_of_list_to_set, elem_of_sorted.
Qed.

Lemma from_batch_shape cols ws batch stmt :
  from_batch cols ws batch stmt → has_shape cols stmt.
Proof.
  intros [->|(row & _ & ->)]; simpl.
  - split; [done|]. apply Forall_fmap, Forall_forall. intros row _.
    simpl. by rewrite length_fmap.
  - rewrite <- list_fmap_compose. by rewrite list_fmap_id.
Qed.

Lemma zip_fmap_self {A B} (f : A → B) (l : list A) :
  zip l (f <$> l) = (λ x, (x, f x)) <$> l.
Proof. induction l as [|x l IH]; [done|]. cbn. f_equal. exact IH. Qed.

Lemma mixed_normalise :
  normalise None false Examples.mixed = inr Examples.mixed_normalised.
Proof. vm_compute. reflexivity. Qed.

(** *** Chunks under the ceiling *)

Lemma chunk_size_ok_max_rows (n : nat) :
  chunk_size_ok n (Z.to_nat (max_rows (1 + Z.of_nat n))).
Proof.
  pose proof (max_rows_pos (1 + Z.of_nat n) ltac:(lia)) as Hpos.
  split; [lia|]. unfold within_ceiling.
  destruct (decide (1 + Z.of_nat n ≤ _MAX_QUERY_PARAMS)) as [Hle|Hgt].
  - left. pose proof (max_rows_within (1 + Z.of_nat n) ltac:(lia)) as H.
    unfold _MAX_QUERY_PARAMS in H. rewrite Z2Nat.id by lia. exact H.
  - right. rewrite max_rows_wide by lia.
    unfold _MAX_QUERY_PARAMS in Hgt. split; [lia|done].
Qed.

Lemma chunk_size_ok_le (n size len : nat) :
  chunk_size_ok n size → (1 ≤ len ≤ size)%nat → chunk_size_ok n len.
Proof.
  unfold chunk_size_ok, within_ceiling. intros [H1 [H|[H ->]]] Hlen.
  - split; [lia|]. left. nia.
  - split; [lia|]. right. split; [done|lia].
Qed.

Lemma batched_lengths {A} (rows : list A) (n : nat) :
  (1 ≤ n)%nat →
  Forall (λ chunk, (1 ≤ length chunk ≤ n)%nat) (batched rows n).
Proof.
  intros Hn. apply Forall_forall. intros chunk Hin.
  by eapply batched_fuel_length.
Qed.

Lemma fallback_row_sized self cols wf acc row :
  emits sized (fallback_row self cols wf acc row).
Proof.
  unfold fallback_row. destruct acc as [U E].
  apply emits_bind; [apply emits_check_columns|]. intros _.
  apply emits_bind.
  - apply emits_try. apply emits_bind; [by apply emits_execute|].
    intros res. destruct (head res); [|apply emits_ret].
    apply emits_bind; [by apply emits_commit|]. intros _. apply emits_ret.
  - intros [exc|acc']; [|apply emits_ret].
    apply emits_bind; [by apply emits_rollback|]. intros _. apply emits_ret.
Qed.

Lemma process_batch_sized self cols wf inc acc batch :
  chunk_size_ok (length cols) (length batch) →
  emits sized (process_batch self cols wf inc acc batch).
Proof.
  intros Hok. unfold process_batch. destruct acc as [U E].
  destruct batch as [|row batch]; [apply emits_ret|].
  set (b := row :: batch) in *. apply emits_bind.
  - apply emits_try. unfold _execute_batch_update.
    apply emits_bind; [unfold b; apply emits_check_columns|]. intros _.
    apply emits_bind; [|intros rs; apply emits_ret].
    apply emits_execute. intros o. simpl. by rewrite length_fmap.
  - intros [exc|[batch_result missing_ids]].
    + apply emits_bind; [by apply emits_rollback|]. intros _.
      apply emits_bind; [|intros [? ?]; apply emits_ret].
      unfold _fallback_row_by_row. apply emits_for_each.
      intros. apply fallback_row_sized.
    + apply emits_bind; [by apply emits_commit|]. intros _. apply emits_ret.
Qed.

Lemma process_group_sized self wf inc acc group :
  emits sized (process_group self wf inc acc group).
Proof.
  destruct group as [k rows]. unfold process_group.
  pose proof (chunk_size_ok_max_rows (length (sorted k))) as Hok.
  apply emits_for_each. intros acc' batch Hb.
  apply process_batch_sized. eapply chunk_size_ok_le; [exact Hok|].
  eapply batched_fuel_length; [apply Hok|exact Hb].
Qed.

(** C5. Every group of a call is split into chunks of a size that is
    at least 1 and keeps [(1 + numFieldsInGroup) * chunkSize] within
    20000, unless a single row is above the ceiling and the size is 1:
    the loop of the group runs over these chunks, which are not empty,
    hold no more rows than that size and, put end to end, are the rows
    of the group; and every set-based statement that the call sends
    has a value list of such a size for its columns. *)
Theorem chunks_within_ceiling (self : Repository)
    (payload : list (gmap string value))
    (update_fields : option (list string)) (include_none : bool)
    (normalised : list (gmap string value)) (s : Session) :
  normalise update_fields include_none payload = inr normalised →
  (∀ cols_set rows, (cols_set, rows) ∈ group_rows normalised →
     ∃ chunk_size,
       chunk_size_ok (size cols_set) chunk_size ∧
       (∀ wf acc,
          process_group self wf include_none acc (cols_set, rows)
          = for_each (process_batch self (sorted cols_set) wf include_none)
              (batched rows chunk_size) acc) ∧
       mjoin (batched rows chunk_size) = rows ∧
       Forall (λ chunk, (1 ≤ length chunk ≤ chunk_size)%nat)
         (batched rows chunk_size)) ∧
  ∃ evs,
    trace (bulk_update self payload update_fields include_none s).1
    = trace s ++ evs ∧
    Forall sized evs.
Proof.
  intros Hn. split.
  - intros cols_set rows _.
    exists (Z.to_nat (max_rows (1 + Z.of_nat (size cols_set)))).
    pose proof (chunk_size_ok_max_rows (size cols_set)) as Hok.
    split; [exact Hok|]. split; [|split].
    + intros wf acc. unfold process_group. by rewrite length_sorted.
    + apply batched_concat, Hok.
    + apply batched_lengths, Hok.
  - revert s.
    change (emits sized (bulk_update self payload update_fields include_none)).
    unfold bulk_update. destruct payload as [|raw payload]; [apply emits_ret|].
    rewrite Hn. apply emits_bind; [|intros [? ?]; apply emits_ret].
    apply emits_for_each. intros. apply process_group_sized.
Qed.

(** The witness of C5: the sample payload, whose three rows with a
    name go into one chunk and one statement. *)
Lemma chunks_within_ceiling_witness :
  let self := Examples.users in
  let s := Examples.fresh Examples.users_db in
  normalise None false Examples.renames = inr Examples.renames_normalised ∧
  ((∀ cols_set rows,
      (cols_set, rows) ∈ group_rows Examples.renames_normalised →
      ∃ chunk_size,
        chunk_size_ok (size cols_set) chunk_size ∧
        (∀ wf acc,
           process_group self wf false acc (cols_set, rows)
           = for_each (process_batch self (sorted cols_set) wf false)
               (batched rows chunk_size) acc) ∧
        mjoin (batched rows chunk_size) = rows ∧
        Forall (λ chunk, (1 ≤ length chunk ≤ chunk_size)%nat)
          (batched rows chunk_size)) ∧
   ∃ evs,
     trace (bulk_update self Examples.renames None false s).1
     = trace s ++ evs ∧
     Forall sized evs).
Proof.
  intros self s. split; [exact renames_normalise|].
  exact (chunks_within_ceiling self Examples.renames None false
           Examples.renames_normalised s renames_normalise).
Defined.

(** *** The calls that do not return *)

(** C1, at the sample table, where tuple 2 belongs to tenant 2: the
    call of tenant 1 that renames row 2 sends one set-based statement,
    which is refused, and raises; it returns no result, so the id is
    in no list of errors. The call does the same on the session where
    the tuple does not exist. *)
Theorem foreign_row_call_raises :
  let self := Examples.users in
  let s := Examples.fresh Examples.users_db in
  let payload := [Examples.rename 2 "eve"] in
  let stmt := UpdateFromValues ["name"] [(VInt 2, [VStr "eve"])] (Some 1) in
  Examples.users_db !! 2 = Some (Examples.user 2 "bob") ∧
  bulk_update self payload None false s
  = (log (Execute stmt (inl StatementError)) s, inl StatementError) ∧
  bulk_update self payload None false (without 2 s)
  = (log (Execute stmt (inl StatementError)) (without 2 s),
     inl StatementError).
Proof. repeat split; vm_compute; reflexivity. Qed.


(** C6, at a payload of two rows that write different fields: the
    rows go to two groups, the statement of the first group is
    refused, and the call raises before the second group gives rise to
    a statement. *)
Theorem second_group_sends_no_statement (s : Session) :
  normalise None false Examples.mixed = inr Examples.mixed_normalised ∧
  group_rows Examples.mixed_normalised
  = [ ({[ "name" ]}, [ {[ "id" := VInt 1; "name" := VStr "dan" ]} ]);
      ({[ "price" ]}, [ {[ "id" := VInt 3; "price" := VInt 10 ]} ]) ] ∧
  bulk_update Examples.users Examples.mixed None false s
  = (log (Execute (UpdateFromValues ["name"] [(VInt 1, [VStr "dan"])] (Some 1))
            (inl StatementError)) s,
     inl StatementError).
Proof. repeat split; vm_compute; reflexivity. Qed.

(** *** A row with nothing to write *)

(** C7, at an item whose fields are all [None]: when [update_fields]
    lists [id], the candidates of the item are its id, the row is not
    marked as empty, no group takes it, and the result has no entry
    for it. With the same fields without [id], or with no
    [update_fields], the result has the entry [no fields to update]. *)
Theorem fieldless_row_dropped_when_id_listed (s : Session) :
  let self := Examples.users in
  let raw := Examples.nothing 1 in
  candidates (Some ["id"; "name"; "price"]) false raw = {[ "id" := VInt 1 ]} ∧
  normalise (Some ["id"; "name"; "price"]) false [raw]
  = inr [ {[ "id" := VInt 1 ]} ] ∧
  bulk_update self [raw] (Some ["id"; "name"; "price"]) false s
  = (s, inr {| updated := []; errors := [] |}) ∧
  bulk_update self [raw] (Some ["name"; "price"]) false s
  = (s, inr {| updated := [];
               errors := [error_entry (VInt 1) no_fields] |}) ∧
  bulk_update self [raw] None false s
  = (s, inr {| updated := [];
               errors := [error_entry (VInt 1) no_fields] |}).
Proof. repeat split; vm_compute; reflexivity. Qed.

End BulkUpdateProps.

(** ** More properties of the search engine *)

Module SearchExtra.
Import Search SearchSpec.

Lemma foldl_where q cs :
  q_where (foldl where_ q cs) = q_where q ++ cs ∧
  q_joins (foldl where_ q cs) = q_joins q ∧
  q_order_by (foldl where_ q cs) = q_order_by q ∧
  q_options (foldl where_ q cs) = q_options q ∧
  q_offset (foldl where_ q cs) = q_offset q ∧
  q_limit (foldl where_ q cs) = q_limit q.
Proof.
  revert q. induction cs as [|c cs IH]; intros q; simpl.
  - by rewrite app_nil_r.
  - destruct (IH (where_ q c)) as (-> & -> & -> & -> & -> & ->). simpl.
    by rewrite <- app_assoc.
Qed.

Lemma joins_ok_mono config names names' q joined :
  names ⊆ names' → joins_ok config names q joined →
  joins_ok config names' q joined.
Proof.
  intros Hsub (Hnd & Hin & Hsrc). split; [done|]. split; [done|].
  intros t Ht. destruct (Hsrc t Ht) as (name & jc & ? & ? & ?).
  exists name, jc. auto.
Qed.

Lemma joins_ok_join config names q joined name jc t :
  joins_ok config names q joined →
  name ∈ names → join_columns config !! name = Some jc → j_join jc = Some t →
  t ∉ joined →
  joins_ok config names (join q t) ({[t]} ∪ joined).
Proof.
  intros (Hnd & Hin & Hsrc) Hname Hjc Ht Hnot. split; [|split]; simpl.
  - apply NoDup_app. split; [done|]. split; [|apply NoDup_singleton].
    intros x Hx Hx'. apply list_elem_of_singleton in Hx' as ->. auto.
  - intros x Hx. apply elem_of_app in Hx as [Hx|Hx]; [set_solver|].
    apply list_elem_of_singleton in Hx as ->. set_solver.
  - intros x Hx. apply elem_of_app in Hx as [Hx|Hx]; [by apply Hsrc|].
    apply list_elem_of_singleton in Hx as ->. by exists name, jc.
Qed.

Lemma add_joins_ok config names filters :
  ∀ q joined,
    (f_column <$> filters) ⊆ names →
    joins_ok config names q joined →
    joins_ok config names (add_joins config q joined filters).1
      (add_joins config q joined filters).2 ∧
    q_where (add_joins config q joined filters).1 = q_where q ∧
    q_order_by (add_joins config q joined filters).1 = q_order_by q ∧
    q_options (add_joins config q joined filters).1 = q_options q.
Proof.
  induction filters as [|f filters IH]; intros q joined Hsub Hok; [done|].
  cbn [add_joins].
  assert ((f_column <$> filters) ⊆ names) as Hsub' by set_solver.
  destruct (join_columns config !! f_column f) as [jc|] eqn:Hjc; simpl;
    [|by apply IH].
  destruct (j_join jc) as [t|] eqn:Ht; [|by apply IH].
  case_bool_decide as Hin; [|by apply IH].
  destruct (IH (join q t) ({[t]} ∪ joined) Hsub') as (? & ? & ? & ?);
    [|done].
  eapply joins_ok_join; eauto. set_solver.
Qed.

Lemma joins_ok_ext config names q1 q2 joined :
  q_joins q2 = q_joins q1 → joins_ok config names q1 joined →
  joins_ok config names q2 joined.
Proof. unfold joins_ok. by intros ->. Qed.

Lemma apply_sorting_ok model config names sorts :
  ∀ q joined q' joined',
    (s_column <$> sorts) ⊆ names →
    joins_ok config names q joined →
    _apply_sorting model config q sorts joined = inr (q', joined') →
    joins_ok config names q' joined' ∧
    q_where q' = q_where q ∧ q_options q' = q_options q.
Proof.
  induction sorts as [|s sorts IH]; intros q joined q' joined' Hsub Hok H.
  { simpl in H. by injection H as <- <-. }
  assert ((s_column <$> sorts) ⊆ names) as Hsub' by set_solver.
  assert (s_column s ∈ names) as Hs by set_solver.
  cbn [_apply_sorting] in H.
  destruct (bool_decide _ && bool_decide _); [done|].
  assert (∀ c q1 j1,
            joins_ok config names q1 j1 →
            q_where q1 = q_where q → q_options q1 = q_options q →
            _apply_sorting model config (order_by q1 c (s_direction s))
              sorts j1 = inr (q', joined') →
            joins_ok config names q' joined' ∧
            q_where q' = q_where q ∧ q_options q' = q_options q) as Hstep.
  { intros c q1 j1 Hok1 Hw Ho H1.
    destruct (IH (order_by q1 c (s_direction s)) j1 q' joined' Hsub')
      as (? & -> & ->); [by eapply joins_ok_ext|done|done]. }
  case_bool_decide as Hsimple.
  - destruct (getattr model (s_column s)) as [e|c]; [done|]. simpl in H.
    by eapply Hstep.
  - destruct (join_columns config !! s_column s) as [jc|] eqn:Hjc; [|done].
    destruct (j_join jc) as [t|] eqn:Ht.
    + case_bool_decide as Hin; simpl in H.
      * destruct (j_column jc) as [c|]; [|done].
        apply (Hstep c (join q t) ({[t]} ∪ joined)); [|done|done|exact H].
        eapply joins_ok_join; eauto.
      * destruct (j_column jc) as [c|]; [|done]. by eapply Hstep.
    + simpl in H. destruct (j_column jc) as [c|]; [|done]. by eapply Hstep.
Qed.

Lemma apply_sorting_order model config sorts :
  ∀ q joined q' joined',
    _apply_sorting model config q sorts joined = inr (q', joined') →
    ∃ keys,
      q_order_by q' = q_order_by q ++ keys ∧
      Forall2 (λ s k, resolve model config (s_column s) = Some k.1 ∧
                      k.2 = s_direction s) sorts keys.
Proof.
  induction sorts as [|s sorts IH]; intros q joined q' joined' H.
  { simpl in H. injection H as <- <-. exists []. by rewrite app_nil_r. }
  cbn [_apply_sorting] in H.
  destruct (bool_decide _ && bool_decide _); [done|].
  assert (∀ c q1 j1,
            q_order_by q1 = q_order_by q →
            resolve model config (s_column s) = Some c →
            _apply_sorting model config (order_by q1 c (s_direction s))
              sorts j1 = inr (q', joined') →
            ∃ keys,
              q_order_by q' = q_order_by q ++ keys ∧
              Forall2 (λ s k, resolve model config (s_column s) = Some k.1 ∧
                              k.2 = s_direction s) (s :: sorts) keys)
    as Hstep.
  { intros c q1 j1 Ho Hr H1.
    destruct (IH _ _ _ _ H1) as (keys & Hk & Hall).
    exists ((c, s_direction s) :: keys). split.
    - rewrite Hk. simpl. rewrite Ho. by rewrite <- app_assoc.
    - by constructor. }
  unfold resolve in Hstep. revert H. case_bool_decide as Hsimple; intros H.
  - unfold getattr in H.
    destruct (m_columns model !! s_column s) as [c|] eqn:Hc; [|done].
    simpl in H. by eapply Hstep.
  - destruct (join_columns config !! s_column s) as [jc|] eqn:Hjc; [|done].
    simpl in Hstep.
    destruct (j_join jc) as [t|] eqn:Ht.
    + case_bool_decide as Hin; simpl in H.
      * destruct (j_column jc) as [c|]; [|done].
        by apply (Hstep c (join q t) ({[t]} ∪ joined)).
      * destruct (j_column jc) as [c|]; [|done]. by eapply Hstep.
    + simpl in H. destruct (j_column jc) as [c|]; [|done]. by eapply Hstep.
Qed.

Lemma apply_search_shape model config q term q' :
  _apply_search model config q term = inr q' →
  q' = q ∨ ∃ cs needle, q' = where_ q (SearchAny cs needle).
Proof.
  unfold _apply_search. destruct (searchable_columns config); [done|].
  destruct (search_columns model config _) as [e|cs]; [done|]. simpl.
  destruct cs; intros [= <-]; eauto.
Qed.

Lemma apply_search_fields model config q term q' :
  _apply_search model config q term = inr q' →
  q_joins q' = q_joins q ∧ q_order_by q' = q_order_by q ∧
  q_options q' = q_options q ∧
  ∃ text, q_where q' = q_where q ++ text ∧
          (text = [] ∨ ∃ cs needle, text = [SearchAny cs needle]).
Proof.
  unfold _apply_search. destruct (searchable_columns config); [done|].
  destruct (search_columns model config _) as [e|cs]; [done|]. simpl.
  destruct cs; intros [= <-].
  - repeat split; try done. exists []. split; [by rewrite app_nil_r|by left].
  - repeat split; try done. eexists [_]. split; [done|]. right. eauto.
Qed.

Lemma build_filter_condition_some fa da model config f o :
  _build_filter_condition fa da model config f = inr o →
  ∃ c, o = Some c ∧
       condition_column c = resolve model config (f_column f).
Proof.
  unfold _build_filter_condition, resolve.
  destruct (bool_decide _ && bool_decide _); [done|].
  case_bool_decide as Hs.
  - unfold getattr. destruct (m_columns model !! f_column f) as [col|];
      [|done]. simpl.
    destruct (_convert_filter_value fa da col _ _) as [e|v]; [done|]. simpl.
    destruct (f_operator f); simpl;
      try (intros [= <-]; eexists; by repeat split);
      (destruct (convert_all fa da col _ _) as [e|vs]; [done|];
       intros [= <-]; eexists; by repeat split).
  - simpl. destruct (join_columns config !! f_column f ≫= j_column)
      as [col|]; [|done].
    destruct (_convert_filter_value fa da col _ _) as [e|v]; [done|]. simpl.
    destruct (f_operator f); simpl;
      try (intros [= <-]; eexists; by repeat split);
      (destruct (convert_all fa da col _ _) as [e|vs]; [done|];
       intros [= <-]; eexists; by repeat split).
Qed.

Lemma filter_conditions_all fa da model config filters cs :
  filter_conditions fa da model config filters = inr cs →
  Forall2 (λ f c, _build_filter_condition fa da model config f = inr (Some c) ∧
                  condition_column c = resolve model config (f_column f))
    filters cs.
Proof.
  revert cs. induction filters as [|f filters IH]; intros cs; simpl.
  { intros [= <-]. constructor. }
  destruct (_build_filter_condition fa da model config f) as [e|o] eqn:Hb;
    [done|]. simpl.
  destruct (filter_conditions fa da model config filters) as [e|cs'];
    [done|]. simpl.
  destruct (build_filter_condition_some _ _ _ _ _ _ Hb) as (c & -> & Hc).
  intros [= <-]. constructor; auto.
Qed.

(** X4. Every filter clause of a successful [_apply_filters] contributes
    one condition, on the column its name resolves to, after the
    conditions already there and in the order of the clauses; nothing
    else of the query changes. *)
Theorem filters_all_applied (fa da : string → bool) (model : Model)
    (config : SearchConfig) (q q' : Query) (filters : list BaseFilterItem) :
  _apply_filters fa da model config q filters = inr q' →
  ∃ cs,
    q_where q' = q_where q ++ cs ∧
    Forall2 (λ f c,
               _build_filter_condition fa da model config f = inr (Some c) ∧
               condition_column c = resolve model config (f_column f))
      filters cs ∧
    q_joins q' = q_joins q ∧ q_order_by q' = q_order_by q ∧
    q_options q' = q_options q.
Proof.
  unfold _apply_filters.
  destruct (filter_conditions fa da model config filters) as [e|cs] eqn:Hc;
    [done|]. simpl. intros [= <-].
  pose proof (filter_conditions_all _ _ _ _ _ _ Hc) as H1.
  destruct (foldl_where q cs) as (? & ? & ? & ? & _).
  by exists cs.
Qed.

Lemma filtered_query_spec fa da model config rq ws q joined :
  filtered_query fa da model config rq ws = inr (q, joined) →
  joins_ok config (f_column <$> default [] (rq_filter rq)) q joined ∧
  q_order_by q = [] ∧
  ∃ text conds,
    q_where q = tenant_scope model ws ++ text ++ conds ∧
    (text = [] ∨ ∃ cs needle, text = [SearchAny cs needle]) ∧
    Forall2 (λ f c,
               _build_filter_condition fa da model config f = inr (Some c))
      (default [] (rq_filter rq)) conds.
Proof.
  unfold filtered_query.
  match goal with |- bind ?x _ = _ → _ => set (q0 := x) end.
  assert (∀ qa, q0 = inr qa →
                q_joins qa = [] ∧ q_where qa = [] ∧ q_order_by qa = []) as H0.
  { unfold q0. intros qa. repeat case_bool_decide; by intros [= <-]. }
  clearbody q0. destruct q0 as [e|qa]; simpl; [done|].
  destruct (H0 qa eq_refl) as (Hj & Hw & Ho). clear H0.
  set (qb := match ws with
             | Some w => if bool_decide ("workspace_id" ∈ dom (m_columns model))
                         then where_ qa (WorkspaceIs w) else qa
             | None => qa
             end).
  assert (q_joins qb = [] ∧ q_where qb = tenant_scope model ws ∧
          q_order_by qb = []) as (Hjb & Hwb & Hob).
  { unfold qb, tenant_scope. destruct ws as [w|]; [|done].
    case_bool_decide; simpl; by rewrite ?Hw. }
  clearbody qb. clear qa Hj Hw Ho.
  set (fs := default [] (rq_filter rq)).
  assert (joins_ok config (f_column <$> fs) qb ∅) as Hok0.
  { split; [rewrite Hjb; constructor|].
    split; intros t Ht; rewrite Hjb in Ht; by apply elem_of_nil in Ht. }
  match goal with
  | |- (let '(_, _) := ?x in _) = _ → _ =>
      destruct x as [qc jc] eqn:Hadd
  end.
  assert (joins_ok config (f_column <$> fs) qc jc ∧
          q_where qc = q_where qb ∧ q_order_by qc = q_order_by qb)
    as (Hokc & Hwc & Hoc).
  { destruct (rq_filter rq) as [[|f fs0]|] eqn:Hf;
      try (by injection Hadd as <- <-).
    unfold _add_joins_for_filters in Hadd.
    destruct (add_joins_ok config (f_column <$> fs) (f :: fs0) qb ∅)
      as (? & ? & ? & ?); [done|done|].
    rewrite Hadd in *. simpl in *. done. }
  match goal with
  | |- bind ?x _ = _ → _ => destruct x as [e|qd] eqn:Hs; simpl; [done|]
  end.
  assert (q_joins qd = q_joins qc ∧ q_order_by qd = q_order_by qc ∧
          ∃ text, q_where qd = q_where qc ++ text ∧
                  (text = [] ∨ ∃ cs needle, text = [SearchAny cs needle]))
    as (Hjd & Hod & cs1 & Hwd & Hu1).
  { destruct (rq_search rq) as [[|a s]|].
    - injection Hs as <-. repeat split. exists [].
      split; [by rewrite app_nil_r|by left].
    - destruct (apply_search_fields _ _ _ _ _ Hs) as (?&?&?&?). auto.
    - injection Hs as <-. repeat split. exists [].
      split; [by rewrite app_nil_r|by left]. }
  match goal with
  | |- bind ?x _ = _ → _ => destruct x as [e|qe] eqn:Hfl; simpl; [done|]
  end.
  assert (q_joins qe = q_joins qd ∧ q_order_by qe = q_order_by qd ∧
          ∃ conds,
            q_where qe = q_where qd ++ conds ∧
            Forall2 (λ f c, _build_filter_condition fa da model config f
                            = inr (Some c)) fs conds)
    as (Hje & Hoe & cs2 & Hwe & Hu2).
  { unfold fs. destruct (rq_filter rq) as [[|f fs0]|].
    - injection Hfl as <-. repeat split. exists [].
      split; [by rewrite app_nil_r|constructor].
    - unfold _apply_filters in Hfl.
      destruct (filter_conditions fa da model config (f :: fs0))
        as [e|cs] eqn:Hc; [done|]. simpl in Hfl. injection Hfl as <-.
      pose proof (filter_conditions_all _ _ _ _ _ _ Hc) as Hu.
      destruct (foldl_where qd cs) as (? & ? & ? & _).
      repeat split; try done. exists cs. split; [done|].
      eapply Forall2_impl; [exact Hu|]. by intros ? ? [? _].
    - injection Hfl as <-. repeat split. exists [].
      split; [by rewrite app_nil_r|constructor]. }
  intros [= <- <-]. split; [|split].
  - eapply joins_ok_ext; [|exact Hokc]. congruence.
  - congruence.
  - exists cs1, cs2. split; [|done].
    rewrite Hwe, Hwd, Hwc, Hwb. by rewrite <- app_assoc.
Qed.

(** X1. Every table joined by the query of a search is joined once, and
    is the join target of a join column named by a filter clause or
    by a sort clause of the request: the free text search adds no
    join, even for a searchable join column. *)
Theorem joins_from_filter_and_sort (fa da : string → bool) (model : Model)
    (config : SearchConfig) (rq : BaseSearchRequestBody) (ws : option Z)
    (q : Query) :
  build_query fa da model config rq ws = inr q →
  NoDup (q_joins q) ∧
  ∀ t, t ∈ q_joins q →
       ∃ name jc, name ∈ requested rq ∧
                  join_columns config !! name = Some jc ∧
                  j_join jc = Some t.
Proof.
  unfold build_query.
  destruct (filtered_query fa da model config rq ws) as [e|[q0 j0]] eqn:Hf;
    [done|]. cbn -[_apply_sorting].
  destruct (filtered_query_spec _ _ _ _ _ _ _ _ Hf) as (Hok & _ & _).
  assert (joins_ok config (requested rq) q0 j0) as Hok'.
  { eapply joins_ok_mono; [|exact Hok]. unfold requested. set_solver. }
  assert (∀ qa ja, joins_ok config (requested rq) qa ja →
            NoDup (q_joins qa) ∧
            ∀ t, t ∈ q_joins qa →
                 ∃ name jc, name ∈ requested rq ∧
                            join_columns config !! name = Some jc ∧
                            j_join jc = Some t) as Hfin.
  { intros qa ja (? & ? & ?). auto. }
  destruct (rq_sort rq) as [[|s ss]|] eqn:Hs.
  - destruct (getattr model "id") as [e|c]; [done|]. simpl.
    intros [= <-]. by eapply Hfin.
  - destruct (_apply_sorting model config q0 (s :: ss) j0)
      as [e|[q1 j1]] eqn:Ha; [done|]. simpl. intros [= <-].
    destruct (apply_sorting_ok model config (requested rq) (s :: ss)
                q0 j0 q1 j1) as (Hok1 & _); [|done|done|by eapply Hfin].
    unfold requested. rewrite Hs. set_solver.
  - destruct (getattr model "id") as [e|c]; [done|]. simpl.
    intros [= <-]. by eapply Hfin.
Qed.

(** X2. The conditions of the query of a search are, in this order:
    the tenant condition, when a workspace is given and the model has
    the column; the condition of the free text, when there is one; and
    the conditions built from the filter clauses, one for each clause
    and in the order of the clauses. *)
Theorem conditions_in_order (fa da : string → bool) (model : Model)
    (config : SearchConfig) (rq : BaseSearchRequestBody) (ws : option Z)
    (q : Query) :
  build_query fa da model config rq ws = inr q →
  ∃ text conds,
    q_where q = tenant_scope model ws ++ text ++ conds ∧
    (text = [] ∨ ∃ cs needle, text = [SearchAny cs needle]) ∧
    Forall2 (λ f c,
               _build_filter_condition fa da model config f = inr (Some c))
      (default [] (rq_filter rq)) conds.
Proof.
  unfold build_query.
  destruct (filtered_query fa da model config rq ws) as [e|[q0 j0]] eqn:Hf;
    [done|]. cbn -[_apply_sorting].
  destruct (filtered_query_spec _ _ _ _ _ _ _ _ Hf) as (Hok & _ & Hw).
  destruct (rq_sort rq) as [[|s ss]|] eqn:Hs.
  - destruct (getattr model "id") as [e|c]; [done|]. simpl. by intros [= <-].
  - destruct (_apply_sorting model config q0 (s :: ss) j0)
      as [e|[q1 j1]] eqn:Ha; [done|]. simpl. intros [= <-].
    destruct (apply_sorting_ok model config (requested rq) (s :: ss)
                q0 j0 q1 j1) as (_ & -> & _); [| |done|done].
    + unfold requested. rewrite Hs. set_solver.
    + eapply joins_ok_mono; [|exact Hok]. unfold requested. set_solver.
  - destruct (getattr model "id") as [e|c]; [done|]. simpl. by intros [= <-].
Qed.

(** X3. The ordering of the query of a search has one key per sort clause,
    in the order of the clauses, on the column the clause's name
    resolves to and in the clause's direction; without sort clauses it
    is the model's [id], ascending. *)
Theorem order_follows_sort_clauses (fa da : string → bool) (model : Model)
    (config : SearchConfig) (rq : BaseSearchRequestBody) (ws : option Z)
    (q : Query) :
  build_query fa da model config rq ws = inr q →
  match default [] (rq_sort rq) with
  | [] => ∃ id, m_columns model !! "id" = Some id ∧ q_order_by q = [(id, ASC)]
  | sorts =>
      Forall2 (λ s k, resolve model config (s_column s) = Some k.1 ∧
                      k.2 = s_direction s) sorts (q_order_by q)
  end.
Proof.
  unfold build_query.
  destruct (filtered_query fa da model config rq ws) as [e|[q0 j0]] eqn:Hf;
    [done|]. cbn -[_apply_sorting].
  destruct (filtered_query_spec _ _ _ _ _ _ _ _ Hf) as (_ & Ho & _).
  unfold getattr.
  destruct (rq_sort rq) as [[|s ss]|] eqn:Hs; cbn -[_apply_sorting].
  - destruct (m_columns model !! "id") as [c|]; [|done]. simpl.
    intros [= <-]. exists c. simpl. by rewrite Ho.
  - destruct (_apply_sorting model config q0 (s :: ss) j0)
      as [e|[q1 j1]] eqn:Ha; [done|]. simpl. intros [= <-].
    destruct (apply_sorting_order _ _ _ _ _ _ _ Ha) as (keys & Hk & Hall).
    rewrite Hk, Ho. done.
  - destruct (m_columns model !! "id") as [c|]; [|done]. simpl.
    intros [= <-]. exists c. simpl. by rewrite Ho.
Qed.

(** *** Integer literals *)

Lemma sign_cases (l : list ascii) :
  match l with
  | "+"%char :: l' => PyStr.digits 0 false l'
  | "-"%char :: l' => Z.opp <$> PyStr.digits 0 false l'
  | _ => PyStr.digits 0 false l
  end =
  match l with
  | [] => None
  | c :: l' =>
      if Ascii.eqb c "+" then PyStr.digits 0 false l'
      else if Ascii.eqb c "-" then Z.opp <$> PyStr.digits 0 false l'
      else PyStr.digits 0 false l
  end.
Proof.
  destruct l as [|c l]; [done|].
  destruct c as [[] [] [] [] [] [] [] []]; reflexivity.
Qed.

Lemma digits_comma (l : list ascii) :
  ","%char ∈ l → ∀ acc prev, PyStr.digits acc prev l = None.
Proof.
  induction l as [|c l IH]; intros Hin acc prev.
  { by apply elem_of_nil in Hin. }
  apply elem_of_cons in Hin as [<-|Hin]; [done|].
  simpl. destruct (PyStr.is_digit c); [by apply IH|].
  destruct (Ascii.eqb c "_"); [|done].
  destruct prev; [by apply IH|done].
Qed.

Lemma lskip_comma (l : list ascii) :
  ","%char ∈ l → ","%char ∈ PyStr.lskip l.
Proof.
  induction l as [|c l IH]; [done|]. intros Hin. simpl.
  destruct (PyStr.is_int_space c) eqn:Hc; [|done].
  apply elem_of_cons in Hin as [<-|Hin]; [done|]. by apply IH.
Qed.

Lemma elem_of_rev {A} (x : A) (l : list A) : x ∈ rev l ↔ x ∈ l.
Proof. rewrite !list_elem_of_In. symmetry. apply in_rev. Qed.

Lemma int_comma (s : string) :
  ","%char ∈ list_ascii_of_string s → PyStr.int s = None.
Proof.
  intros Hin. unfold PyStr.int.
  set (l := rev (PyStr.lskip (rev (PyStr.lskip (list_ascii_of_string s))))).
  assert (","%char ∈ l) as Hl.
  { apply elem_of_rev, lskip_comma, elem_of_rev. by apply lskip_comma. }
  clearbody l. cbv zeta.
  destruct (PyStr.max_str_digits <? _)%nat; [done|].
  rewrite sign_cases. destruct l as [|c l]; [done|].
  destruct (Ascii.eqb c "+") eqn:Hp.
  { apply Ascii.eqb_eq in Hp as ->.
    apply elem_of_cons in Hl as [?|Hl]; [done|]. by apply digits_comma. }
  destruct (Ascii.eqb c "-") eqn:Hm.
  { apply Ascii.eqb_eq in Hm as ->.
    apply elem_of_cons in Hl as [?|Hl]; [done|].
    by rewrite digits_comma. }
  by apply digits_comma.
Qed.

Lemma resolve_known model config name col :
  resolve model config name = Some col →
  (bool_decide (name ∉ simple_columns config) &&
   bool_decide (name ∉ dom (join_columns config))) = false.
Proof.
  unfold resolve. case_bool_decide as Hs.
  - intros _. rewrite bool_decide_eq_false_2; [done|]. by intros ?.
  - intros Hj. rewrite bool_decide_eq_true_2 by done. simpl.
    apply bool_decide_eq_false_2. intros Hn. apply Hn.
    apply elem_of_dom. destruct (join_columns config !! name); [done|].
    done.
Qed.

Lemma build_on_int_column fa da model config f col :
  resolve model config (f_column f) = Some col →
  c_python_type col = Some PyInt →
  PyStr.int (f_value f) = None →
  _build_filter_condition fa da model config f
  = inl (FilterValueError (f_column f) (f_value f) "int").
Proof.
  intros Hr Ht Hi. unfold _build_filter_condition.
  rewrite (resolve_known _ _ _ _ Hr). unfold resolve in Hr.
  unfold getattr. revert Hr. case_bool_decide; intros ->; simpl;
    unfold _convert_filter_value; by rewrite Ht, Hi.
Qed.

(** X5. A filter clause on an integer column whose value is ASCII text
    builds a condition only if that value is an integer literal,
    whatever the operator: the value is converted before the operator
    is looked at, so [is_empty] with a blank value and [in] with a
    list of several values fail. *)
Theorem int_column_needs_integer_literal (fa da : string → bool)
    (model : Model) (config : SearchConfig) (f : BaseFilterItem)
    (col : Column) (c : option Condition) :
  PyStr.isascii (f_value f) = true →
  resolve model config (f_column f) = Some col →
  c_python_type col = Some PyInt →
  _build_filter_condition fa da model config f = inr c →
  ∃ z, PyStr.int (f_value f) = Some z.
Proof.
  intros _ Hr Ht Hb. destruct (PyStr.int (f_value f)) as [z|] eqn:Hi; [by eauto|].
  by rewrite (build_on_int_column _ _ _ _ _ _ Hr Ht Hi) in Hb.
Qed.

(** X6. A list of several values is never accepted on an integer column:
    a value that contains a comma is no integer literal, so a filter
    list with such a clause fails as a whole. *)
Theorem value_list_rejected_on_int_column (fa da : string → bool)
    (model : Model) (config : SearchConfig) (q : Query)
    (filters : list BaseFilterItem) (f : BaseFilterItem) (col : Column) :
  f ∈ filters →
  resolve model config (f_column f) = Some col →
  c_python_type col = Some PyInt →
  ","%char ∈ list_ascii_of_string (f_value f) →
  ∃ f', f' ∈ filters ∧
    _apply_filters fa da model config q filters
    = inl (FilterValueError (f_column f') (f_value f') "valid filter value").
Proof.
  intros Hin Hr Ht Hc. unfold _apply_filters.
  destruct (filter_conditions fa da model config filters) as [e|cs] eqn:He.
  - destruct (SearchProps.filter_conditions_error _ _ _ _ _ _ He)
      as (f' & Hf' & ->). by exists f'.
  - exfalso. pose proof (filter_conditions_all _ _ _ _ _ _ He) as Hall.
    apply list_elem_of_lookup in Hin as [i Hi].
    destruct (Forall2_lookup_l _ _ _ _ _ Hall Hi) as (c & _ & Hb & _).
    rewrite (build_on_int_column fa da model config f col) in Hb;
      [done|done|done|]. by apply int_comma.
Qed.

(** *** Columns without a numeric type *)

Lemma convert_text fa da col ty name v :
  c_python_type col = Some ty →
  ty ≠ PyInt → ty ≠ PyFloat → ty ≠ PyDecimal →
  ∃ cv, _convert_filter_value fa da col v name = inr cv.
Proof.
  intros Ht Hi Hf Hd. unfold _convert_filter_value. rewrite Ht.
  destruct ty; try done; by eexists.
Qed.

Lemma convert_all_text fa da col ty name vs :
  c_python_type col = Some ty →
  ty ≠ PyInt → ty ≠ PyFloat → ty ≠ PyDecimal →
  ∃ cvs, convert_all fa da col vs name = inr cvs.
Proof.
  intros Ht Hi Hf Hd. induction vs as [|v vs [cvs IH]]; simpl; [by eexists|].
  destruct (convert_text fa da col ty name v Ht Hi Hf Hd) as [cv ->]. simpl.
  rewrite IH. simpl. by eexists.
Qed.

(** X7. A filter clause on a column whose type has a Python type that
    is not [int], [float] or [Decimal] always builds a condition,
    whatever its operator and its value are: the conversion of the
    value to [bool] or to text cannot fail. *)
Theorem text_filter_always_builds (fa da : string → bool)
    (model : Model) (config : SearchConfig) (f : BaseFilterItem)
    (col : Column) (ty : PyType) :
  resolve model config (f_column f) = Some col →
  c_python_type col = Some ty →
  ty ≠ PyInt → ty ≠ PyFloat → ty ≠ PyDecimal →
  ∃ c, _build_filter_condition fa da model config f = inr (Some c) ∧
       condition_column c = Some col.
Proof.
  intros Hr Ht Hi Hf Hd. unfold _build_filter_condition.
  rewrite (resolve_known _ _ _ _ Hr). unfold resolve in Hr.
  unfold getattr. revert Hr. case_bool_decide; intros ->; simpl;
    (destruct (convert_text fa da col ty (f_column f) (f_value f)
                 Ht Hi Hf Hd) as [cv ->]; simpl;
     destruct (convert_all_text fa da col ty (f_column f)
                 (PyStr.strip <$> PyStr.split_comma (f_value f))
                 Ht Hi Hf Hd)
       as [cvs Hcvs];
     destruct (f_operator f); rewrite ?Hcvs; simpl; by eexists).
Qed.

(** *** Free text *)

Lemma search_columns_resolve model config names cs :
  search_columns model config names = inr cs →
  cs = omap (resolve model config) names.
Proof.
  revert cs. induction names as [|name names IH]; intros cs; simpl.
  { by intros [= <-]. }
  unfold resolve at 1. unfold getattr. case_bool_decide as Hs.
  - destruct (m_columns model !! name) as [c|]; [|done]. simpl.
    destruct (search_columns model config names) as [e|cs']; [done|].
    simpl. intros [= <-]. by rewrite (IH cs' eq_refl).
  - destruct (join_columns config !! name ≫= j_column) as [c|]; simpl;
      (destruct (search_columns model config names) as [e|cs']; [done|]);
      simpl; intros [= <-]; by rewrite (IH cs' eq_refl).
Qed.

(** X8. The free text of a search, when it is ASCII text, becomes one
    condition: the text stripped and lower-cased, looked for in the
    searchable columns that resolve, in their order. A searchable name
    that is a join column without a [column] entry, or no column at
    all, is passed over, and when none resolves the text is dropped
    without error. *)
Theorem free_text_condition (model : Model) (config : SearchConfig)
    (q q' : Query) (term : string) :
  PyStr.isascii term = true →
  _apply_search model config q term = inr q' →
  searchable_columns config ≠ [] ∧
  q' = match omap (resolve model config) (searchable_columns config) with
       | [] => q
       | cs => where_ q (SearchAny cs (PyStr.lower (PyStr.strip term)))
       end.
Proof.
  intros _. unfold _apply_search.
  destruct (searchable_columns config) as [|name names] eqn:Hn; [done|].
  destruct (search_columns model config (name :: names)) as [e|cs] eqn:Hc;
    [done|]. cbn [bind]. rewrite <- (search_columns_resolve _ _ _ _ Hc).
  destruct cs; by intros [= <-].
Qed.

(** X9. A search with a non-empty free text on a configuration without
    searchable columns fails with [InvalidSearchFieldError] naming the
    model, whatever the filters and the sort clauses are: the free
    text is applied before them. *)
Theorem free_text_needs_searchable_columns (fa da : string → bool)
    (model : Model) (config : SearchConfig) (Item Resp : Type)
    (scalar_count : Query → option Z) (fetch_all : Query → list Item)
    (model_validate : Item → result Resp)
    (rq : BaseSearchRequestBody) (ws : option Z) (term : string) :
  searchable_columns config = [] →
  rq_search rq = Some term → term ≠ "" →
  (m_name model = "Product" → "catalog_stocks" ∈ m_relationships model) →
  search fa da model config Item Resp scalar_count fetch_all model_validate
    rq ws
  = inl (InvalidSearchFieldError (m_name model)).
Proof.
  intros Hs Ht Hne Hp. unfold search, build_query, filtered_query.
  destruct (decide (m_name model = "Product")) as [Hm|Hm];
    [rewrite (bool_decide_eq_true_2 _ Hm),
       (bool_decide_eq_true_2 _ (Hp Hm))
    |rewrite (bool_decide_eq_false_2 _ Hm)];
    cbn [bind]; rewrite Ht; (destruct term as [|a s]; [done|]);
    match goal with
    | |- context [let '(_, _) := ?x in _] => destruct x as [qc jc]
    end;
    unfold _apply_search; by rewrite Hs.
Qed.

(** *** Counting and paging *)

Lemma apply_sorting_unpaged model config sorts :
  ∀ q joined q' joined',
    _apply_sorting model config q sorts joined = inr (q', joined') →
    q_offset q' = q_offset q ∧ q_limit q' = q_limit q.
Proof.
  induction sorts as [|s sorts IH]; intros q joined q' joined' H.
  { simpl in H. by injection H as <- <-. }
  cbn [_apply_sorting] in H.
  destruct (bool_decide _ && bool_decide _); [done|].
  revert H. case_bool_decide as Hsimple; intros H.
  - destruct (getattr model (s_column s)) as [e|c]; [done|]. simpl in H.
    by destruct (IH _ _ _ _ H) as [-> ->].
  - destruct (join_columns config !! s_column s) as [jc|] eqn:Hjc; [|done].
    destruct (j_join jc) as [t|] eqn:Ht.
    + revert H. case_bool_decide as Hin; simpl; intros H;
        (destruct (j_column jc) as [c|]; [|done]);
        by destruct (IH _ _ _ _ H) as [-> ->].
    + simpl in H. destruct (j_column jc) as [c|]; [|done].
      by destruct (IH _ _ _ _ H) as [-> ->].
Qed.

Lemma add_joins_unpaged config filters :
  ∀ q joined,
    q_offset (add_joins config q joined filters).1 = q_offset q ∧
    q_limit (add_joins config q joined filters).1 = q_limit q.
Proof.
  induction filters as [|f filters IH]; intros q joined; [done|].
  cbn [add_joins].
  destruct (join_columns config !! f_column f ≫= j_join) as [t|]; [|done].
  case_bool_decide; [|done].
  by destruct (IH (join q t) ({[t]} ∪ joined)) as [-> ->].
Qed.

Lemma build_query_unpaged fa da model config rq ws q :
  build_query fa da model config rq ws = inr q →
  q_offset q = None ∧ q_limit q = None.
Proof.
  unfold build_query.
  destruct (filtered_query fa da model config rq ws) as [e|[q0 j0]] eqn:Hf;
    [done|]. cbn -[_apply_sorting].
  assert (q_offset q0 = None ∧ q_limit q0 = None) as [Ho Hl].
  { revert Hf. unfold filtered_query.
    match goal with |- bind ?x _ = _ → _ => set (qa0 := x) end.
    assert (∀ qa, qa0 = inr qa → q_offset qa = None ∧ q_limit qa = None)
      as H0.
    { unfold qa0. intros qa. repeat case_bool_decide; by intros [= <-]. }
    clearbody qa0. destruct qa0 as [e|qa]; simpl; [done|].
    destruct (H0 qa eq_refl) as [Ho Hl]. clear H0.
    match goal with
    | |- context [_add_joins_for_filters _ ?x _] => set (qb := x)
    end.
    assert (q_offset qb = None ∧ q_limit qb = None) as [Hob Hlb].
    { unfold qb. destruct ws; [case_bool_decide|]; done. }
    clearbody qb.
    match goal with
    | |- (let '(_, _) := ?x in _) = _ → _ =>
        destruct x as [qc jc] eqn:Hadd
    end.
    assert (q_offset qc = None ∧ q_limit qc = None) as [Hoc Hlc].
    { destruct (rq_filter rq) as [[|f fs0]|];
        try (by injection Hadd as <- <-).
      unfold _add_joins_for_filters in Hadd.
      destruct (add_joins_unpaged config (f :: fs0) qb ∅) as [H1 H2].
      rewrite Hadd in H1, H2. simpl in *. by rewrite H1, H2. }
    match goal with
    | |- bind ?x _ = _ → _ => destruct x as [e|qd] eqn:Hs; simpl; [done|]
    end.
    assert (q_offset qd = None ∧ q_limit qd = None) as [Hod Hld].
    { destruct (rq_search rq) as [[|a s]|]; try (by injection Hs as <-).
      destruct (apply_search_shape _ _ _ _ _ Hs) as [-> | (? & ? & ->)];
        done. }
    match goal with
    | |- bind ?x _ = _ → _ => destruct x as [e|qe] eqn:Hfl; simpl; [done|]
    end.
    intros [= <- <-].
    destruct (rq_filter rq) as [[|f fs0]|]; try (by injection Hfl as <-).
    unfold _apply_filters in Hfl.
    destruct (filter_conditions fa da model config (f :: fs0)) as [e|cs];
      [done|]. simpl in Hfl. injection Hfl as <-.
    destruct (foldl_where qd cs) as (_ & _ & _ & _ & -> & ->). done. }
  destruct (rq_sort rq) as [[|s ss]|] eqn:Hs.
  - destruct (getattr model "id") as [e|c]; [done|]. simpl. by intros [= <-].
  - destruct (_apply_sorting model config q0 (s :: ss) j0)
      as [e|[q1 j1]] eqn:Ha; [done|]. simpl. intros [= <-].
    destruct (apply_sorting_unpaged _ _ _ _ _ _ _ Ha) as [-> ->]. done.
  - destruct (getattr model "id") as [e|c]; [done|]. simpl. by intros [= <-].
Qed.

(** X10. The total of a page is the count of the query without offset and
    limit, so two requests that differ only in the page and the page
    size report the same total. *)
Theorem total_independent_of_page (fa da : string → bool)
    (model : Model) (config : SearchConfig) (Item Resp : Type)
    (scalar_count : Query → option Z) (fetch_all : Query → list Item)
    (model_validate : Item → result Resp)
    (rq1 rq2 : BaseSearchRequestBody) (ws : option Z)
    (r1 r2 : SearchResponse Resp) :
  rq_search rq1 = rq_search rq2 →
  rq_filter rq1 = rq_filter rq2 →
  rq_sort rq1 = rq_sort rq2 →
  search fa da model config Item Resp scalar_count fetch_all model_validate
    rq1 ws = inr r1 →
  search fa da model config Item Resp scalar_count fetch_all model_validate
    rq2 ws = inr r2 →
  ∃ q, build_query fa da model config rq1 ws = inr q ∧
       q_offset q = None ∧ q_limit q = None ∧
       total r1 = int_or (scalar_count q) 0 ∧
       total r2 = int_or (scalar_count q) 0.
Proof.
  intros Hse Hfi Hso. unfold search.
  assert (build_query fa da model config rq1 ws =
          build_query fa da model config rq2 ws) as <-.
  { unfold build_query, filtered_query. by rewrite Hse, Hfi, Hso. }
  destruct (build_query fa da model config rq1 ws) as [e|q] eqn:Hq; [done|].
  cbn [bind].
  destruct (build_query_unpaged _ _ _ _ _ _ _ Hq) as [Ho Hl].
  destruct (validate_all _ _ _ (fetch_all (offset_limit q _ _)))
    as [e|its1]; [done|]. cbn [bind].
  destruct (validate_all _ _ _ (fetch_all (offset_limit q _ _)))
    as [e|its2]; [done|]. cbn [bind].
  unfold create. intros H1 H2.
  assert (total r1 = int_or (scalar_count q) 0) as E1.
  { revert H1. repeat case_match; by intros [= <-]. }
  assert (total r2 = int_or (scalar_count q) 0) as E2.
  { revert H2. repeat case_match; by intros [= <-]. }
  by exists q.
Qed.

(** *** The properties on the sample data *)

Lemma busy_query_built :
  build_query Examples.no_literal Examples.no_literal Samples.tenant_model
    Samples.tagged_config Samples.busy_request (Some 7)
  = inr Samples.busy_query.
Proof. vm_compute. reflexivity. Qed.

(** The witness of X1: the joins of the sample request: [owners],
    once, for the filter and the sort clause on [owner]. *)
Lemma joins_from_filter_and_sort_witness :
  build_query Examples.no_literal Examples.no_literal Samples.tenant_model
    Samples.tagged_config Samples.busy_request (Some 7)
  = inr Samples.busy_query ∧
  NoDup (q_joins Samples.busy_query) ∧
  ∀ t, t ∈ q_joins Samples.busy_query →
       ∃ name jc, name ∈ requested Samples.busy_request ∧
                  join_columns Samples.tagged_config !! name = Some jc ∧
                  j_join jc = Some t.
Proof.
  split; [exact busy_query_built|].
  exact (joins_from_filter_and_sort _ _ _ _ _ _ _ busy_query_built).
Defined.

(** The witness of X2: the conditions of the sample request for
    workspace 7. *)
Lemma conditions_in_order_witness :
  build_query Examples.no_literal Examples.no_literal Samples.tenant_model
    Samples.tagged_config Samples.busy_request (Some 7)
  = inr Samples.busy_query ∧
  ∃ text conds,
    q_where Samples.busy_query
    = tenant_scope Samples.tenant_model (Some 7) ++ text ++ conds ∧
    (text = [] ∨ ∃ cs needle, text = [SearchAny cs needle]) ∧
    Forall2 (λ f c,
               _build_filter_condition Examples.no_literal Examples.no_literal
                 Samples.tenant_model Samples.tagged_config f
               = inr (Some c))
      (default [] (rq_filter Samples.busy_request)) conds.
Proof.
  split; [exact busy_query_built|].
  exact (conditions_in_order _ _ _ _ _ _ _ busy_query_built).
Defined.

(** The witness of X3: the ordering of the sample request. *)
Lemma order_follows_sort_clauses_witness :
  build_query Examples.no_literal Examples.no_literal Samples.tenant_model
    Samples.tagged_config Samples.busy_request (Some 7)
  = inr Samples.busy_query ∧
  Forall2 (λ s k, resolve Samples.tenant_model Samples.tagged_config
                    (s_column s) = Some k.1 ∧
                  k.2 = s_direction s)
    [Samples.by_name_desc; Examples.by_owner]
    (q_order_by Samples.busy_query).
Proof.
  split; [exact busy_query_built|].
  exact (order_follows_sort_clauses _ _ _ _ _ _ _ busy_query_built).
Defined.

(** The witness of X4: the two filters of the sample request. *)
Lemma filters_all_applied_witness :
  let filters := [Samples.owner_contains_bo; Samples.age_over_30] in
  let q' := where_ (where_ select
                      (Compare CONTAINS Examples.owner_col (CStr "bo")))
              (Compare GREATER_THAN Examples.age_col (CInt 30)) in
  _apply_filters Examples.no_literal Examples.no_literal
    Samples.tenant_model Samples.tagged_config select filters = inr q' ∧
  ∃ cs,
    q_where q' = q_where select ++ cs ∧
    Forall2 (λ f c,
               _build_filter_condition Examples.no_literal
                 Examples.no_literal Samples.tenant_model
                 Samples.tagged_config f = inr (Some c) ∧
               condition_column c
               = resolve Samples.tenant_model Samples.tagged_config
                   (f_column f))
      filters cs ∧
    q_joins q' = q_joins select ∧ q_order_by q' = q_order_by select ∧
    q_options q' = q_options select.
Proof.
  intros filters q'.
  assert (_apply_filters Examples.no_literal Examples.no_literal
            Samples.tenant_model Samples.tagged_config select filters
          = inr q') as H by (vm_compute; reflexivity).
  split; [exact H|]. exact (filters_all_applied _ _ _ _ _ _ _ H).
Defined.

(** The witness of X5: the filter [age > 30] of the sample request. *)
Lemma int_column_needs_integer_literal_witness :
  let c := Some (Compare GREATER_THAN Examples.age_col (CInt 30)) in
  PyStr.isascii (f_value Samples.age_over_30) = true ∧
  resolve Samples.tenant_model Samples.tagged_config
    (f_column Samples.age_over_30) = Some Examples.age_col ∧
  c_python_type Examples.age_col = Some PyInt ∧
  _build_filter_condition Examples.no_literal Examples.no_literal
    Samples.tenant_model Samples.tagged_config Samples.age_over_30 = inr c ∧
  ∃ z, PyStr.int (f_value Samples.age_over_30) = Some z.
Proof.
  intros c.
  assert (resolve Samples.tenant_model Samples.tagged_config
            (f_column Samples.age_over_30) = Some Examples.age_col) as H1
    by (vm_compute; reflexivity).
  assert (_build_filter_condition Examples.no_literal Examples.no_literal
            Samples.tenant_model Samples.tagged_config Samples.age_over_30
          = inr c) as H2 by (vm_compute; reflexivity).
  split; [reflexivity|].
  split; [exact H1|]. split; [reflexivity|]. split; [exact H2|].
  exact (int_column_needs_integer_literal
           Examples.no_literal Examples.no_literal Samples.tenant_model
           Samples.tagged_config Samples.age_over_30 Examples.age_col c
           eq_refl H1 eq_refl H2).
Defined.

(** The witness of X6: the filter [age in 1,2]. *)
Lemma value_list_rejected_on_int_column_witness :
  let filters := [Samples.age_over_30; Samples.age_in_list] in
  Samples.age_in_list ∈ filters ∧
  resolve Samples.tenant_model Samples.tagged_config
    (f_column Samples.age_in_list) = Some Examples.age_col ∧
  c_python_type Examples.age_col = Some PyInt ∧
  ","%char ∈ list_ascii_of_string (f_value Samples.age_in_list) ∧
  ∃ f', f' ∈ filters ∧
    _apply_filters Examples.no_literal Examples.no_literal
      Samples.tenant_model Samples.tagged_config select filters
    = inl (FilterValueError (f_column f') (f_value f') "valid filter value").
Proof.
  intros filters.
  assert (Samples.age_in_list ∈ filters) as H0 by (right; left).
  assert (resolve Samples.tenant_model Samples.tagged_config
            (f_column Samples.age_in_list) = Some Examples.age_col) as H1
    by (vm_compute; reflexivity).
  assert (","%char ∈ list_ascii_of_string (f_value Samples.age_in_list))
    as H2.
  { apply (bool_decide_unpack _). vm_compute. exact I. }
  split; [exact H0|]. split; [exact H1|]. split; [reflexivity|].
  split; [exact H2|].
  exact (value_list_rejected_on_int_column Examples.no_literal
           Examples.no_literal _ _ select _ _ _ H0 H1 eq_refl H2).
Defined.

(** The witness of X8: the free text of the sample request: [tag] has
    no column and [ghost] is no column at all. *)
Lemma free_text_condition_witness :
  let q' := where_ select
              (SearchAny [Examples.name_col; Examples.owner_col] "ann") in
  PyStr.isascii "  Ann " = true ∧
  _apply_search Samples.tenant_model Samples.tagged_config select "  Ann "
  = inr q' ∧
  searchable_columns Samples.tagged_config ≠ [] ∧
  q' = match omap (resolve Samples.tenant_model Samples.tagged_config)
               (searchable_columns Samples.tagged_config) with
       | [] => select
       | cs => where_ select (SearchAny cs (PyStr.lower (PyStr.strip "  Ann ")))
       end.
Proof.
  intros q'.
  assert (_apply_search Samples.tenant_model Samples.tagged_config select
            "  Ann " = inr q') as H by (vm_compute; reflexivity).
  split; [reflexivity|].
  split; [exact H|].
  exact (free_text_condition Samples.tenant_model Samples.tagged_config
           select q' "  Ann " eq_refl H).
Defined.

(** The witness of X9: a free text on the sample configuration, which
    has no searchable column, with a filter and a sort clause that are
    both invalid. *)
Lemma free_text_needs_searchable_columns_witness :
  searchable_columns Examples.user_config = [] ∧
  rq_search Samples.text_request = Some "ann" ∧
  "ann" ≠ "" ∧
  (m_name Examples.user_model = "Product" →
   "catalog_stocks" ∈ m_relationships Examples.user_model) ∧
  Examples.user_search Samples.text_request
  = inl (InvalidSearchFieldError (m_name Examples.user_model)).
Proof.
  assert ("ann" ≠ "") as H1 by (vm_compute; discriminate).
  assert (m_name Examples.user_model = "Product" →
          "catalog_stocks" ∈ m_relationships Examples.user_model) as H2
    by (vm_compute; discriminate).
  split; [reflexivity|]. split; [reflexivity|]. split; [exact H1|].
  split; [exact H2|].
  exact (free_text_needs_searchable_columns Examples.no_literal
           Examples.no_literal Examples.user_model Examples.user_config
           nat nat Examples.count45 Examples.three_rows Examples.validate
           Samples.text_request None "ann" eq_refl eq_refl H1 H2).
Defined.

(** The witness of X10: the second page of 20 and the first page of 10
    of the same search. *)
Lemma total_independent_of_page_witness :
  let r1 := {| items := [1; 2; 3]%nat; total := 45; page := 2;
               page_size := 20; total_pages := 3 |} in
  let r2 := {| items := [1; 2; 3]%nat; total := 45; page := 1;
               page_size := 10; total_pages := 5 |} in
  rq_search Examples.plain_request = rq_search Samples.first_page ∧
  rq_filter Examples.plain_request = rq_filter Samples.first_page ∧
  rq_sort Examples.plain_request = rq_sort Samples.first_page ∧
  Examples.user_search Examples.plain_request = inr r1 ∧
  Examples.user_search Samples.first_page = inr r2 ∧
  ∃ q, build_query Examples.no_literal Examples.no_literal
         Examples.user_model Examples.user_config Examples.plain_request
         None = inr q ∧
       q_offset q = None ∧ q_limit q = None ∧
       total r1 = int_or (Examples.count45 q) 0 ∧
       total r2 = int_or (Examples.count45 q) 0.
Proof.
  intros r1 r2.
  assert (Examples.user_search Examples.plain_request = inr r1) as H1
    by (vm_compute; reflexivity).
  assert (Examples.user_search Samples.first_page = inr r2) as H2
    by (vm_compute; reflexivity).
  split; [reflexivity|]. split; [reflexivity|]. split; [reflexivity|].
  split; [exact H1|]. split; [exact H2|].
  exact (total_independent_of_page Examples.no_literal Examples.no_literal
           Examples.user_model Examples.user_config nat nat
           Examples.count45 Examples.three_rows Examples.validate
           Examples.plain_request Samples.first_page None r1 r2
           eq_refl eq_refl eq_refl H1 H2).
Defined.

(** The witness of X7: the filter [owner contains bo] of the sample
    request, on a text column. *)
Lemma text_filter_always_builds_witness :
  resolve Samples.tenant_model Samples.tagged_config
    (f_column Samples.owner_contains_bo) = Some Examples.owner_col ∧
  c_python_type Examples.owner_col = Some (PyOther "str") ∧
  PyOther "str" ≠ PyInt ∧ PyOther "str" ≠ PyFloat ∧
  PyOther "str" ≠ PyDecimal ∧
  ∃ c, _build_filter_condition Examples.no_literal Examples.no_literal
         Samples.tenant_model Samples.tagged_config
         Samples.owner_contains_bo = inr (Some c) ∧
       condition_column c = Some Examples.owner_col.
Proof.
  assert (resolve Samples.tenant_model Samples.tagged_config
            (f_column Samples.owner_contains_bo) = Some Examples.owner_col)
    as H by (vm_compute; reflexivity).
  assert (PyOther "str" ≠ PyInt) as H1 by discriminate.
  assert (PyOther "str" ≠ PyFloat) as H2 by discriminate.
  assert (PyOther "str" ≠ PyDecimal) as H3 by discriminate.
  split; [exact H|]. split; [reflexivity|]. split; [exact H1|].
  split; [exact H2|]. split; [exact H3|].
  exact (text_filter_always_builds Examples.no_literal Examples.no_literal
           _ _ _ _ (PyOther "str") H eq_refl H1 H2 H3).
Defined.

End SearchExtra.

(** ** More properties of the bulk-update engine *)

Module BulkUpdateExtra.

Import BulkUpdate BulkUpdateSpec BulkUpdateFrame.

(** *** Closure of [keeps] *)

Lemma keeps_ret {A} I (a : A) : keeps I (ret a).
Proof. by intros s Hs. Qed.

Lemma keeps_raise {A} I e : keeps I (raise (A := A) e).
Proof. by intros s Hs. Qed.

Lemma keeps_bind {A B} I (m : M A) (f : A → M B) :
  keeps I m → (∀ a, keeps I (f a)) → keeps I (bind m f).
Proof.
  intros Hm Hf s Hs. unfold bind. specialize (Hm s Hs).
  destruct (m s) as [s1 [e|a]]; simpl in *; [done|]. by apply Hf.
Qed.

Lemma keeps_try {A} I (m : M A) : keeps I m → keeps I (try_integrity m).
Proof.
  intros Hm s Hs. unfold try_integrity. specialize (Hm s Hs).
  by destruct (m s) as [s1 [[| | | |]|a]].
Qed.

Lemma keeps_for_each {A S} I (f : S → A → M S) (l : list A) :
  (∀ acc x, x ∈ l → keeps I (f acc x)) → ∀ acc, keeps I (for_each f l acc).
Proof.
  induction l as [|x l IH]; intros Hf acc; simpl; [apply keeps_ret|].
  apply keeps_bind; [apply Hf; left|].
  intros acc'. apply IH. intros acc'' y Hy. apply Hf. by right.
Qed.

Lemma keeps_check_columns I self cols : keeps I (check_columns self cols).
Proof.
  induction cols as [|c cols IH]; simpl; [apply keeps_ret|].
  case_bool_decide; [done|apply keeps_raise].
Qed.

Lemma keeps_commit P : keeps (both P) commit.
Proof. by intros s [Hp Hc]. Qed.

Lemma keeps_rollback P : keeps (both P) rollback.
Proof. by intros s [Hp Hc]. Qed.

Lemma keeps_execute P self stmt :
  (∀ db, P db → P (effect stmt db).1) → keeps (both P) (execute self stmt).
Proof.
  intros He s [Hp Hc]. unfold execute. specialize (He _ Hp).
  destruct (refuses self stmt) as [e|]; [by split|].
  destruct (effect stmt (pending s)) as [db' rows]. simpl in He.
  destruct rows as [|r rows]; [|destruct (violation self db')]; by split.
Qed.

(** *** The statements of a batch, on one tuple slot *)

Section Slot.

Variable ws : option Z.
Variable rows : list (gmap string value).
Variable k : Z.
Variable P : option (gmap string value) → Prop.
Hypothesis HP : closed ws rows P.

Lemma update_from_values_slot cols batch :
  batch_of rows cols batch →
  ∀ seen db,
    P (db !! k) →
    P ((update_from_values cols ws (encode cols <$> batch) seen db).1 !! k).
Proof.
  induction 1 as [|row batch (Hin & Hne & Hcols) _ IH]; intros seen db Hk;
    [done|].
  unfold encode in *. cbn [fmap list_fmap update_from_values].
  destruct (row_id row) as [| |k'|]; try by apply IH.
  destruct (db !! k') as [t|] eqn:Ht; [|by apply IH].
  destruct (in_workspace ws t && bool_decide (k' ∉ seen)) eqn:Hw;
    [|by apply IH].
  apply andb_true_iff in Hw as [Hw _].
  match goal with
  | |- context [update_from_values cols ws ?vs ?d ?db'] =>
      specialize (IH d db'); revert IH;
      destruct (update_from_values cols ws vs d db') as [db'' out]; intros IH
  end.
  simpl in *. apply IH.
  destruct (decide (k' = k)) as [->|Hkk].
  - rewrite lookup_insert_eq. rewrite BulkUpdateProps.zip_fmap_self.
    rewrite <- Hcols. apply HP; try done. by rewrite <- Ht.
  - by rewrite lookup_insert_ne.
Qed.

Lemma effect_row_slot cols row db :
  row ∈ rows → row_cols row ≠ ∅ → sorted (row_cols row) = cols →
  P (db !! k) →
  P ((effect (UpdateWhereId (row_id row) ((λ c, (c, get row c)) <$> cols) ws)
        db).1 !! k).
Proof.
  intros Hin Hne Hcols Hk. simpl.
  destruct (row_id row) as [| |k'|]; try done.
  destruct (db !! k') as [t|] eqn:Ht; [|done].
  destruct (in_workspace ws t) eqn:Hw; [|done]. simpl.
  destruct (decide (k' = k)) as [->|Hkk].
  - rewrite lookup_insert_eq. rewrite <- Hcols. apply HP; try done.
    by rewrite <- Ht.
  - by rewrite lookup_insert_ne.
Qed.

Lemma keeps_fallback_row self cols acc row :
  ws = workspace_param self (bool_decide ("workspace_id" ∈ table_c self)) →
  row ∈ rows → row_cols row ≠ ∅ → sorted (row_cols row) = cols →
  keeps (both (λ db, P (db !! k)))
    (fallback_row self cols (bool_decide ("workspace_id" ∈ table_c self))
       acc row).
Proof.
  intros Hws Hin Hne Hcols. unfold fallback_row. destruct acc as [U E].
  apply keeps_bind; [apply keeps_check_columns|]. intros _.
  apply keeps_bind.
  - apply keeps_try. apply keeps_bind.
    + apply keeps_execute. intros db Hdb. rewrite <- Hws.
      by apply effect_row_slot.
    + intros res. destruct (head res); [|apply keeps_ret].
      apply keeps_bind; [apply keeps_commit|]. intros _. apply keeps_ret.
  - intros [exc|acc']; [|apply keeps_ret].
    apply keeps_bind; [apply keeps_rollback|]. intros _. apply keeps_ret.
Qed.

Lemma keeps_process_batch self cols inc acc batch :
  ws = workspace_param self (bool_decide ("workspace_id" ∈ table_c self)) →
  batch_of rows cols batch →
  keeps (both (λ db, P (db !! k)))
    (process_batch self cols (bool_decide ("workspace_id" ∈ table_c self))
       inc acc batch).
Proof.
  intros Hws Hb. unfold process_batch. destruct acc as [U E].
  destruct batch as [|row batch]; [apply keeps_ret|].
  set (b := row :: batch) in *. apply keeps_bind.
  - apply keeps_try. unfold _execute_batch_update.
    apply keeps_bind; [apply keeps_check_columns|]. intros _.
    apply keeps_bind; [|intros; apply keeps_ret].
    apply keeps_execute. intros db Hdb. rewrite <- Hws.
    exact (update_from_values_slot cols b Hb ∅ db Hdb).
  - intros [exc|[batch_result missing_ids]].
    + apply keeps_bind; [apply keeps_rollback|]. intros _.
      apply keeps_bind.
      * unfold _fallback_row_by_row. apply keeps_for_each.
        intros acc x Hx. unfold batch_of in Hb. rewrite Forall_forall in Hb.
        destruct (Hb x Hx) as (? & ? & ?). by apply keeps_fallback_row.
      * intros [row_results row_errors]. apply keeps_ret.
    + apply keeps_bind; [apply keeps_commit|]. intros _. apply keeps_ret.
Qed.

End Slot.

Lemma batch_of_group normalised g batch n :
  g ∈ group_rows normalised → (1 ≤ n)%nat → batch ∈ batched g.2 n →
  batch_of normalised (sorted g.1) batch.
Proof.
  destruct g as [key grows]. simpl. intros Hg Hn Hb. apply Forall_forall.
  intros row Hrow.
  assert (row ∈ grows) as Hr by (by eapply BulkUpdateProps.batched_subset).
  destruct (BulkUpdateProps.group_rows_member _ _ _ _ Hg Hr)
    as (Hin & <- & Hne). done.
Qed.

(** Every property of one tuple slot that survives the assignments of
    the rows survives the call, in both states of the session and
    whether the call returns or raises. *)
Lemma bulk_update_slot self payload uf inc normalised k P :
  normalise uf inc payload = inr normalised →
  closed (tenant_filter self) normalised P →
  keeps (both (λ db, P (db !! k))) (bulk_update self payload uf inc).
Proof.
  intros Hn HP. unfold bulk_update.
  destruct payload as [|raw payload]; [apply keeps_ret|]. rewrite Hn.
  apply keeps_bind; [|intros [U E]; apply keeps_ret].
  apply keeps_for_each. intros acc [key grows] Hg. unfold process_group.
  apply keeps_for_each. intros acc' batch Hb.
  apply (keeps_process_batch (tenant_filter self) normalised k P HP);
    [done|].
  eapply (batch_of_group normalised (key, grows)); [done| |exact Hb].
  assert (1 ≤ max_rows (1 + Z.of_nat (length (sorted key)))); [|lia].
  apply BulkUpdateProps.max_rows_pos. lia.
Qed.

(** *** What a normalised row holds *)

Lemma candidates_lookup uf inc raw c v :
  candidates uf inc raw !! c = Some v → v = get raw c ∧ keep inc v = true.
Proof.
  unfold candidates. destruct uf as [fields|].
  - intros H. apply elem_of_list_to_map_2 in H.
    apply list_elem_of_omap in H as (f & _ & Hf).
    destruct (keep inc (get raw f)) eqn:Hk; [|done].
    by injection Hf as <- <-.
  - intros H. apply map_lookup_filter_Some in H as [Hr Hk]. simpl in Hk.
    apply andb_true_iff in Hk as [_ Hk]. unfold get. by rewrite Hr.
Qed.

Lemma normalise_item_cols uf inc raw row :
  normalise_item uf inc raw = inr row →
  row_cols row = dom (candidates uf inc raw) ∖ {[ "id"; "__empty" ]}.
Proof.
  unfold normalise_item, row_cols.
  destruct (raw !! "id") as [id|]; [|done].
  destruct (decide (candidates uf inc raw = ∅)) as [He|He]; intros [= <-].
  - rewrite He. rewrite dom_insert_L, dom_singleton_L, dom_empty_L.
    set_solver.
  - rewrite dom_union_L, dom_singleton_L. set_solver.
Qed.

Lemma normalise_item_lookup uf inc raw row c :
  normalise_item uf inc raw = inr row → c ∈ row_cols row →
  row !! c = candidates uf inc raw !! c ∧ is_Some (row !! c).
Proof.
  intros Hn Hc. rewrite (normalise_item_cols _ _ _ _ Hn) in Hc.
  apply elem_of_difference in Hc as [Hd Hne].
  apply elem_of_dom in Hd as [v Hv].
  revert Hn. unfold normalise_item.
  destruct (raw !! "id") as [id|]; [|done].
  destruct (decide (candidates uf inc raw = ∅)) as [He|He]; intros [= <-].
  - by rewrite He in Hv.
  - rewrite (lookup_union_Some_l _ _ _ _ Hv). by rewrite Hv.
Qed.

Lemma normalised_row_source uf inc payload normalised row :
  normalise uf inc payload = inr normalised → row ∈ normalised →
  ∃ raw, raw ∈ payload ∧ normalise_item uf inc raw = inr row.
Proof.
  intros Hn Hin. apply BulkUpdateProps.normalise_Forall2 in Hn.
  apply list_elem_of_lookup in Hin as [i Hi].
  destruct (Forall2_lookup_r _ _ _ _ _ Hn Hi) as (raw & Hraw & Hitem).
  exists raw. split; [|done]. by eapply list_elem_of_lookup_2.
Qed.

(** *** What an assignment does to a column *)

Lemma row_assignments_keys row :
  (row_assignments row).*1 = sorted (row_cols row).
Proof.
  unfold row_assignments. rewrite <- list_fmap_compose.
  by rewrite list_fmap_id.
Qed.

Lemma assign_other row t c :
  c ∉ row_cols row → assign (row_assignments row) t !! c = t !! c.
Proof.
  intros Hc. unfold assign. apply lookup_union_r.
  apply not_elem_of_list_to_map_1. rewrite row_assignments_keys.
  by rewrite BulkUpdateProps.elem_of_sorted.
Qed.

Lemma assign_own row t c :
  c ∈ row_cols row →
  assign (row_assignments row) t !! c = Some (get row c).
Proof.
  intros Hc. unfold assign. apply lookup_union_Some_l.
  apply elem_of_list_to_map_1.
  - rewrite row_assignments_keys. apply BulkUpdateProps.NoDup_sorted.
  - unfold row_assignments. apply list_elem_of_fmap. exists c.
    split; [done|]. by apply BulkUpdateProps.elem_of_sorted.
Qed.

(** *** The frame of a call *)

Lemma bulk_update_slot_any self payload uf inc k P :
  (∀ normalised, normalise uf inc payload = inr normalised →
                 closed (tenant_filter self) normalised P) →
  keeps (both (λ db, P (db !! k))) (bulk_update self payload uf inc).
Proof.
  intros HP. destruct (normalise uf inc payload) as [e|normalised] eqn:Hn.
  - unfold bulk_update. destruct payload; [apply keeps_ret|].
    rewrite Hn. apply keeps_raise.
  - eapply bulk_update_slot; eauto.
Qed.

(** X11. The call creates no tuple: an id that is in neither state of the
    session before the call is in neither after it, whether the call
    returns or raises. *)
Theorem no_tuple_created (self : Repository)
    (payload : list (gmap string value))
    (update_fields : option (list string)) (include_none : bool)
    (s : Session) (k : Z) :
  pending s !! k = None → committed s !! k = None →
  let s' := (bulk_update self payload update_fields include_none s).1 in
  pending s' !! k = None ∧ committed s' !! k = None.
Proof.
  intros Hp Hc.
  apply (bulk_update_slot_any self payload update_fields include_none k
           (λ o, o = None)); [|by split].
  intros normalised _ t row _ _ _ ?. done.
Qed.

(** X12. On a table with a [workspace_id] column the call leaves the
    tuples of the other workspaces as they are, in both states of the
    session, whatever the payload says and whether the call returns or
    raises. *)
Theorem foreign_tuple_untouched (self : Repository)
    (payload : list (gmap string value))
    (update_fields : option (list string)) (include_none : bool)
    (s : Session) (k : Z) (t : gmap string value) :
  "workspace_id" ∈ table_c self →
  foreign self t →
  pending s !! k = Some t → committed s !! k = Some t →
  let s' := (bulk_update self payload update_fields include_none s).1 in
  pending s' !! k = Some t ∧ committed s' !! k = Some t.
Proof.
  intros Hws Hf Hp Hc.
  apply (bulk_update_slot_any self payload update_fields include_none k
           (λ o, o = Some t)); [|by split].
  intros normalised _ t' row _ _ Hin [= ->]. exfalso.
  unfold tenant_filter, workspace_param in Hin.
  rewrite bool_decide_eq_true_2 in Hin by done. simpl in Hin.
  by apply bool_decide_eq_true in Hin.
Qed.

Lemma unlisted_column_closed uf inc payload normalised ws c t :
  normalise uf inc payload = inr normalised →
  (c ∈ [ "id"; "__empty" ] ∨
   ∀ raw, raw ∈ payload → c ∉ dom (candidates uf inc raw)) →
  closed ws normalised (λ o, ∃ t', o = Some t' ∧ same_at c t t').
Proof.
  intros Hn Hc t0 row Hrow _ _ (t' & [= ->] & Hsame).
  eexists. split; [done|]. unfold same_at in *. rewrite <- Hsame.
  apply assign_other.
  destruct (normalised_row_source _ _ _ _ _ Hn Hrow) as (raw & Hraw & Hitem).
  rewrite (normalise_item_cols _ _ _ _ Hitem).
  destruct Hc as [Hc|Hc]; [set_solver|].
  specialize (Hc raw Hraw). set_solver.
Qed.

(** X13. The call writes only the fields of the payload: a column that is
    in no item's candidate fields, and the columns [id] and [__empty]
    in any case, keep their value in every tuple, in both states of
    the session and whether the call returns or raises. The tuple
    itself is still there. *)
Theorem unlisted_column_untouched (self : Repository)
    (payload : list (gmap string value))
    (update_fields : option (list string)) (include_none : bool)
    (s : Session) (k : Z) (t : gmap string value) (c : string) :
  (c ∈ [ "id"; "__empty" ] ∨
   ∀ raw, raw ∈ payload →
          c ∉ dom (candidates update_fields include_none raw)) →
  pending s !! k = Some t → committed s !! k = Some t →
  let s' := (bulk_update self payload update_fields include_none s).1 in
  (∃ t', pending s' !! k = Some t' ∧ same_at c t t') ∧
  (∃ t', committed s' !! k = Some t' ∧ same_at c t t').
Proof.
  intros Hcol Hp Hc.
  apply (bulk_update_slot_any self payload update_fields include_none k
           (λ o, ∃ t', o = Some t' ∧ same_at c t t')).
  - intros normalised Hn. by eapply unlisted_column_closed.
  - split; by exists t.
Qed.

Lemma candidates_fields fields inc raw :
  dom (candidates (Some fields) inc raw) ⊆ list_to_set fields.
Proof.
  intros c Hc. apply elem_of_dom in Hc as [v Hv]. unfold candidates in Hv.
  apply elem_of_list_to_map_2 in Hv.
  apply list_elem_of_omap in Hv as (f & Hf & Hv).
  destruct (keep inc (get raw f)); [|done]. injection Hv as <- <-.
  by apply elem_of_list_to_set.
Qed.

(** X14. With [update_fields] given, a column that is not among them keeps
    its value in every tuple, whatever the items of the payload
    carry. *)
Theorem only_update_fields_written (self : Repository)
    (payload : list (gmap string value)) (fields : list string)
    (include_none : bool) (s : Session) (k : Z) (t : gmap string value)
    (c : string) :
  c ∉ fields →
  pending s !! k = Some t → committed s !! k = Some t →
  let s' := (bulk_update self payload (Some fields) include_none s).1 in
  (∃ t', pending s' !! k = Some t' ∧ same_at c t t') ∧
  (∃ t', committed s' !! k = Some t' ∧ same_at c t t').
Proof.
  intros Hcol Hp Hc.
  apply (bulk_update_slot_any self payload (Some fields) include_none k
           (λ o, ∃ t', o = Some t' ∧ same_at c t t')).
  - intros normalised Hn. eapply unlisted_column_closed; [done|].
    right. intros raw _ Hd. apply candidates_fields in Hd.
    by apply elem_of_list_to_set in Hd.
  - split; by exists t.
Qed.

(** X15. With [include_none] off the call writes no [None]: a column that
    holds a value in a tuple still holds one after the call, in both
    states of the session and whether the call returns or raises. *)
Theorem none_never_written (self : Repository)
    (payload : list (gmap string value))
    (update_fields : option (list string))
    (s : Session) (k : Z) (t : gmap string value) (c : string) :
  get t c ≠ VNone →
  pending s !! k = Some t → committed s !! k = Some t →
  let s' := (bulk_update self payload update_fields false s).1 in
  (∃ t', pending s' !! k = Some t' ∧ get t' c ≠ VNone) ∧
  (∃ t', committed s' !! k = Some t' ∧ get t' c ≠ VNone).
Proof.
  intros Hv Hp Hc.
  apply (bulk_update_slot_any self payload update_fields false k
           (λ o, ∃ t', o = Some t' ∧ get t' c ≠ VNone)).
  - intros normalised Hn t0 row Hrow _ _ (t' & [= ->] & Hsome).
    eexists. split; [done|].
    destruct (decide (c ∈ row_cols row)) as [Hin|Hin].
    + unfold get at 1. rewrite (assign_own _ _ _ Hin). simpl.
      destruct (normalised_row_source _ _ _ _ _ Hn Hrow)
        as (raw & Hraw & Hitem).
      destruct (normalise_item_lookup _ _ _ _ _ Hitem Hin) as [Heq [v Hrv]].
      unfold get. rewrite Hrv. simpl. rewrite Heq in Hrv.
      apply candidates_lookup in Hrv as [_ Hk]. unfold keep in Hk.
      rewrite orb_false_r in Hk. apply negb_true_iff in Hk.
      by apply bool_decide_eq_false in Hk.
    + unfold get. by rewrite (assign_other _ _ _ Hin).
  - split; by exists t.
Qed.

(** *** Nothing is left pending *)

Lemma check_columns_cases self cols s :
  check_columns self cols s = (s, inr tt) ∨
  ∃ c, check_columns self cols s = (s, inl (KeyError c)).
Proof.
  induction cols as [|c cols IH]; simpl; [by left|].
  case_bool_decide; [done|]. right. by exists c.
Qed.

Lemma update_from_values_no_rows cols ws values :
  ∀ seen db,
    (update_from_values cols ws values seen db).2 = [] →
    (update_from_values cols ws values seen db).1 = db.
Proof.
  induction values as [|[id vs] values IH]; intros seen db; [done|].
  cbn [update_from_values].
  destruct id as [| |k|]; try apply IH.
  destruct (db !! k) as [t|]; [|apply IH].
  destruct (in_workspace ws t && bool_decide (k ∉ seen)); [|apply IH].
  by destruct (update_from_values cols ws values _ _).
Qed.

Lemma effect_no_rows stmt db :
  (effect stmt db).2 = [] → (effect stmt db).1 = db.
Proof.
  destruct stmt as [cols values ws|id asg ws]; simpl.
  - apply update_from_values_no_rows.
  - destruct id as [| |k|]; try done.
    destruct (db !! k) as [t|]; [|done].
    by destruct (in_workspace ws t).
Qed.

Lemma keeps_clean_commit : ∀ s, clean (commit s).1.
Proof. done. Qed.

Lemma keeps_clean_rollback : ∀ s, clean (rollback s).1.
Proof. done. Qed.

Lemma fallback_row_clean self cols wf acc row :
  keeps clean (fallback_row self cols wf acc row).
Proof.
  intros s Hs. unfold fallback_row. destruct acc as [U E]. unfold bind at 1.
  destruct (check_columns_cases self cols s) as [->|[c ->]]; [|done].
  unfold bind, try_integrity, execute.
  destruct (refuses self _) as [e|]; [by destruct e|].
  pose proof (effect_no_rows
                (UpdateWhereId (row_id row) ((λ c, (c, get row c)) <$> cols)
                   (workspace_param self wf)) (pending s)) as Hno.
  destruct (effect _ (pending s)) as [db' rows]. simpl in Hno.
  destruct rows as [|out rows]; simpl.
  - unfold clean. simpl. by rewrite Hno.
  - by destruct (violation self db').
Qed.

Lemma process_batch_clean self cols wf inc acc batch :
  keeps clean (process_batch self cols wf inc acc batch).
Proof.
  intros s Hs. unfold process_batch. destruct acc as [U E].
  destruct batch as [|row batch]; [done|].
  unfold bind at 1.
  unfold try_integrity, _execute_batch_update. unfold bind at 1.
  cbv beta iota. set (b := row :: batch).
  destruct (check_columns_cases self cols s) as [->|[c ->]]; [|done].
  unfold bind at 1. unfold execute.
  assert (∀ s0, clean s0 →
            clean (bind (_fallback_row_by_row self b cols wf inc)
                     (λ '(row_results, row_errors),
                        ret (U ++ row_results, E ++ row_errors)) s0).1)
    as Hfb.
  { intros s0 Hs0. apply keeps_bind; [|intros []; apply keeps_ret|done].
    apply keeps_for_each. intros. apply fallback_row_clean. }
  destruct (refuses self _) as [e|].
  { destruct e; try done. simpl. by apply Hfb. }
  destruct (effect _ (pending s)) as [db' rows].
  destruct rows as [|out rows]; [done|].
  destruct (violation self db') as [msg|]; [|done].
  simpl. apply Hfb. done.
Qed.

(** X16. The call leaves nothing pending: on a session whose two states
    agree they agree again after it, every change having been
    committed or rolled back, whether the call returns or raises. *)
Theorem nothing_left_pending (self : Repository)
    (payload : list (gmap string value))
    (update_fields : option (list string)) (include_none : bool)
    (s : Session) :
  pending s = committed s →
  let s' := (bulk_update self payload update_fields include_none s).1 in
  pending s' = committed s'.
Proof.
  intros Hs. change (clean (bulk_update self payload update_fields
                              include_none s).1).
  revert s Hs. change (keeps clean (bulk_update self payload update_fields
                                       include_none)).
  unfold bulk_update. destruct payload as [|raw payload]; [apply keeps_ret|].
  destruct (normalise _ _ _) as [e|normalised]; [apply keeps_raise|].
  apply keeps_bind; [|intros [U E]; apply keeps_ret].
  apply keeps_for_each. intros acc [key grows] _. unfold process_group.
  apply keeps_for_each. intros. apply process_batch_clean.
Qed.

(** *** Validation of the payload *)

Lemma normalise_missing_id uf inc payload raw :
  raw ∈ payload → raw !! "id" = None →
  normalise uf inc payload
  = inl (ValueError "Every update schema must include an 'id' field").
Proof.
  intros Hin Hid. induction payload as [|raw' payload IH].
  { by apply elem_of_nil in Hin. }
  simpl. unfold normalise_item at 1.
  destruct (raw' !! "id") as [id|] eqn:Hid'; [|done].
  apply elem_of_cons in Hin as [->|Hin]; [congruence|].
  rewrite (IH Hin). by destruct (decide _).
Qed.

(** X21. A payload with an item that has no [id] is rejected as a whole
    with [ValueError], before any statement: the session, its trace
    included, is as it was, also when the items before it are
    valid. *)
Theorem item_without_id_rejects_payload (self : Repository)
    (payload : list (gmap string value))
    (update_fields : option (list string)) (include_none : bool)
    (s : Session) (raw : gmap string value) :
  raw ∈ payload → raw !! "id" = None →
  bulk_update self payload update_fields include_none s
  = (s, inl (ValueError "Every update schema must include an 'id' field")).
Proof.
  intros Hin Hid. unfold bulk_update.
  destruct payload as [|raw' payload]; [by apply elem_of_nil in Hin|].
  by rewrite (normalise_missing_id _ _ _ _ Hin Hid).
Qed.

(** *** Explicit fields with [include_none] *)

Lemma candidates_all_fields fields raw :
  dom (candidates (Some fields) true raw) = list_to_set fields.
Proof.
  unfold candidates, keep.
  induction fields as [|f fields IH]; [cbn; by rewrite dom_empty_L|].
  cbn. rewrite orb_true_r. cbn. rewrite dom_insert_L. by rewrite IH.
Qed.

(** X22. With [update_fields] given and [include_none] on, every item
    writes every one of the fields, those it lacks as [None]; so all
    the rows share one field set and there is at most one group. *)
Theorem explicit_fields_one_group
    (payload : list (gmap string value)) (fields : list string)
    (normalised : list (gmap string value)) :
  normalise (Some fields) true payload = inr normalised →
  (length (group_rows normalised) ≤ 1)%nat ∧
  ∀ g, g ∈ group_rows normalised →
       g.1 = list_to_set fields ∖ {[ "id"; "__empty" ]}.
Proof.
  intros Hn.
  assert (∀ g, g ∈ group_rows normalised →
               g.1 = list_to_set fields ∖ {[ "id"; "__empty" ]}) as Hkey.
  { intros [key grows] Hg.
    destruct (BulkUpdateProps.group_rows_key _ _ _ Hg) as (row & Hr & <-).
    destruct (normalised_row_source _ _ _ _ _ Hn Hr) as (raw & _ & Hitem).
    rewrite (normalise_item_cols _ _ _ _ Hitem).
    by rewrite candidates_all_fields. }
  split; [|done].
  destruct (BulkUpdateProps.group_rows_grouped normalised) as (Hnd & _ & _).
  destruct (group_rows normalised) as [|g1 [|g2 gs]]; simpl; [lia|lia|].
  exfalso. cbn in Hnd. apply NoDup_cons in Hnd as [Hnot _]. apply Hnot.
  rewrite (Hkey g1 ltac:(left)), <- (Hkey g2 ltac:(right; left)). left.
Qed.

(** *** The statements of a call *)

Lemma check_columns_ok self cols s s' :
  check_columns self cols s = (s', inr tt) → known self cols.
Proof.
  induction cols as [|c cols IH]; simpl.
  { intros _. apply Forall_nil_2. }
  case_bool_decide as Hc; [|done]. intros H.
  apply Forall_cons_2; [exact Hc|exact (IH H)].
Qed.

Lemma emits_guard {A} P self cols (m : M A) :
  (known self cols → BulkUpdateSpec.emits P m) →
  BulkUpdateSpec.emits P (bind (check_columns self cols) (λ _, m)).
Proof.
  intros Hm s. unfold bind.
  destruct (check_columns_cases self cols s) as [H|[c H]]; rewrite H.
  - apply Hm. by eapply check_columns_ok.
  - exists []. by rewrite app_nil_r.
Qed.

Lemma fallback_row_well_formed self cols acc row :
  BulkUpdateSpec.emits (well_formed self)
    (fallback_row self cols (bool_decide ("workspace_id" ∈ table_c self))
       acc row).
Proof.
  unfold fallback_row. destruct acc as [U E].
  apply emits_guard. intros Hk. apply BulkUpdateProps.emits_bind.
  - apply BulkUpdateProps.emits_try, BulkUpdateProps.emits_bind.
    + apply BulkUpdateProps.emits_execute. intros o. split; [done|].
      simpl. rewrite <- list_fmap_compose. by rewrite list_fmap_id.
    + intros res. destruct (head res); [|apply BulkUpdateProps.emits_ret].
      apply BulkUpdateProps.emits_bind;
        [by apply BulkUpdateProps.emits_commit|].
      intros _. apply BulkUpdateProps.emits_ret.
  - intros [exc|acc']; [|apply BulkUpdateProps.emits_ret].
    apply BulkUpdateProps.emits_bind;
      [by apply BulkUpdateProps.emits_rollback|].
    intros _. apply BulkUpdateProps.emits_ret.
Qed.

Lemma process_batch_well_formed self cols inc acc batch :
  BulkUpdateSpec.emits (well_formed self)
    (process_batch self cols (bool_decide ("workspace_id" ∈ table_c self))
       inc acc batch).
Proof.
  unfold process_batch. destruct acc as [U E].
  destruct batch as [|row batch]; [apply BulkUpdateProps.emits_ret|].
  set (b := row :: batch). apply BulkUpdateProps.emits_bind.
  - apply BulkUpdateProps.emits_try. unfold _execute_batch_update.
    apply emits_guard. intros Hk.
    apply BulkUpdateProps.emits_bind;
      [|intros; apply BulkUpdateProps.emits_ret].
    apply BulkUpdateProps.emits_execute. intros o. by split.
  - intros [exc|[batch_result missing_ids]].
    + apply BulkUpdateProps.emits_bind;
        [by apply BulkUpdateProps.emits_rollback|].
      intros _. apply BulkUpdateProps.emits_bind.
      * unfold _fallback_row_by_row. apply BulkUpdateProps.emits_for_each.
        intros. apply fallback_row_well_formed.
      * intros [row_results row_errors]. apply BulkUpdateProps.emits_ret.
    + apply BulkUpdateProps.emits_bind;
        [by apply BulkUpdateProps.emits_commit|].
      intros _. apply BulkUpdateProps.emits_ret.
Qed.

(** X28. Every statement that the call executes carries the filter of the
    tenant, when the table has the column, and assigns columns of the
    table only, whatever the payload is and whether the call returns
    or raises. *)
Theorem statements_scoped_and_known (self : Repository)
    (payload : list (gmap string value))
    (update_fields : option (list string)) (include_none : bool)
    (s : Session) :
  ∃ evs,
    trace (bulk_update self payload update_fields include_none s).1
    = trace s ++ evs ∧
    Forall (well_formed self) evs.
Proof.
  revert s.
  change (BulkUpdateSpec.emits (well_formed self)
            (bulk_update self payload update_fields include_none)).
  unfold bulk_update.
  destruct payload as [|raw payload]; [apply BulkUpdateProps.emits_ret|].
  destruct (normalise _ _ _) as [e|normalised];
    [apply BulkUpdateProps.emits_raise|].
  apply BulkUpdateProps.emits_bind;
    [|intros [U E]; apply BulkUpdateProps.emits_ret].
  apply BulkUpdateProps.emits_for_each. intros acc [key grows] _.
  unfold process_group. apply BulkUpdateProps.emits_for_each.
  intros. apply process_batch_well_formed.
Qed.

(** *** Groups and statements *)

(** X29. Rows are grouped by the set of field names they write: a row
    with fields is in the group of its field set, two rows of one
    group have the same field set, no two groups have the same one,
    and every statement that the call sends is built from rows of one
    field set, which is the set of its columns, all its tuples having
    one length; whether the call returns or raises. *)
Theorem rows_grouped_by_field_set (self : Repository)
    (payload : list (gmap string value))
    (update_fields : option (list string)) (include_none : bool)
    (normalised : list (gmap string value)) (s : Session) :
  normalise update_fields include_none payload = inr normalised →
  let groups := group_rows normalised in
  (∀ row, row ∈ normalised → row_cols row ≠ ∅ →
     ∃ rows, (row_cols row, rows) ∈ groups ∧ row ∈ rows) ∧
  (∀ k rows r1 r2, (k, rows) ∈ groups → r1 ∈ rows → r2 ∈ rows →
     row_cols r1 = row_cols r2) ∧
  NoDup groups.*1 ∧
  ∃ evs,
    trace (bulk_update self payload update_fields include_none s).1
    = trace s ++ evs ∧
    ∀ stmt o, Execute stmt o ∈ evs →
      ∃ cols ws batch,
        from_batch cols ws batch stmt ∧ has_shape cols stmt ∧
        NoDup cols ∧
        (∀ row, row ∈ batch →
                row ∈ normalised ∧ row_cols row = list_to_set cols) ∧
        (∀ r1 r2, r1 ∈ batch → r2 ∈ batch → row_cols r1 = row_cols r2).
Proof.
  intros Hn groups.
  destruct (BulkUpdateProps.group_rows_grouped normalised) as (Hnd & Hrows & Hkeys).
  split; [|split; [|split; [done|]]].
  - intros row Hin Hne. specialize (Hkeys row Hin Hne).
    apply list_elem_of_fmap in Hkeys as ([k rows] & Hk & Hg).
    simpl in Hk. subst k. exists rows. split; [done|].
    destruct (Hrows _ _ Hg) as (_ & _ & ->).
    by apply list_elem_of_filter.
  - intros k rows r1 r2 Hg H1 H2.
    destruct (BulkUpdateProps.group_rows_member _ _ _ _ Hg H1) as (_ & -> & _).
    by destruct (BulkUpdateProps.group_rows_member _ _ _ _ Hg H2) as (_ & -> & _).
  - destruct (BulkUpdateProps.bulk_update_emits self payload update_fields include_none
                normalised Hn s) as (evs & Ht & _).
    exists evs. split; [done|]. intros stmt o Hev.
    destruct (BulkUpdateProps.executed_from_groups
                _ _ _ _ _ _ _ Hn Ht stmt o Hev)
      as (k & rows & batch & ws & Hg & _ & Hsub & Hfrom).
    assert (∀ row, row ∈ batch →
                   row ∈ normalised ∧ row_cols row = list_to_set (sorted k))
      as Hb.
    { intros row Hr. rewrite BulkUpdateProps.list_to_set_sorted.
      destruct (BulkUpdateProps.group_rows_member _ _ _ _ Hg (Hsub _ Hr))
        as (? & ? & _).
      done. }
    exists (sorted k), ws, batch. split; [done|].
    split; [by eapply BulkUpdateProps.from_batch_shape|].
    split; [apply BulkUpdateProps.NoDup_sorted|].
    split; [done|]. intros r1 r2 H1 H2.
    destruct (Hb r1 H1) as [_ ->]. by destruct (Hb r2 H2) as [_ ->].
Qed.

(** *** The statement of a group *)

Lemma emits_any {A} P (m : M A) : emits P m → emits (λ _, True) m.
Proof.
  intros Hm s. destruct (Hm s) as (evs & Ht & _). exists evs.
  split; [done|]. by apply Forall_true.
Qed.

Lemma sends_bind {A B} stmt (m : M A) (f : A → M B) s :
  sends stmt m s → (∀ a, emits (λ _, True) (f a)) → sends stmt (bind m f) s.
Proof.
  intros (out & evs & Ht) Hf. unfold sends, bind.
  destruct (m s) as [s1 [e|a]]; simpl in *; [by eauto|].
  destruct (Hf a s1) as (evs' & Ht' & _). exists out, (evs ++ evs').
  rewrite Ht', Ht. by rewrite <- app_assoc.
Qed.

Lemma sends_try {A} stmt (m : M A) s :
  sends stmt m s → sends stmt (try_integrity m) s.
Proof.
  intros (out & evs & Ht). exists out, evs. unfold try_integrity.
  by destruct (m s) as [s1 [[| | | |]|a]].
Qed.

Lemma sends_execute self stmt s : sends stmt (execute self stmt) s.
Proof.
  unfold sends, execute. destruct (refuses self stmt) as [e|].
  { by exists (inl e), []. }
  destruct (effect stmt (pending s)) as [db' rows].
  destruct rows as [|r rows]; [|destruct (violation self db')];
    by eexists _, [].
Qed.

Lemma sends_guard {A} stmt self cols (m : M A) s :
  known self cols → sends stmt m s →
  sends stmt (bind (check_columns self cols) (λ _, m)) s.
Proof.
  intros Hk Hm. unfold sends, bind.
  by rewrite (BulkUpdateProps.check_columns_known _ _ _ Hk).
Qed.

Lemma process_batch_sends self cols wf inc acc batch s :
  batch ≠ [] → known self cols →
  sends (batch_statement self cols wf batch)
    (process_batch self cols wf inc acc batch) s.
Proof.
  intros Hne Hk. unfold process_batch. destruct acc as [U E].
  destruct batch as [|row batch]; [done|]. set (b := row :: batch).
  apply sends_bind.
  - apply sends_try. unfold _execute_batch_update.
    apply sends_guard; [exact Hk|].
    apply sends_bind; [apply sends_execute|].
    intros rs. apply BulkUpdateProps.emits_ret.
  - intros [exc|[batch_result missing_ids]].
    + apply BulkUpdateProps.emits_bind;
        [by apply BulkUpdateProps.emits_rollback|].
      intros _. apply BulkUpdateProps.emits_bind;
        [|intros [? ?]; apply BulkUpdateProps.emits_ret].
      unfold _fallback_row_by_row. apply BulkUpdateProps.emits_for_each.
      intros acc' x Hx.
      exact (emits_any _ _ (BulkUpdateProps.fallback_row_emits
                              self cols wf acc' x b Hx)).
    + apply BulkUpdateProps.emits_bind;
        [by apply BulkUpdateProps.emits_commit|].
      intros _. apply BulkUpdateProps.emits_ret.
Qed.

(** X34. A group whose columns the table has sends, when its turn
    comes, the set-based statement of its first chunk before anything
    else: the columns of the statement are the sorted field set of the
    group, its value list holds the rows of the chunk, and it carries
    the workspace when the filter is on. *)
Theorem group_sends_its_statement (self : Repository)
    (workspace_filter include_none : bool)
    (acc : list (gmap string value) * list (gmap string value))
    (cols_set : gset string) (rows : list (gmap string value))
    (s : Session) :
  rows ≠ [] →
  known self (sorted cols_set) →
  let chunk := take (Z.to_nat (max_rows (1 + Z.of_nat (size cols_set)))) rows in
  chunk ≠ [] ∧
  ∃ out evs,
    trace (process_group self workspace_filter include_none acc
             (cols_set, rows) s).1
    = trace s ++
      Execute (UpdateFromValues (sorted cols_set)
                 ((λ row, (row_id row, get row <$> sorted cols_set)) <$> chunk)
                 (workspace_param self workspace_filter)) out :: evs.
Proof.
  intros Hne Hk chunk.
  pose proof (BulkUpdateProps.max_rows_pos (1 + Z.of_nat (size cols_set))
                ltac:(lia)) as Hpos.
  assert (chunk ≠ []) as Hc.
  { unfold chunk. destruct rows as [|row rows]; [done|].
    destruct (Z.to_nat _) eqn:Hn; [lia|done]. }
  split; [exact Hc|].
  unfold process_group. rewrite BulkUpdateProps.length_sorted.
  destruct rows as [|row rows]; [done|].
  unfold batched. cbn [length batched_fuel for_each].
  apply (sends_bind
           (batch_statement self (sorted cols_set) workspace_filter chunk)).
  - by apply process_batch_sends.
  - intros acc'. apply BulkUpdateProps.emits_for_each.
    intros acc'' batch _.
    exact (emits_any _ _ (BulkUpdateProps.process_batch_emits
                            self (sorted cols_set) workspace_filter
                            include_none acc'' batch batch
                            (λ x Hx, Hx))).
Qed.

(** *** The same call with and without a foreign tuple *)

Section TwoRuns.

Variable self : Repository.
Variable X : Z.
Variable tx : gmap string value.

(** The tuple [X] belongs to another workspace, and the integrity
    constraints of the schema do not depend on it. *)
Hypothesis Hforeign : foreign self tx.
Hypothesis Hblind :
  ∀ db, db !! X = Some tx →
        violation self (delete X db) = violation self db.

Lemma stable_ret {A} (a : A) : stable X tx (ret a).
Proof. by intros s Hs. Qed.

Lemma stable_raise {A} e : stable X tx (raise (A := A) e).
Proof. by intros s Hs. Qed.

Lemma stable_bind {A B} (m : M A) (f : A → M B) :
  stable X tx m → (∀ a, stable X tx (f a)) → stable X tx (bind m f).
Proof.
  intros Hm Hf s Hs. unfold bind. destruct (Hm s Hs) as [Hp ->].
  destruct (m s) as [s1 [e|a]]; simpl in *; [done|]. by apply Hf.
Qed.

Lemma stable_try {A} (m : M A) : stable X tx m → stable X tx (try_integrity m).
Proof.
  intros Hm s Hs. unfold try_integrity. destruct (Hm s Hs) as [Hp ->].
  by destruct (m s) as [s1 [[| | | |]|a]]; simpl in *.
Qed.

Lemma stable_for_each {A S} (f : S → A → M S) (l : list A) :
  (∀ acc x, stable X tx (f acc x)) → ∀ acc, stable X tx (for_each f l acc).
Proof.
  intros Hf. induction l as [|x l IH]; intros acc; simpl.
  - apply stable_ret.
  - apply stable_bind; [apply Hf|apply IH].
Qed.

Lemma stable_commit : stable X tx commit.
Proof. intros s [Hp Hc]. by split. Qed.

Lemma stable_rollback : stable X tx rollback.
Proof. intros s [Hp Hc]. by split. Qed.

Lemma stable_check_columns cols : stable X tx (check_columns self cols).
Proof.
  induction cols as [|c cols IH]; simpl; [apply stable_ret|].
  case_bool_decide; [done|apply stable_raise].
Qed.

Lemma update_from_values_without cols values :
  ∀ seen db,
    db !! X = Some tx →
    update_from_values cols (Some (workspace_id self)) values seen
      (delete X db)
    = (delete X
         (update_from_values cols (Some (workspace_id self)) values
            seen db).1,
       (update_from_values cols (Some (workspace_id self)) values
          seen db).2) ∧
    (update_from_values cols (Some (workspace_id self)) values seen db).1
      !! X = Some tx.
Proof.
  induction values as [|[id vs] values IH]; intros seen db Hx.
  { simpl. auto. }
  cbn [update_from_values].
  destruct id as [| |k|]; try by apply IH.
  destruct (decide (k = X)) as [->|Hne].
  - rewrite lookup_delete_eq, Hx.
    assert (in_workspace (Some (workspace_id self)) tx = false) as ->
      by (by apply bool_decide_eq_false).
    simpl. by apply IH.
  - rewrite lookup_delete_ne by done.
    destruct (db !! k) as [t|] eqn:Hk; [|by apply IH].
    destruct (in_workspace (Some (workspace_id self)) t
              && bool_decide (k ∉ seen)); [|by apply IH].
    set (db1 := <[k := assign (zip cols vs) t]> db).
    assert (db1 !! X = Some tx) as H1
      by (unfold db1; by rewrite lookup_insert_ne).
    destruct (IH ({[k]} ∪ seen) db1 H1) as [H2 H3].
    replace (<[k := assign (zip cols vs) t]> (delete X db))
      with (delete X db1)
      by (unfold db1; by rewrite delete_insert_ne).
    rewrite H2.
    by destruct (update_from_values cols (Some (workspace_id self)) values
                   ({[k]} ∪ seen) db1) as [db' out].
Qed.

(** A statement that carries this tenant's workspace has the same
    effect on a store with the foreign tuple and on one without. *)
Lemma effect_without stmt db :
  (∃ cols values, stmt = UpdateFromValues cols values
                           (Some (workspace_id self))) ∨
  (∃ id assignments, stmt = UpdateWhereId id assignments
                              (Some (workspace_id self))) →
  db !! X = Some tx →
  effect stmt (delete X db)
  = (delete X (effect stmt db).1, (effect stmt db).2) ∧
  (effect stmt db).1 !! X = Some tx.
Proof.
  intros [(cols & values & ->)|(id & assignments & ->)] Hx.
  - by apply update_from_values_without.
  - cbn [effect]. destruct id as [| |k|]; try done.
    destruct (decide (k = X)) as [->|Hne].
    + rewrite lookup_delete_eq, Hx.
      assert (in_workspace (Some (workspace_id self)) tx = false) as ->
        by (by apply bool_decide_eq_false).
      done.
    + rewrite lookup_delete_ne by done.
      destruct (db !! k) as [t|] eqn:Hk; [|done].
      destruct (in_workspace (Some (workspace_id self)) t); [|done].
      simpl. rewrite lookup_insert_ne by done.
      by rewrite delete_insert_ne.
Qed.

Lemma stable_execute stmt :
  (∃ cols values, stmt = UpdateFromValues cols values
                           (Some (workspace_id self))) ∨
  (∃ id assignments, stmt = UpdateWhereId id assignments
                              (Some (workspace_id self))) →
  stable X tx (execute self stmt).
Proof.
  intros Hstmt s [Hp Hc]. unfold execute.
  destruct (refuses self stmt) as [e|]; [by split|].
  destruct (effect_without stmt (pending s) Hstmt Hp) as [He Hx].
  cbn [without pending]. rewrite He.
  destruct (effect stmt (pending s)) as [db' rows]. simpl in *.
  rewrite (Hblind db' Hx).
  destruct rows as [|r rows]; [by split|].
  destruct (violation self db'); by split.
Qed.

Lemma stable_fallback_row cols acc row :
  stable X tx (fallback_row self cols true acc row).
Proof.
  unfold fallback_row. destruct acc as [U E].
  apply stable_bind; [apply stable_check_columns|]. intros _.
  apply stable_bind.
  - apply stable_try, stable_bind.
    + apply stable_execute. right. eauto.
    + intros res. destruct (head res); [|apply stable_ret].
      apply stable_bind; [apply stable_commit|]. intros _.
      apply stable_ret.
  - intros [exc|acc']; [|apply stable_ret].
    apply stable_bind; [apply stable_rollback|]. intros _.
    apply stable_ret.
Qed.

Lemma stable_process_batch cols inc acc batch :
  stable X tx (process_batch self cols true inc acc batch).
Proof.
  unfold process_batch. destruct acc as [U E].
  destruct batch as [|row batch]; [apply stable_ret|].
  apply stable_bind.
  - apply stable_try. unfold _execute_batch_update.
    apply stable_bind; [apply stable_check_columns|]. intros _.
    apply stable_bind; [|intros rows; apply stable_ret].
    apply stable_execute. left. eauto.
  - intros [exc|[batch_result missing_ids]].
    + apply stable_bind; [apply stable_rollback|]. intros _.
      apply stable_bind.
      * apply stable_for_each. intros. apply stable_fallback_row.
      * intros [? ?]. apply stable_ret.
    + apply stable_bind; [apply stable_commit|]. intros _.
      apply stable_ret.
Qed.

Lemma stable_bulk_update payload uf inc :
  "workspace_id" ∈ table_c self →
  stable X tx (bulk_update self payload uf inc).
Proof.
  intros Hws. unfold bulk_update.
  destruct payload as [|raw payload]; [apply stable_ret|].
  rewrite (bool_decide_eq_true_2 _ Hws).
  destruct (normalise uf inc (raw :: payload)) as [e|normalised];
    [apply stable_raise|].
  apply stable_bind; [|intros [? ?]; apply stable_ret].
  apply stable_for_each. intros acc [k rows]. unfold process_group.
  apply stable_for_each. intros. apply stable_process_batch.
Qed.

End TwoRuns.

(** X33. On a table with a tenant column, a tuple of another workspace
    cannot be told from a missing one, when the integrity constraints
    of the schema do not depend on it: the call on the session without
    the tuple ends as the call on the session with it, with the same
    result or the same exception, the same statements, commits and
    rollbacks, and the same session but for the tuple, which is left
    as it was. *)
Theorem foreign_tuple_indistinguishable (self : Repository)
    (payload : list (gmap string value))
    (update_fields : option (list string)) (include_none : bool)
    (s : Session) (X : Z) (tx : gmap string value) :
  "workspace_id" ∈ table_c self →
  pending s !! X = Some tx →
  committed s !! X = Some tx →
  foreign self tx →
  (∀ db, db !! X = Some tx →
         violation self (delete X db) = violation self db) →
  let run := bulk_update self payload update_fields include_none in
  run (without X s) = (without X (run s).1, (run s).2) ∧
  pending (run s).1 !! X = Some tx ∧
  committed (run s).1 !! X = Some tx.
Proof.
  intros Hws Hp Hc Hf Hb run.
  destruct (stable_bulk_update self X tx Hf Hb payload update_fields
              include_none Hws s (conj Hp Hc)) as [[Hp' Hc'] Hrun].
  done.
Qed.

(** *** The outcome of a call *)

Lemma group_rows_none normalised :
  Forall (λ row, row_cols row = ∅) normalised → group_rows normalised = [].
Proof.
  intros Hall. destruct (group_rows normalised) as [|[k rows] groups] eqn:Hg;
    [done|].
  assert ((k, rows) ∈ group_rows normalised) as Hin by (rewrite Hg; left).
  destruct (BulkUpdateProps.group_rows_grouped normalised) as (_ & Hrows & _).
  destruct (Hrows k rows Hin) as (Hk & _ & _).
  destruct (BulkUpdateProps.group_rows_key _ _ _ Hin) as (row & Hrow & Hc).
  rewrite Forall_forall in Hall. specialize (Hall row Hrow). congruence.
Qed.

(** X30. On a session of the library, a call in which some row has a
    field to write does not return. The first chunk of the first group stops it: either a
    column of that group is not one of the table and the call raises a
    [KeyError] without sending a statement, or the set-based statement
    of the chunk is sent and refused and the call raises that error.
    Nothing is written. *)
Theorem call_with_fields_raises (self : Repository)
    (payload : list (gmap string value))
    (update_fields : option (list string)) (include_none : bool)
    (normalised : list (gmap string value)) (s : Session)
    (row : gmap string value) :
  refuses self = as_written →
  normalise update_fields include_none payload = inr normalised →
  row ∈ normalised →
  row_cols row ≠ ∅ →
  ∃ s' e,
    bulk_update self payload update_fields include_none s = (s', inl e) ∧
    pending s' = pending s ∧ committed s' = committed s ∧
    ((e = StatementError ∧
      ∃ stmt, trace s' = trace s ++ [Execute stmt (inl StatementError)]) ∨
     (∃ c, e = KeyError c ∧ (c ∉ table_c self) ∧ trace s' = trace s)).
Proof.
  intros Hlib Hn Hrow Hc.
  destruct (BulkUpdateProps.group_rows_grouped normalised)
    as (_ & Hrows & Hkeys).
  specialize (Hkeys row Hrow Hc).
  destruct (group_rows normalised) as [|[k rows] groups] eqn:Hg.
  { by apply elem_of_nil in Hkeys. }
  destruct (Hrows k rows ltac:(left)) as (_ & Hne & _).
  destruct rows as [|x rows]; [done|].
  unfold bulk_update. destruct payload as [|raw payload].
  { simpl in Hn. injection Hn as <-. by apply elem_of_nil in Hrow. }
  rewrite Hn, Hg. cbn [for_each]. unfold bind at 1. unfold bind at 1.
  unfold process_group.
  set (n := Z.to_nat (max_rows (1 + Z.of_nat (length (sorted k))))).
  assert (1 ≤ n)%nat as Hpos.
  { pose proof (BulkUpdateProps.max_rows_pos
                  (1 + Z.of_nat (length (sorted k))) ltac:(lia)). lia. }
  unfold batched. cbn [length batched_fuel for_each]. unfold bind at 1.
  assert (take n (x :: rows) ≠ []) as Hb.
  { destruct n; [lia|done]. }
  set (wf := bool_decide ("workspace_id" ∈ table_c self)).
  destruct (BulkUpdateProps.check_columns_outcome self (sorted k) s)
    as [[Hk _]|(c & _ & Hout & Hcheck)].
  - rewrite (BulkUpdateProps.process_batch_refused _ _ _ _ _ _ _ Hlib Hb Hk).
    eexists _, _. split; [reflexivity|]. split; [done|]. split; [done|].
    left. split; [done|]. by eexists.
  - rewrite (BulkUpdateProps.process_batch_unknown _ _ _ _ _ _ _ _ Hb Hcheck).
    eexists _, _. split; [reflexivity|]. split; [done|]. split; [done|].
    right. by exists c.
Qed.

(** X31. On a session of the library and a table with a tenant column,
    the row-by-row retry of a batch raises at its first row: the
    statement of the row does not compile, the error is not an
    [IntegrityError], and no row is retried, committed or reported. *)
Theorem fallback_raises_at_first_row (self : Repository)
    (cols : list string) (include_none : bool)
    (row : gmap string value) (rows : list (gmap string value))
    (s : Session) :
  refuses self = as_written →
  known self cols →
  _fallback_row_by_row self (row :: rows) cols true include_none s
  = (log (Execute (row_statement self cols true row) (inl CompileError)) s,
     inl CompileError).
Proof.
  intros Hlib Hk. unfold _fallback_row_by_row. cbn [for_each].
  unfold bind at 1. unfold fallback_row.
  unfold bind at 1. rewrite (BulkUpdateProps.check_columns_known _ _ _ Hk).
  unfold bind at 1. unfold try_integrity. unfold bind at 1.
  rewrite (BulkUpdateProps.execute_refused _ _ CompileError); [done|].
  by rewrite Hlib.
Qed.

(** X32. A call in which no row has a field to write returns without
    touching the session: nothing is updated, and the errors are the
    entries of the rows marked as empty. *)
Theorem call_without_fields_returns (self : Repository)
    (payload : list (gmap string value))
    (update_fields : option (list string)) (include_none : bool)
    (normalised : list (gmap string value)) (s : Session) :
  normalise update_fields include_none payload = inr normalised →
  Forall (λ row, row_cols row = ∅) normalised →
  bulk_update self payload update_fields include_none s
  = (s, inr {| updated := []; errors := empty_errors normalised |}).
Proof.
  intros Hn Hall. unfold bulk_update. destruct payload as [|raw payload].
  { simpl in Hn. by injection Hn as <-. }
  by rewrite Hn, (group_rows_none _ Hall).
Qed.

(** *** The properties on the sample data *)

Lemma users_filtered : "workspace_id" ∈ table_c Examples.users.
Proof. apply (bool_decide_unpack _). vm_compute. exact I. Qed.

(** The witness of X11: the sample payload on the sample table: the id
    7 of its last item is not created. *)
Lemma no_tuple_created_witness :
  let s := Examples.fresh Examples.users_db in
  let s' := (bulk_update Examples.users Examples.renames None false s).1 in
  pending s !! 7 = None ∧ committed s !! 7 = None ∧
  pending s' !! 7 = None ∧ committed s' !! 7 = None.
Proof.
  intros s s'.
  assert (pending s !! 7 = None) as H1 by (vm_compute; reflexivity).
  assert (committed s !! 7 = None) as H2 by (vm_compute; reflexivity).
  split; [exact H1|]. split; [exact H2|].
  exact (no_tuple_created Examples.users Examples.renames None false s 7
           H1 H2).
Defined.

(** The witness of X12: the sample payload renames the tuple 2 of
    tenant 2: it is left as it is. *)
Lemma foreign_tuple_untouched_witness :
  let s := Examples.fresh Examples.users_db in
  let t := Examples.user 2 "bob" in
  let s' := (bulk_update Examples.users Examples.renames None false s).1 in
  "workspace_id" ∈ table_c Examples.users ∧
  foreign Examples.users t ∧
  pending s !! 2 = Some t ∧ committed s !! 2 = Some t ∧
  pending s' !! 2 = Some t ∧ committed s' !! 2 = Some t.
Proof.
  intros s t s'.
  assert (foreign Examples.users t) as Hf by (vm_compute; discriminate).
  assert (pending s !! 2 = Some t) as H1 by (vm_compute; reflexivity).
  assert (committed s !! 2 = Some t) as H2 by (vm_compute; reflexivity).
  split; [exact users_filtered|]. split; [exact Hf|].
  split; [exact H1|]. split; [exact H2|].
  exact (foreign_tuple_untouched Examples.users Examples.renames None false
           s 2 t users_filtered Hf H1 H2).
Defined.

(** The witness of X13: the sample payload has no field
    [workspace_id]: that column of tuple 1 is not written. *)
Lemma unlisted_column_untouched_witness :
  let s := Examples.fresh Examples.users_db in
  let t := Examples.user 1 "ann" in
  let s' := (bulk_update Examples.users Examples.renames None false s).1 in
  ("workspace_id" ∈ [ "id"; "__empty" ] ∨
   ∀ raw, raw ∈ Examples.renames →
          "workspace_id" ∉ dom (candidates None false raw)) ∧
  pending s !! 1 = Some t ∧ committed s !! 1 = Some t ∧
  (∃ t', pending s' !! 1 = Some t' ∧ same_at "workspace_id" t t') ∧
  (∃ t', committed s' !! 1 = Some t' ∧ same_at "workspace_id" t t').
Proof.
  intros s t s'.
  assert ("workspace_id" ∈ [ "id"; "__empty" ] ∨
          ∀ raw, raw ∈ Examples.renames →
                 "workspace_id" ∉ dom (candidates None false raw)) as H0.
  { right. apply Forall_forall. apply (bool_decide_unpack _).
    vm_compute. exact I. }
  assert (pending s !! 1 = Some t) as H1 by (vm_compute; reflexivity).
  assert (committed s !! 1 = Some t) as H2 by (vm_compute; reflexivity).
  split; [exact H0|]. split; [exact H1|]. split; [exact H2|].
  exact (unlisted_column_untouched Examples.users Examples.renames None
           false s 1 t "workspace_id" H0 H1 H2).
Defined.

(** The witness of X14: an item that carries a price, with
    [update_fields=["name"]]. *)
Lemma only_update_fields_written_witness :
  let s := Examples.fresh Examples.users_db in
  let t := Examples.user 1 "ann" in
  let payload := [Examples.reprice 1 10] in
  let s' := (bulk_update Examples.users payload (Some ["name"]) true s).1 in
  ("price" ∉ ["name"]) ∧
  pending s !! 1 = Some t ∧ committed s !! 1 = Some t ∧
  (∃ t', pending s' !! 1 = Some t' ∧ same_at "price" t t') ∧
  (∃ t', committed s' !! 1 = Some t' ∧ same_at "price" t t').
Proof.
  intros s t payload s'.
  assert ("price" ∉ ["name"]) as H0.
  { apply (bool_decide_unpack _). vm_compute. exact I. }
  assert (pending s !! 1 = Some t) as H1 by (vm_compute; reflexivity).
  assert (committed s !! 1 = Some t) as H2 by (vm_compute; reflexivity).
  split; [exact H0|]. split; [exact H1|]. split; [exact H2|].
  exact (only_update_fields_written Examples.users payload ["name"] true
           s 1 t "price" H0 H1 H2).
Defined.

(** The witness of X15: an item with [name = None] for tuple 1, whose
    name is [ann]. *)
Lemma none_never_written_witness :
  let s := Examples.fresh Examples.users_db in
  let t := Examples.user 1 "ann" in
  let payload := [Examples.reprice 1 10] in
  let s' := (bulk_update Examples.users payload None false s).1 in
  get t "name" ≠ VNone ∧
  pending s !! 1 = Some t ∧ committed s !! 1 = Some t ∧
  (∃ t', pending s' !! 1 = Some t' ∧ get t' "name" ≠ VNone) ∧
  (∃ t', committed s' !! 1 = Some t' ∧ get t' "name" ≠ VNone).
Proof.
  intros s t payload s'.
  assert (get t "name" ≠ VNone) as H0 by (vm_compute; discriminate).
  assert (pending s !! 1 = Some t) as H1 by (vm_compute; reflexivity).
  assert (committed s !! 1 = Some t) as H2 by (vm_compute; reflexivity).
  split; [exact H0|]. split; [exact H1|]. split; [exact H2|].
  exact (none_never_written Examples.users payload None s 1 t "name"
           H0 H1 H2).
Defined.

(** The witness of X16: the sample call on a session without pending
    changes. *)
Lemma nothing_left_pending_witness :
  let s := Examples.fresh Examples.users_db in
  let s' := (bulk_update Examples.users Examples.renames None false s).1 in
  pending s = committed s ∧ pending s' = committed s'.
Proof.
  intros s s'. split; [reflexivity|].
  exact (nothing_left_pending Examples.users Examples.renames None false s
           eq_refl).
Defined.

(** The witness of X21: a valid item followed by one without [id]. *)
Lemma item_without_id_rejects_payload_witness :
  let s := Examples.fresh Examples.users_db in
  let payload := [Examples.rename 1 "dan"; Samples.anonymous] in
  Samples.anonymous ∈ payload ∧
  Samples.anonymous !! "id" = None ∧
  bulk_update Examples.users payload None false s
  = (s, inl (ValueError "Every update schema must include an 'id' field")).
Proof.
  intros s payload.
  assert (Samples.anonymous ∈ payload) as H1 by (right; left).
  assert (Samples.anonymous !! "id" = None) as H2
    by (vm_compute; reflexivity).
  split; [exact H1|]. split; [exact H2|].
  exact (item_without_id_rejects_payload Examples.users payload None false
           s Samples.anonymous H1 H2).
Defined.

(** The witness of X22: the two items of [mixed], which write
    different fields, with both fields given and [include_none] on. *)
Lemma explicit_fields_one_group_witness :
  normalise (Some ["name"; "price"]) true Examples.mixed
  = inr Samples.mixed_all_fields ∧
  (length (group_rows Samples.mixed_all_fields) ≤ 1)%nat ∧
  ∀ g, g ∈ group_rows Samples.mixed_all_fields →
       g.1 = list_to_set ["name"; "price"] ∖ {[ "id"; "__empty" ]}.
Proof.
  assert (normalise (Some ["name"; "price"]) true Examples.mixed
          = inr Samples.mixed_all_fields) as H
    by (vm_compute; reflexivity).
  split; [exact H|].
  exact (explicit_fields_one_group Examples.mixed ["name"; "price"]
           Samples.mixed_all_fields H).
Defined.

(** The witness of X29: a row that writes [name] and one that writes
    [price]. *)
Lemma rows_grouped_by_field_set_witness :
  let self := Examples.users in
  let s := Examples.fresh Examples.users_db in
  let groups := group_rows Examples.mixed_normalised in
  normalise None false Examples.mixed = inr Examples.mixed_normalised ∧
  ((∀ row, row ∈ Examples.mixed_normalised → row_cols row ≠ ∅ →
      ∃ rows, (row_cols row, rows) ∈ groups ∧ row ∈ rows) ∧
   (∀ k rows r1 r2, (k, rows) ∈ groups → r1 ∈ rows → r2 ∈ rows →
      row_cols r1 = row_cols r2) ∧
   NoDup groups.*1 ∧
   ∃ evs,
     trace (bulk_update self Examples.mixed None false s).1
     = trace s ++ evs ∧
     ∀ stmt o, Execute stmt o ∈ evs →
       ∃ cols ws batch,
         from_batch cols ws batch stmt ∧ has_shape cols stmt ∧
         NoDup cols ∧
         (∀ row, row ∈ batch →
                 row ∈ Examples.mixed_normalised ∧
                 row_cols row = list_to_set cols) ∧
         (∀ r1 r2, r1 ∈ batch → r2 ∈ batch → row_cols r1 = row_cols r2)).
Proof.
  intros self s groups. split; [exact BulkUpdateProps.mixed_normalise|].
  exact (rows_grouped_by_field_set self Examples.mixed None false
           Examples.mixed_normalised s BulkUpdateProps.mixed_normalise).
Defined.

(** The witness of X30: the sample payload on the sample table. *)
Lemma call_with_fields_raises_witness :
  let self := Examples.users in
  let s := Examples.fresh Examples.users_db in
  let row : gmap string value := {[ "id" := VInt 1; "name" := VStr "dan" ]} in
  refuses self = as_written ∧
  normalise None false Examples.renames = inr Examples.renames_normalised ∧
  row ∈ Examples.renames_normalised ∧
  row_cols row ≠ ∅ ∧
  ∃ s' e,
    bulk_update self Examples.renames None false s = (s', inl e) ∧
    pending s' = pending s ∧ committed s' = committed s ∧
    ((e = StatementError ∧
      ∃ stmt, trace s' = trace s ++ [Execute stmt (inl StatementError)]) ∨
     (∃ c, e = KeyError c ∧ (c ∉ table_c self) ∧ trace s' = trace s)).
Proof.
  intros self s row.
  assert (row ∈ Examples.renames_normalised) as H1 by left.
  assert (row_cols row ≠ ∅) as H2.
  { apply (bool_decide_unpack _). vm_compute. exact I. }
  split; [reflexivity|].
  split; [exact BulkUpdateProps.renames_normalise|].
  split; [exact H1|]. split; [exact H2|].
  exact (call_with_fields_raises self Examples.renames None false
           Examples.renames_normalised s row eq_refl
           BulkUpdateProps.renames_normalise H1 H2).
Defined.

(** The witness of X32: two items whose fields are all [None]. *)
Lemma call_without_fields_returns_witness :
  let self := Examples.users in
  let s := Examples.fresh Examples.users_db in
  let payload := [Examples.nothing 1; Examples.nothing 7] in
  let normalised : list (gmap string value) :=
    [ {[ "id" := VInt 1; "__empty" := VBool true ]};
      {[ "id" := VInt 7; "__empty" := VBool true ]} ] in
  normalise None false payload = inr normalised ∧
  Forall (λ row, row_cols row = ∅) normalised ∧
  bulk_update self payload None false s
  = (s, inr {| updated := []; errors := empty_errors normalised |}).
Proof.
  intros self s payload normalised.
  assert (normalise None false payload = inr normalised) as H1
    by (vm_compute; reflexivity).
  assert (Forall (λ row, row_cols row = ∅) normalised) as H2.
  { apply (bool_decide_unpack _). vm_compute. exact I. }
  split; [exact H1|]. split; [exact H2|].
  exact (call_without_fields_returns self payload None false normalised s
           H1 H2).
Defined.

(** The witness of X31: the retry of the three renames of the sample
    payload. *)
Lemma fallback_raises_at_first_row_witness :
  let self := Examples.users in
  let s := Examples.fresh Examples.users_db in
  let row : gmap string value := {[ "id" := VInt 1; "name" := VStr "dan" ]} in
  let rows : list (gmap string value) :=
    [ {[ "id" := VInt 2; "name" := VStr "eve" ]};
      {[ "id" := VInt 3; "name" := VStr "bob" ]} ] in
  refuses self = as_written ∧
  known self ["name"] ∧
  _fallback_row_by_row self (row :: rows) ["name"] true false s
  = (log (Execute (row_statement self ["name"] true row) (inl CompileError)) s,
     inl CompileError).
Proof.
  intros self s row rows.
  assert (known self ["name"]) as Hk.
  { apply (bool_decide_unpack _). vm_compute. exact I. }
  split; [reflexivity|]. split; [exact Hk|].
  exact (fallback_raises_at_first_row self ["name"] false row rows s
           eq_refl Hk).
Defined.

Lemma local_users_blind (db : gmap Z (gmap string value)) :
  db !! 2 = Some (Examples.user 2 "bob") →
  violation Samples.local_users (delete 2 db)
  = violation Samples.local_users db.
Proof.
  intros Hx. simpl. unfold Samples.unique_own_name.
  rewrite map_filter_delete.
  rewrite (delete_id (filter Samples.own db) 2); [done|].
  apply map_lookup_filter_None. right. intros t Ht.
  rewrite Hx in Ht. injection Ht as <-. unfold Samples.own. simpl.
  by vm_compute.
Qed.

(** The witness of X33: tuple 2 of the sample table belongs to tenant
    2, and the schema makes names unique within a tenant. *)
Lemma foreign_tuple_indistinguishable_witness :
  let self := Samples.local_users in
  let s := Examples.fresh Examples.users_db in
  let tx := Examples.user 2 "bob" in
  let run := bulk_update self Examples.renames None false in
  ("workspace_id" ∈ table_c self) ∧
  pending s !! 2 = Some tx ∧
  committed s !! 2 = Some tx ∧
  foreign self tx ∧
  (∀ db, db !! 2 = Some tx →
         violation self (delete 2 db) = violation self db) ∧
  run (without 2 s) = (without 2 (run s).1, (run s).2) ∧
  pending (run s).1 !! 2 = Some tx ∧
  committed (run s).1 !! 2 = Some tx.
Proof.
  intros self s tx run.
  assert ("workspace_id" ∈ table_c self) as Hws.
  { apply (bool_decide_unpack _). vm_compute. exact I. }
  assert (pending s !! 2 = Some tx) as Hp by (vm_compute; reflexivity).
  assert (committed s !! 2 = Some tx) as Hc by (vm_compute; reflexivity).
  assert (foreign self tx) as Hf by (vm_compute; discriminate).
  split; [exact Hws|]. split; [exact Hp|]. split; [exact Hc|].
  split; [exact Hf|]. split; [exact local_users_blind|].
  exact (foreign_tuple_indistinguishable self Examples.renames None false
           s 2 tx Hws Hp Hc Hf local_users_blind).
Defined.

(** The witness of X34: the group of the three renames of the sample
    payload. *)
Lemma group_sends_its_statement_witness :
  let self := Examples.users in
  let s := Examples.fresh Examples.users_db in
  let cols_set : gset string := {[ "name" ]} in
  let rows := take 3 Examples.renames_normalised in
  let chunk := take (Z.to_nat (max_rows (1 + Z.of_nat (size cols_set)))) rows in
  rows ≠ [] ∧
  known self (sorted cols_set) ∧
  chunk ≠ [] ∧
  ∃ out evs,
    trace (process_group self true false ([], []) (cols_set, rows) s).1
    = trace s ++
      Execute (UpdateFromValues (sorted cols_set)
                 ((λ row, (row_id row, get row <$> sorted cols_set)) <$> chunk)
                 (workspace_param self true)) out :: evs.
Proof.
  intros self s cols_set rows chunk.
  assert (rows ≠ []) as H1 by (vm_compute; discriminate).
  assert (known self (sorted cols_set)) as H2.
  { apply (bool_decide_unpack _). vm_compute. exact I. }
  split; [exact H1|]. split; [exact H2|].
  exact (group_sends_its_statement self true false ([], []) cols_set rows s
           H1 H2).
Defined.

End BulkUpdateExtra.

(** ** Properties of the helpers *)

Module UtilsProps.

Import PyText Utils Validators.

(** *** Characters *)

Lemma lower_char_space (c : ascii) :
  PyStr.is_space (PyStr.lower_char c) = PyStr.is_space c.
Proof. destruct c as [[] [] [] [] [] [] [] []]; reflexivity. Qed.

Lemma lower_char_idem (c : ascii) :
  PyStr.lower_char (PyStr.lower_char c) = PyStr.lower_char c.
Proof. destruct c as [[] [] [] [] [] [] [] []]; reflexivity. Qed.

Lemma lower_char_underscore (c : ascii) :
  c ≠ "_"%char → PyStr.lower_char c ≠ "_"%char.
Proof. destruct c as [[] [] [] [] [] [] [] []]; vm_compute; congruence. Qed.

Lemma upper_char_underscore (c : ascii) :
  c ≠ "_"%char → upper_char c ≠ "_"%char.
Proof. destruct c as [[] [] [] [] [] [] [] []]; vm_compute; congruence. Qed.

(** *** Strings and their characters *)

Lemma chars_append (s1 s2 : string) :
  list_ascii_of_string (s1 +:+ s2)
  = list_ascii_of_string s1 ++ list_ascii_of_string s2.
Proof. induction s1 as [|c s1 IH]; [done|]. simpl. by rewrite IH. Qed.

Lemma chars_fmap (ls : list (list ascii)) :
  list_ascii_of_string <$> (string_of_list_ascii <$> ls) = ls.
Proof.
  induction ls as [|l ls IH]; [done|]. cbn.
  rewrite list_ascii_of_string_of_list_ascii. f_equal. exact IH.
Qed.

(** *** [split] *)

Lemma split_chars_parts sep l :
  ∀ cur, sep ∉ cur → Forall (λ p, sep ∉ p) (split_chars sep cur l).
Proof.
  induction l as [|c l IH]; intros cur Hcur; simpl.
  { constructor; [|constructor]. by rewrite SearchExtra.elem_of_rev. }
  destruct (Ascii.eqb c sep) eqn:Hc.
  - constructor; [by rewrite SearchExtra.elem_of_rev|]. apply IH.
    apply not_elem_of_nil.
  - apply IH. apply Ascii.eqb_neq in Hc. set_solver.
Qed.

Lemma split_chars_plain sep l :
  sep ∉ l → ∀ cur, split_chars sep cur l = [rev cur ++ l].
Proof.
  induction l as [|c l IH]; intros Hl cur; simpl.
  { by rewrite app_nil_r. }
  apply not_elem_of_cons in Hl as [Hc Hl].
  destruct (Ascii.eqb c sep) eqn:Heq.
  { apply Ascii.eqb_eq in Heq. congruence. }
  rewrite (IH Hl). simpl. by rewrite <- app_assoc.
Qed.

Lemma split_chars_nonempty sep l cur : split_chars sep cur l ≠ [].
Proof.
  revert cur. induction l as [|c l IH]; intros cur; simpl; [done|].
  destruct (Ascii.eqb c sep); [done|apply IH].
Qed.

Lemma join_chars_nil (parts : list (list ascii)) :
  join_chars [] parts = mjoin parts.
Proof.
  induction parts as [|p [|q rest] IH]; [done| |].
  - simpl. by rewrite app_nil_r.
  - change (join_chars [] (p :: q :: rest))
      with (p ++ [] ++ join_chars [] (q :: rest)).
    rewrite IH. done.
Qed.

Lemma capitalize_chars_underscore (p : list ascii) :
  "_"%char ∉ p → "_"%char ∉ capitalize_chars p.
Proof.
  destruct p as [|c r]; [done|]. simpl. intros H.
  apply not_elem_of_cons in H as [Hc Hr]. apply not_elem_of_cons. split.
  - intros Heq. by apply (upper_char_underscore c).
  - intros Hin. apply list_elem_of_In, in_map_iff in Hin as (c' & Heq & Hin).
    apply (lower_char_underscore c'); [|done].
    intros ->. by apply Hr, list_elem_of_In.
Qed.

(** [to_camel] on the characters. *)
Lemma to_camel_chars (s : string) :
  ∃ first rest,
    split_chars "_" [] (list_ascii_of_string s) = first :: rest ∧
    to_camel s
    = inr (string_of_list_ascii
             (first ++ mjoin (capitalize_chars <$> rest))).
Proof.
  unfold to_camel, split.
  destruct (split_chars "_" [] (list_ascii_of_string s)) as [|first rest]
    eqn:Hs.
  { by apply split_chars_nonempty in Hs. }
  exists first, rest. split; [done|]. cbn. f_equal.
  rewrite <- (string_of_list_ascii_of_string
                (string_of_list_ascii first +:+ _)).
  f_equal. rewrite chars_append, list_ascii_of_string_of_list_ascii.
  f_equal. unfold join. rewrite list_ascii_of_string_of_list_ascii.
  cbn. rewrite join_chars_nil. f_equal.
  rewrite <- !list_fmap_compose. apply list_fmap_ext. intros _ p _. simpl.
  unfold capitalize. by rewrite !list_ascii_of_string_of_list_ascii.
Qed.

Lemma to_camel_plain (s : string) :
  "_"%char ∉ list_ascii_of_string s → to_camel s = inr s.
Proof.
  intros Hs. destruct (to_camel_chars s) as (first & rest & Hsp & ->).
  rewrite (split_chars_plain _ _ Hs) in Hsp. injection Hsp as <- <-.
  cbn. rewrite app_nil_r. by rewrite string_of_list_ascii_of_string.
Qed.

Lemma to_camel_clean (s r : string) :
  to_camel s = inr r → "_"%char ∉ list_ascii_of_string r.
Proof.
  destruct (to_camel_chars s) as (first & rest & Hsp & ->). intros [= <-].
  rewrite list_ascii_of_string_of_list_ascii.
  pose proof (split_chars_parts "_" (list_ascii_of_string s) []
                ltac:(apply not_elem_of_nil)) as Hall.
  rewrite Hsp in Hall. apply Forall_cons in Hall as [Hf Hr].
  apply not_elem_of_app. split; [done|]. intros Hin.
  apply list_elem_of_join in Hin as (p & Hp & Hin).
  apply list_elem_of_fmap in Hin as (p0 & -> & Hin).
  rewrite Forall_forall in Hr.
  exact (capitalize_chars_underscore p0 (Hr p0 Hin) Hp).
Qed.

(** X24. [to_camel] always returns, its result has no underscore, and it
    leaves its own results as they are. *)
Theorem to_camel_idempotent (s : string) :
  ∃ r, to_camel s = inr r ∧
       ("_"%char ∉ list_ascii_of_string r) ∧
       to_camel r = inr r.
Proof.
  destruct (to_camel_chars s) as (first & rest & _ & Hr).
  eexists. split; [exact Hr|]. pose proof (to_camel_clean _ _ Hr) as Hc.
  split; [done|]. by apply to_camel_plain.
Qed.

(** X25. A name without underscore is its own camel case. *)
Theorem to_camel_keeps_plain_names (s : string) :
  "_"%char ∉ list_ascii_of_string s → to_camel s = inr s.
Proof. apply to_camel_plain. Qed.

(** *** [split()] and [strip()] *)

Lemma words_lstrip l : words [] (PyStr.lstrip l) = words [] l.
Proof.
  induction l as [|c l IH]; [done|]. simpl.
  destruct (PyStr.is_space c) eqn:Hc; [done|]. simpl. by rewrite Hc.
Qed.

Lemma words_snoc_space l c :
  PyStr.is_space c = true → ∀ cur, words cur (l ++ [c]) = words cur l.
Proof.
  intros Hc. induction l as [|c0 l IH]; intros cur; simpl.
  - rewrite Hc. by destruct cur.
  - destruct (PyStr.is_space c0); [|apply IH].
    destruct cur; by rewrite IH.
Qed.

Lemma words_rstrip l :
  ∀ cur, words cur (rev (PyStr.lstrip (rev l))) = words cur l.
Proof.
  induction l as [|c l IH] using rev_ind; intros cur; [done|].
  rewrite rev_app_distr. simpl.
  destruct (PyStr.is_space c) eqn:Hc.
  - rewrite IH. by rewrite words_snoc_space.
  - simpl. by rewrite rev_involutive.
Qed.

Lemma words_strip (s : string) :
  words [] (list_ascii_of_string (PyStr.strip s))
  = words [] (list_ascii_of_string s).
Proof.
  unfold PyStr.strip. rewrite list_ascii_of_string_of_list_ascii.
  by rewrite words_rstrip, words_lstrip.
Qed.

(** X26. [normalize] of a string is [normalize_str] in lower case: the
    [strip()] before [split()] changes nothing. *)
Theorem normalize_is_normalize_str (s : string) :
  normalize (Str s) = inr (Str (normalize_str s Lower)).
Proof.
  simpl. unfold normalize_one, normalize_str, split_ws.
  by rewrite words_strip.
Qed.

(** *** The normal form *)

Lemma word_rev cur :
  cur ≠ [] → Forall (λ c, PyStr.is_space c = false) cur → word (rev cur).
Proof.
  intros Hne Hcur. split.
  - intros Hr. apply (f_equal (@rev _)) in Hr.
    by rewrite rev_involutive in Hr.
  - apply Forall_forall. intros x Hx.
    apply (proj1 (SearchExtra.elem_of_rev x cur)) in Hx.
    rewrite Forall_forall in Hcur. by apply Hcur.
Qed.

Lemma words_word l :
  ∀ cur, Forall (λ c, PyStr.is_space c = false) cur →
         Forall word (words cur l).
Proof.
  induction l as [|c l IH]; intros cur Hcur; cbn [words].
  - destruct cur as [|c0 cur]; [constructor|].
    constructor; [|constructor]. by apply word_rev.
  - destruct (PyStr.is_space c) eqn:Hc.
    + destruct cur as [|c0 cur]; [by apply IH|].
      constructor; [|by apply IH]. by apply word_rev.
    + apply IH. by constructor.
Qed.

Lemma words_app_word w l :
  Forall (λ c, PyStr.is_space c = false) w →
  ∀ cur, words cur (w ++ l) = words (rev w ++ cur) l.
Proof.
  induction 1 as [|c w Hc _ IH]; intros cur; [done|].
  simpl. rewrite Hc. rewrite IH. by rewrite <- app_assoc.
Qed.

Lemma words_blank cur l :
  words cur (" "%char :: l)
  = match cur with [] => words [] l | _ => rev cur :: words [] l end.
Proof. reflexivity. Qed.

Lemma words_join ws :
  Forall word ws → words [] (join_chars [" "%char] ws) = ws.
Proof.
  induction 1 as [|w ws [Hne Hw] Hws IH]; [done|].
  destruct ws as [|w' ws].
  - simpl. rewrite <- (app_nil_r w) at 1. rewrite words_app_word by done.
    simpl. rewrite app_nil_r.
    destruct (rev w) eqn:Hr; [|by rewrite <- Hr, rev_involutive].
    apply (f_equal (@rev _)) in Hr. rewrite rev_involutive in Hr. done.
  - change (join_chars [" "%char] (w :: w' :: ws))
      with (w ++ [" "%char] ++ join_chars [" "%char] (w' :: ws)).
    rewrite words_app_word by done. rewrite app_nil_r.
    change ([" "%char] ++ join_chars [" "%char] (w' :: ws))
      with (" "%char :: join_chars [" "%char] (w' :: ws)).
    rewrite words_blank, IH.
    destruct (rev w) eqn:Hr; [|by rewrite <- Hr, rev_involutive].
    apply (f_equal (@rev _)) in Hr. rewrite rev_involutive in Hr. done.
Qed.

Lemma words_lower l :
  ∀ cur, words (map PyStr.lower_char cur) (map PyStr.lower_char l)
         = map (map PyStr.lower_char) (words cur l).
Proof.
  induction l as [|c l IH]; intros cur; simpl.
  - destruct cur; [done|]. simpl. by rewrite map_app, map_rev.
  - pose proof (IH []) as IH0. simpl in IH0.
    rewrite lower_char_space. destruct (PyStr.is_space c).
    + destruct cur as [|c0 cur]; simpl; [exact IH0|].
      rewrite IH0. by rewrite map_app, map_rev.
    + apply (IH (c :: cur)).
Qed.

Lemma join_lower ws :
  map PyStr.lower_char (join_chars [" "%char] ws)
  = join_chars [" "%char] (map (map PyStr.lower_char) ws).
Proof.
  induction ws as [|w [|w' ws] IH]; [done|done|].
  change (join_chars [" "%char] (w :: w' :: ws))
    with (w ++ [" "%char] ++ join_chars [" "%char] (w' :: ws)).
  rewrite !map_app, IH. done.
Qed.

Lemma word_lower w : word w → word (map PyStr.lower_char w).
Proof.
  intros [Hne Hw]. split; [by destruct w|].
  apply Forall_forall. intros c Hc.
  apply list_elem_of_In, in_map_iff in Hc as (c0 & <- & Hc0).
  rewrite lower_char_space. rewrite Forall_forall in Hw.
  by apply Hw, list_elem_of_In.
Qed.

(** [normalize_one] on the characters. *)
Lemma normalize_one_chars (s : string) :
  normalize_one s
  = string_of_list_ascii
      (map PyStr.lower_char
         (join_chars [" "%char] (words [] (list_ascii_of_string s)))).
Proof.
  unfold normalize_one, PyStr.lower, join, split_ws.
  rewrite words_strip, list_ascii_of_string_of_list_ascii, chars_fmap.
  done.
Qed.

(** X27. [normalize] leaves its own results as they are, for a string and
    for each string of a list. *)
Theorem normalize_idempotent (strings r : Strings) :
  normalize strings = inr r → normalize r = inr r.
Proof.
  assert (∀ s, normalize_one (normalize_one s) = normalize_one s) as Hone.
  { intros s. rewrite (normalize_one_chars (normalize_one s)).
    rewrite (normalize_one_chars s) at 1.
    rewrite list_ascii_of_string_of_list_ascii.
    set (ws := words [] (list_ascii_of_string s)).
    assert (Forall word ws) as Hws by (apply words_word; constructor).
    rewrite (join_lower ws). rewrite words_join.
    2:{ apply Forall_forall. intros w Hw.
        apply list_elem_of_In, in_map_iff in Hw as (w0 & <- & Hw0).
        apply word_lower. rewrite Forall_forall in Hws.
        by apply Hws, list_elem_of_In. }
    rewrite <- join_lower. rewrite map_map.
    rewrite (map_ext _ PyStr.lower_char) by apply lower_char_idem.
    by rewrite normalize_one_chars. }
  destruct strings as [s|l|]; intros [= <-]; simpl; [by rewrite Hone|].
  f_equal. f_equal. rewrite <- list_fmap_compose.
  apply list_fmap_ext. intros _ s _. apply Hone.
Qed.

(** *** The helpers on sample text *)

Example to_camel_run :
  to_camel "page_size" = inr "pageSize" ∧
  to_camel "total__pages_" = inr "totalPages" ∧
  to_camel "_private" = inr "Private" ∧
  to_camel "" = inr "".
Proof. repeat split; vm_compute; reflexivity. Qed.

(** The witness of X25. *)
Lemma to_camel_keeps_plain_names_witness :
  ("_"%char ∉ list_ascii_of_string "total") ∧ to_camel "total" = inr "total".
Proof.
  assert ("_"%char ∉ list_ascii_of_string "total") as H.
  { apply (bool_decide_unpack _). vm_compute. exact I. }
  split; [exact H|]. exact (to_camel_keeps_plain_names "total" H).
Defined.

(** The witness of X27. *)
Lemma normalize_idempotent_witness :
  normalize (StrList ["  Hello   World "; "A  b"])
  = inr (StrList ["hello world"; "a b"]) ∧
  normalize (StrList ["hello world"; "a b"])
  = inr (StrList ["hello world"; "a b"]).
Proof.
  assert (normalize (StrList ["  Hello   World "; "A  b"])
          = inr (StrList ["hello world"; "a b"])) as H
    by (vm_compute; reflexivity).
  split; [exact H|]. exact (normalize_idempotent _ _ H).
Defined.

End UtilsProps.
